(** * Sandbox SDK: job correlation, streaming assembly, rate limiting, metrics

    A shallow embedding of [src/sandboxSdk.ts].  The two instrumentation
    classes ([MetricsCollector], [RateLimiter]) are pure state records.  The
    protocol layer ([sendJob], [sendStreamingJob], [runTerminal],
    [parseOutput], the listener registry) is a transition system over an
    [Sdk] record: user calls, timer expiries and incoming socket events are
    the steps, and every closure created by a call keeps its captured
    variables in the store of closures.

    Conventions.
    - [Date.now()] is an argument [now : Z] (milliseconds) of every function
      that reads the clock, and [uuid()] an argument of every call that
      draws an identifier.
    - JavaScript numbers that the code only adds, subtracts and compares are
      integers [Z]; the mean of the response times is the exact quotient, a
      rational [Q]: the double the code stores is the one nearest to it, and
      what is stated of the average holds of both.
    - A promise is its state; [resolve] and [reject] on a settled promise do
      nothing, as in JavaScript.
    - The socket is the table of handlers of the emitter ([on], [off]) and
      the list of emitted messages; an incoming event is handed to the
      handlers attached for its name, in order.
    - The [line] of a structured chunk is carried in decoded form, each key
      of an object once ([JSON.parse] belongs to the runtime).
    - In [Sdk] a handler runs to completion before the next step: the call
      of [outputListener] and what follows its [await] are one step.  Module
      [Async] splits the two: a call of the listener leaves a continuation,
      which resumes in a later step, after any number of other events; what
      depends on the order in which continuations resume is stated there.
    - [checkRateLimit] reads the clock once in [Sdk], where only the order of
      the calls matters; [Admission.checkRateLimit_reads] has the two
      readings the code makes. *)

From Stdlib Require Import ZArith QArith Qabs List Lia Sorted.
From stdpp Require Import gmap strings list sorting.
Import ListNotations.

Open Scope Z_scope.

(** ** JavaScript helpers *)

Module Js.

(** [a || b] on an optional number: [undefined], and [0], are falsy. *)
Definition num_or (a : option Z) (b : Z) : Z :=
  match a with
  | Some x => if x =? 0 then b else x
  | None => b
  end.

(** [a || b] on an optional string: [undefined], and the empty string, are
    falsy. *)
Definition str_or (a : option string) (b : string) : string :=
  match a with
  | Some x => if decide (x = EmptyString) then b else x
  | None => b
  end.

(** [Array.prototype.shift]: drops the first element. *)
Definition shift {A} (l : list A) : list A := tail l.

(** [arr.reduce((a, b) => a + b, 0)]. *)
Definition reduce_add (l : list Z) : Z := fold_left Z.add l 0.

End Js.

(** ** MetricsCollector (sandboxSdk.ts, lines 208-275) *)

Module MetricsCollector.

Record MetricsData := mkMetricsData {
  totalRequests : Z;
  successfulRequests : Z;
  failedRequests : Z;
  averageResponseTime : Q;
  totalExecutionTime : Z;
  activeSandboxes : Z
}.

Record t := mk {
  metrics : MetricsData;
  responseTimes : list Z
}.

Definition zero : MetricsData :=
  {| totalRequests := 0; successfulRequests := 0; failedRequests := 0;
     averageResponseTime := 0%Q; totalExecutionTime := 0;
     activeSandboxes := 0 |}.

Definition new : t := {| metrics := zero; responseTimes := [] |}.

Definition set_average (a : Q) (m : MetricsData) : MetricsData :=
  {| totalRequests := totalRequests m;
     successfulRequests := successfulRequests m;
     failedRequests := failedRequests m;
     averageResponseTime := a;
     totalExecutionTime := totalExecutionTime m;
     activeSandboxes := activeSandboxes m |}.

(** [sum / this.responseTimes.length]: the quotient; the code stores the
    double nearest to it. *)
Definition mean (l : list Z) : Q :=
  (inject_Z (Js.reduce_add l) / inject_Z (Z.of_nat (length l)))%Q.

Definition updateAverageResponseTime (c : t) : t :=
  match responseTimes c with
  | [] => c
  | _ :: _ =>
      {| metrics := set_average (mean (responseTimes c)) (metrics c);
         responseTimes := responseTimes c |}
  end.

Definition count_request (success : bool) (m : MetricsData) : MetricsData :=
  {| totalRequests := totalRequests m + 1;
     successfulRequests :=
       if success then successfulRequests m + 1 else successfulRequests m;
     failedRequests :=
       if success then failedRequests m else failedRequests m + 1;
     averageResponseTime := averageResponseTime m;
     totalExecutionTime := totalExecutionTime m;
     activeSandboxes := activeSandboxes m |}.

Definition recordRequest (success : bool) (responseTime : Z) (c : t) : t :=
  let pushed := responseTimes c ++ [responseTime] in
  let ring :=
    if (1000 <? Z.of_nat (length pushed)) then Js.shift pushed else pushed in
  updateAverageResponseTime
    {| metrics := count_request success (metrics c); responseTimes := ring |}.

Definition recordExecution (duration : Z) (c : t) : t :=
  {| metrics :=
       {| totalRequests := totalRequests (metrics c);
          successfulRequests := successfulRequests (metrics c);
          failedRequests := failedRequests (metrics c);
          averageResponseTime := averageResponseTime (metrics c);
          totalExecutionTime := totalExecutionTime (metrics c) + duration;
          activeSandboxes := activeSandboxes (metrics c) |};
     responseTimes := responseTimes c |}.

Definition reset (c : t) : t := new.

(** A history of [recordRequest] calls, oldest first. *)
Definition feed (samples : list (bool * Z)) (c : t) : t :=
  fold_left (fun acc s => recordRequest (fst s) (snd s) acc) samples c.

End MetricsCollector.

(** ** RateLimiter (sandboxSdk.ts, lines 279-323) *)

Module RateLimiter.

Record t := mk {
  requestTimestamps : list Z;
  concurrentJobs : Z;
  maxRequestsPerMinute : Z
}.

(** [constructor(private maxRequestsPerMinute: number = 60)] *)
Definition new (maxRequestsPerMinute : option Z) : t :=
  {| requestTimestamps := [];
     concurrentJobs := 0;
     maxRequestsPerMinute := default 60 maxRequestsPerMinute |}.

Definition canMakeRequest (now : Z) (r : t) : bool * t :=
  let oneMinuteAgo := now - 60000 in
  let kept := filter (fun ts => oneMinuteAgo < ts) (requestTimestamps r) in
  let r' := {| requestTimestamps := kept;
               concurrentJobs := concurrentJobs r;
               maxRequestsPerMinute := maxRequestsPerMinute r |} in
  if (maxRequestsPerMinute r <=? Z.of_nat (length kept)) then (false, r')
  else (true, r').

Definition recordRequest (now : Z) (r : t) : t :=
  {| requestTimestamps := requestTimestamps r ++ [now];
     concurrentJobs := concurrentJobs r;
     maxRequestsPerMinute := maxRequestsPerMinute r |}.

Definition getRetryAfter (now : Z) (r : t) : Z :=
  match requestTimestamps r with
  | [] => 0
  | oldestTimestamp :: _ =>
      let retryAfter := 60000 - (now - oldestTimestamp) in
      Z.max retryAfter 0
  end.

(** [return ++this.concurrentJobs] *)
Definition incrementConcurrentJobs (r : t) : Z * t :=
  let c := concurrentJobs r + 1 in
  (c, {| requestTimestamps := requestTimestamps r;
         concurrentJobs := c;
         maxRequestsPerMinute := maxRequestsPerMinute r |}).

(** [return Math.max(--this.concurrentJobs, 0)]: the field is decremented,
    the maximum is taken on the returned value only. *)
Definition decrementConcurrentJobs (r : t) : Z * t :=
  let c := concurrentJobs r - 1 in
  (Z.max c 0, {| requestTimestamps := requestTimestamps r;
                 concurrentJobs := c;
                 maxRequestsPerMinute := maxRequestsPerMinute r |}).

Definition getConcurrentJobs (r : t) : Z := concurrentJobs r.

(** Histories of calls on one limiter. *)
Inductive Call :=
| CanMakeRequest (now : Z)
| RecordRequest (now : Z)
| IncrementConcurrentJobs
| DecrementConcurrentJobs.

#[global] Instance Call_eq_dec : EqDecision Call.
Proof. solve_decision. Defined.

Definition exec (c : Call) (r : t) : t :=
  match c with
  | CanMakeRequest now => snd (canMakeRequest now r)
  | RecordRequest now => recordRequest now r
  | IncrementConcurrentJobs => snd (incrementConcurrentJobs r)
  | DecrementConcurrentJobs => snd (decrementConcurrentJobs r)
  end.

Definition run (h : list Call) (r : t) : t :=
  fold_left (fun acc c => exec c acc) h r.

(** The clock readings of a history, and the timestamps it recorded. *)
Definition clock (h : list Call) : list Z :=
  omap (fun c => match c with
                 | CanMakeRequest now | RecordRequest now => Some now
                 | _ => None
                 end) h.

Definition recorded (h : list Call) : list Z :=
  omap (fun c => match c with RecordRequest now => Some now | _ => None end) h.

(** Timestamps less than 60 seconds old at [now]: the window the code keeps. *)
Definition in_window (now : Z) (l : list Z) : list Z :=
  filter (fun ts => now - ts < 60000) l.

(** The rule in the words of the specification: prune the timestamps older
    than 60 seconds, let the call through when fewer than the ceiling
    remain. *)
Definition prune_older_than_60s (now : Z) (l : list Z) : list Z :=
  filter (fun ts => ¬ (60000 < now - ts)) l.

Definition allowed_as_specified (now : Z) (l : list Z) (ceiling : Z) : bool :=
  bool_decide (Z.of_nat (length (prune_older_than_60s now l)) < ceiling).

End RateLimiter.


(** ** The protocol layer (sandboxSdk.ts, lines 327-1050) *)

Module Sdk.

(** *** Values, errors, promises *)

(** JavaScript values, as far as the wire messages carry them. *)
#[warnings="-register-all"]
Inductive Value :=
| VUndefined
| VNull
| VBool (b : bool)
| VNum (n : Z)
| VStr (s : string)
| VArr (items : list Value)
| VObj (fields : list (string * Value)).

(** [obj[key]] on the own properties of a decoded object. *)
Fixpoint field (key : string) (fields : list (string * Value)) : Value :=
  match fields with
  | [] => VUndefined
  | (k, v) :: rest => if decide (k = key) then v else field key rest
  end.

(** [v.key]: a [TypeError] ([None]) on [null] and [undefined]; primitives and
    arrays have none of the keys the SDK reads. *)
Definition get (v : Value) (key : string) : option Value :=
  match v with
  | VUndefined | VNull => None
  | VObj fields => Some (field key fields)
  | _ => Some VUndefined
  end.

Definition own_fields (v : Value) : list (string * Value) :=
  match v with VObj fields => fields | _ => [] end.

(** [a ?? b] *)
Definition nullish (a b : Value) : Value :=
  match a with VUndefined | VNull => b | _ => a end.

(** What a rejected promise carries.  [TimeoutError what ms] is the error
    whose message is [`${what} timeout after ${ms}ms`]; [Thrown v] is any
    other value thrown by user code. *)
Inductive SdkError :=
| ConnectionError (message : string)
| TimeoutError (what : string) (ms : Z)
| SandboxError (message : string)
| RateLimitError (retryAfter : Z)
| SyntaxError
| TypeError
| Thrown (v : Value).

(** A promise: [resolve] and [reject] act on a pending promise only. *)
Inductive Promise (T : Type) :=
| Pending
| Fulfilled (v : T)
| Rejected (e : SdkError).
Arguments Pending {T}.
Arguments Fulfilled {T} v.
Arguments Rejected {T} e.

Definition resolve {T} (v : T) (p : Promise T) : Promise T :=
  match p with Pending => Fulfilled v | _ => p end.

Definition reject {T} (e : SdkError) (p : Promise T) : Promise T :=
  match p with Pending => Rejected e | _ => p end.

(** *** Execution, Result (lines 79-204) *)

Record ExecutionError := mkExecutionError {
  name : Value;
  value : Value;
  traceback : Value
}.

Record Result := mkResult {
  isMainResult : Value;
  raw : list (string * Value);
  text : Value;
  html : Value;
  markdown : Value;
  svg : Value;
  png : Value;
  jpeg : Value;
  pdf : Value;
  latex : Value;
  json : Value;
  javascript : Value;
  data : Value;
  chart : Value;
  extra : list (string * Value)
}.

Definition reservedKeys : list string :=
  ["text"; "html"; "markdown"; "svg"; "png"; "jpeg"; "pdf"; "latex"; "json";
   "javascript"; "data"; "chart"; "type"; "is_main_result"]%string.

(** [new Result(rawData, isMainResult)].  The loop over [Object.keys(rawData)]
    assigns [this.extra[key] = rawData[key]]; on the plain object [extra] this
    adds the own key [key], except for the key "__proto__", where the
    assignment goes to the setter of [Object.prototype] and adds no key. *)
Definition new_Result (rawData : Value) (isMainResult : Value) : Result :=
  let fs := own_fields rawData in
  {| isMainResult := isMainResult;
     raw := fs;
     text := field "text" fs;
     html := field "html" fs;
     markdown := field "markdown" fs;
     svg := field "svg" fs;
     png := field "png" fs;
     jpeg := field "jpeg" fs;
     pdf := field "pdf" fs;
     latex := field "latex" fs;
     json := field "json" fs;
     javascript := field "javascript" fs;
     data := field "data" fs;
     chart := field "chart" fs;
     extra := filter (fun kv => (fst kv ∉ reservedKeys)
                                ∧ fst kv ≠ "__proto__"%string) fs |}.

Record Logs := mkLogs {
  stdout : list Value;
  stderr : list Value
}.

Record Execution := mkExecution {
  results : list Result;
  logs : Logs;
  error : option ExecutionError;
  executionCount : Value
}.

(** [new Execution()] *)
Definition new_Execution : Execution :=
  {| results := []; logs := {| stdout := []; stderr := [] |};
     error := None; executionCount := VUndefined |}.

Record ExecutionMetadata := mkExecutionMetadata {
  executionId : string;
  sandboxId : string;
  startTime : option Z;
  endTime : option Z;
  duration : option Z
}.

(** *** Caller options (RunCodeOptions) *)

Record OutputMessage := mkOutputMessage {
  om_line : Value;
  om_timestamp : Z;
  om_error : bool
}.

(** What a user callback does when called: return (or resolve), throw, or
    return a promise that rejects. *)
Inductive Outcome :=
| Returns
| Throws (e : SdkError)
| Rejects (e : SdkError).

(** The fields of [RunCodeOptions] the protocol layer reads. *)
Record RunCodeOptions := mkRunCodeOptions {
  onStdout : option (OutputMessage -> Outcome);
  onStderr : option (OutputMessage -> Outcome);
  onResult : option (Result -> Outcome);
  onError : option (ExecutionError -> Outcome);
  timeoutMs : option Z
}.

(** The record of a callback invocation. *)
Inductive CallbackCall :=
| CalledOnStdout (m : OutputMessage)
| CalledOnStderr (m : OutputMessage)
| CalledOnResult (r : Result)
| CalledOnError (e : ExecutionError).

(** [await cb(arg)]: a throw and a rejection both surface as an exception,
    the second when the promise the callback returned rejects. *)
Definition awaited (o : Outcome) : option SdkError :=
  match o with
  | Returns => None
  | Throws e | Rejects e => Some e
  end.

(** [if (opts?.cb) await opts.cb(arg)] *)
Definition await_callback {A} (cb : option (A -> Outcome)) (arg : A)
    (tag : A -> CallbackCall) : list CallbackCall * option SdkError :=
  match cb with
  | Some f => ([tag arg], awaited (f arg))
  | None => ([], None)
  end.

(** *** parseOutput (lines 961-1015)

    The [line] of a chunk is kept in decoded form: [Some msg] when
    [JSON.parse(line)] yields [msg], [None] when it throws.  The result is
    the execution after the mutation, the callbacks invoked, and the
    exception parseOutput ends with, if any. *)
Definition parseOutput (execution : Execution) (line : option Value)
    (opts : option RunCodeOptions) (now : Z)
    : Execution * list CallbackCall * option SdkError :=
  match line with
  | None => (execution, [], Some SyntaxError)
  | Some msg =>
      let timestamp := now * 1000 in
      match get msg "type" with
      | None => (execution, [], Some TypeError)
      | Some (VStr ty) =>
          let fs := own_fields msg in
          if decide (ty = "result"%string) then
            let result :=
              new_Result msg (nullish (field "is_main_result" fs) (VBool false)) in
            let execution' :=
              {| results := results execution ++ [result];
                 logs := logs execution;
                 error := error execution;
                 executionCount := executionCount execution |} in
            let '(calls, exn) :=
              await_callback (opts ≫= onResult) result CalledOnResult in
            (execution', calls, exn)
          else if decide (ty = "stdout"%string) then
            let execution' :=
              {| results := results execution;
                 logs := {| stdout := stdout (logs execution) ++ [field "text" fs];
                            stderr := stderr (logs execution) |};
                 error := error execution;
                 executionCount := executionCount execution |} in
            let '(calls, exn) :=
              await_callback (opts ≫= onStdout)
                {| om_line := field "text" fs; om_timestamp := timestamp;
                   om_error := false |} CalledOnStdout in
            (execution', calls, exn)
          else if decide (ty = "stderr"%string) then
            let execution' :=
              {| results := results execution;
                 logs := {| stdout := stdout (logs execution);
                            stderr := stderr (logs execution) ++ [field "text" fs] |};
                 error := error execution;
                 executionCount := executionCount execution |} in
            let '(calls, exn) :=
              await_callback (opts ≫= onStderr)
                {| om_line := field "text" fs; om_timestamp := timestamp;
                   om_error := true |} CalledOnStderr in
            (execution', calls, exn)
          else if decide (ty = "error"%string) then
            let err :=
              {| name := field "name" fs; value := field "value" fs;
                 traceback := field "traceback" fs |} in
            let execution' :=
              {| results := results execution;
                 logs := logs execution;
                 error := Some err;
                 executionCount := executionCount execution |} in
            let '(calls, exn) :=
              await_callback (opts ≫= onError) err CalledOnError in
            (execution', calls, exn)
          else if decide (ty = "execution_count"%string) then
            ({| results := results execution;
                logs := logs execution;
                error := error execution;
                executionCount := field "execution_count" fs |}, [], None)
          else (execution, [], None)
      | Some _ => (execution, [], None)
      end
  end.

(** *** Listener identities, registry, socket

    A listener is a closure; its identity is the role it plays and the index
    of the call that created it. *)
Inductive Role :=
| ResultListener
| OutputListener
| StreamListener
| EndListener.

#[global] Instance Role_eq_dec : EqDecision Role.
Proof. solve_decision. Defined.

#[global] Instance Role_countable : Countable Role.
Proof.
  refine (inj_countable'
    (fun r => match r with
              | ResultListener => 0 | OutputListener => 1
              | StreamListener => 2 | EndListener => 3
              end%nat)
    (fun n => match n with
              | 0 => ResultListener | 1 => OutputListener
              | 2 => StreamListener | _ => EndListener
              end%nat) _).
  by intros [].
Defined.

Definition Listener : Type := Role * nat.

(** [SocketEvent] (types.ts) and the literal event name of the structured
    stream. *)
Definition RESULT : string := "job:result".
Definition STREAM : string := "job:stream".
Definition STREAM_END : string := "job:stream:end".
Definition EXECUTE : string := "job:execute".
Definition TERMINAL : string := "job:terminal".
Definition JOB_OUTPUT : string := "job:output".

(** The part of the socket.io client the SDK uses: the table of handlers
    ([on] appends, [off] removes one registration) and the messages emitted. *)
Record Socket := mkSocket {
  handlers : gmap string (list Listener);
  emitted : list (string * string * Value)
}.

Fixpoint remove_first (l : Listener) (ls : list Listener) : list Listener :=
  match ls with
  | [] => []
  | x :: rest => if decide (x = l) then rest else x :: remove_first l rest
  end.

Definition on (event : string) (l : Listener) (sock : Socket) : Socket :=
  {| handlers := <[event := default [] (handlers sock !! event) ++ [l]]> (handlers sock);
     emitted := emitted sock |}.

Definition off (event : string) (l : Listener) (sock : Socket) : Socket :=
  {| handlers :=
       match handlers sock !! event with
       | Some ls =>
           match remove_first l ls with
           | [] => delete event (handlers sock)
           | ls' => <[event := ls']> (handlers sock)
           end
       | None => handlers sock
       end;
     emitted := emitted sock |}.

Definition emit (event : string) (jobId : string) (payload : Value)
    (sock : Socket) : Socket :=
  {| handlers := handlers sock;
     emitted := emitted sock ++ [(event, jobId, payload)] |}.

(** *** Closures

    The variables captured by the callbacks of one call.  The promise of a
    streaming job is fulfilled with [{execution, metadata, timestamp}] where
    [execution] and [metadata] are the very objects the closure keeps
    mutating: the promise stores the timestamp, and the two objects are read
    from the closure. *)
Record SendJobEnv := mkSendJobEnv {
  sj_jobId : string;
  sj_timeout : Z;
  sj_timeoutHandle : option nat;
  sj_promise : Promise Value
}.

Record StreamingEnv := mkStreamingEnv {
  so_jobId : string;
  so_timeout : Z;
  so_timeoutHandle : option nat;
  so_execution : Execution;
  so_metadata : ExecutionMetadata;
  so_opts : option RunCodeOptions;
  so_calls : list CallbackCall;
  so_promise : Promise Z
}.

Record TerminalEnv := mkTerminalEnv {
  tm_jobId : string;
  tm_timeout : Z;
  tm_timeoutHandle : option nat;
  tm_output : string;
  tm_opts : option RunCodeOptions;
  tm_startTime : Z;
  tm_calls : list CallbackCall;
  tm_promise : Promise string
}.

(** [Failed e]: the promise of a call that was rejected before any closure
    variable existed. *)
Inductive Closure :=
| SendJob (env : SendJobEnv)
| Streaming (env : StreamingEnv)
| Terminal (env : TerminalEnv)
| Failed (e : SdkError).

(** *** The SDK instance and the runtime around it

    [timers] are the runtime's armed timeouts, by handle, with the earliest
    instant at which each may fire; [closures] the closures created so far,
    by index; [nextId] the next index.  A timeout handle is the index of the
    call that armed it. *)
Record Sdk := mkSdk {
  socket : option Socket;
  isConnected : bool;
  config_timeout : Z;
  listeners : gmap string (gset Listener);
  activeSandboxes : gset string;
  metricsCollector : MetricsCollector.t;
  rateLimiter : RateLimiter.t;
  timers : gmap nat Z;
  closures : gmap nat Closure;
  nextId : nat
}.

Definition upd_socket (f : Socket -> Socket) (s : Sdk) : Sdk :=
  mkSdk (f <$> socket s) (isConnected s) (config_timeout s) (listeners s)
    (activeSandboxes s) (metricsCollector s) (rateLimiter s) (timers s)
    (closures s) (nextId s).

Definition set_isConnected (b : bool) (s : Sdk) : Sdk :=
  mkSdk (socket s) b (config_timeout s) (listeners s)
    (activeSandboxes s) (metricsCollector s) (rateLimiter s) (timers s)
    (closures s) (nextId s).

Definition upd_listeners
    (f : gmap string (gset Listener) -> gmap string (gset Listener)) (s : Sdk) : Sdk :=
  mkSdk (socket s) (isConnected s) (config_timeout s) (f (listeners s))
    (activeSandboxes s) (metricsCollector s) (rateLimiter s) (timers s)
    (closures s) (nextId s).

Definition upd_metricsCollector
    (f : MetricsCollector.t -> MetricsCollector.t) (s : Sdk) : Sdk :=
  mkSdk (socket s) (isConnected s) (config_timeout s) (listeners s)
    (activeSandboxes s) (f (metricsCollector s)) (rateLimiter s) (timers s)
    (closures s) (nextId s).

Definition set_rateLimiter (r : RateLimiter.t) (s : Sdk) : Sdk :=
  mkSdk (socket s) (isConnected s) (config_timeout s) (listeners s)
    (activeSandboxes s) (metricsCollector s) r (timers s)
    (closures s) (nextId s).

Definition upd_timers (f : gmap nat Z -> gmap nat Z) (s : Sdk) : Sdk :=
  mkSdk (socket s) (isConnected s) (config_timeout s) (listeners s)
    (activeSandboxes s) (metricsCollector s) (rateLimiter s) (f (timers s))
    (closures s) (nextId s).

Definition set_closure (j : nat) (c : Closure) (s : Sdk) : Sdk :=
  mkSdk (socket s) (isConnected s) (config_timeout s) (listeners s)
    (activeSandboxes s) (metricsCollector s) (rateLimiter s) (timers s)
    (<[j := c]> (closures s)) (nextId s).

(** A call creates the closure of index [nextId]. *)
Definition alloc (c : Closure) (s : Sdk) : Sdk :=
  mkSdk (socket s) (isConnected s) (config_timeout s) (listeners s)
    (activeSandboxes s) (metricsCollector s) (rateLimiter s) (timers s)
    (<[nextId s := c]> (closures s)) (S (nextId s)).

(** [new SandboxSDK(config)]: the constructor creates the socket and a
    limiter of 60 requests per minute; [timeout: config.timeout || 60000]. *)
Definition new (timeout : option Z) : Sdk :=
  {| socket := Some {| handlers := ∅; emitted := [] |};
     isConnected := false;
     config_timeout := Js.num_or timeout 60000;
     listeners := ∅;
     activeSandboxes := ∅;
     metricsCollector := MetricsCollector.new;
     rateLimiter := RateLimiter.new (Some 60);
     timers := ∅;
     closures := ∅;
     nextId := 0 |}.

Definition isReady (s : Sdk) : bool :=
  isConnected s && bool_decide (is_Some (socket s)).

(** *** trackListener, removeListener, cleanupAllListeners (lines 1017-1038) *)

Definition trackListener (event : string) (l : Listener) (s : Sdk) : Sdk :=
  upd_listeners
    (fun reg => <[event := default ∅ (reg !! event) ∪ {[l]}]> reg) s.

Definition removeListener (event : string) (l : Listener) (s : Sdk) : Sdk :=
  upd_listeners
    (fun reg =>
       match reg !! event with
       | Some ls =>
           let ls' := ls ∖ {[l]} in
           if decide (size ls' = 0%nat) then delete event reg
           else <[event := ls']> reg
       | None => reg
       end) s.

Definition cleanupAllListeners (s : Sdk) : Sdk :=
  let detach (sock : Socket) : Socket :=
    foldr (fun '(event, ls) sk => foldr (off event) sk (elements ls))
      sock (map_to_list (listeners s)) in
  upd_listeners (fun _ => ∅) (upd_socket detach s).

(** [setTimeout(f, ms)] at [now]: the runtime fires no earlier than [ms]
    milliseconds later; a delay below 1 or above 2^31-1 is taken as 1. *)
Definition timer_delay (ms : Z) : Z :=
  if decide (1 <= ms <= 2147483647) then ms else 1.

Definition setTimeout (handle : nat) (ms now : Z) (s : Sdk) : Sdk :=
  upd_timers (fun ts => <[handle := now + timer_delay ms]> ts) s.

(** [if (timeoutHandle) clearTimeout(timeoutHandle)] *)
Definition clearTimeout (handle : option nat) (s : Sdk) : Sdk :=
  match handle with
  | Some h => upd_timers (delete h) s
  | None => s
  end.

(** *** Wire messages (types.ts), in the fields the listeners read *)

Record JobResultResponse := mkJobResultResponse {
  jr_jobId : string;
  success : bool;
  output : Value;
  jr_error : option string
}.

Record JobOutputLine := mkJobOutputLine {
  jo_jobId : string;
  jo_line : option Value
}.

Record StreamChunkResponse := mkStreamChunkResponse {
  sc_jobId : string;
  chunk : string;
  sc_timestamp : option Z
}.

Record StreamEndResponse := mkStreamEndResponse {
  se_jobId : string;
  exitCode : option Z
}.

(** An incoming socket event, with the event name it arrives on. *)
Inductive Message :=
| JobResult (res : JobResultResponse)
| JobOutput (res : JobOutputLine)
| StreamChunk (res : StreamChunkResponse)
| StreamEnd (res : StreamEndResponse).

Definition event_of (msg : Message) : string :=
  match msg with
  | JobResult _ => RESULT
  | JobOutput _ => JOB_OUTPUT
  | StreamChunk _ => STREAM
  | StreamEnd _ => STREAM_END
  end.

Definition jobId_of (msg : Message) : string :=
  match msg with
  | JobResult res => jr_jobId res
  | JobOutput res => jo_jobId res
  | StreamChunk res => sc_jobId res
  | StreamEnd res => se_jobId res
  end.

(** *** sendJob (lines 859-899) *)

Definition sendJob (event : string) (payload : Value) (timeoutMs : option Z)
    (uuid : string) (now : Z) (s : Sdk) : Sdk :=
  match socket s with
  | None => alloc (Failed (ConnectionError "Socket not connected")) s
  | Some _ =>
      let j := nextId s in
      let jobId := uuid in
      let timeout := Js.num_or timeoutMs (config_timeout s) in
      let listener := (ResultListener, j) in
      alloc
        (SendJob {| sj_jobId := jobId; sj_timeout := timeout;
                    sj_timeoutHandle := Some j; sj_promise := Pending |})
        (upd_socket (emit event jobId payload)
           (upd_socket (on RESULT listener)
              (trackListener RESULT listener
                 (setTimeout j timeout now s))))
  end.

(** The callback of [setTimeout] in sendJob. *)
Definition sendJob_onTimeout (j : nat) (env : SendJobEnv) (s : Sdk) : Sdk :=
  set_closure j
    (SendJob {| sj_jobId := sj_jobId env; sj_timeout := sj_timeout env;
                sj_timeoutHandle := sj_timeoutHandle env;
                sj_promise :=
                  reject (TimeoutError "Job" (sj_timeout env)) (sj_promise env) |})
    (removeListener RESULT (ResultListener, j) s).

(** How a matching result message settles the promise. *)
Definition settle_result (res : JobResultResponse) (p : Promise Value) : Promise Value :=
  match success res, output res with
  | true, VUndefined | false, _ =>
      reject (SandboxError (Js.str_or (jr_error res) "Job failed")) p
  | true, out => resolve out p
  end.

(** [listener] in sendJob. *)
Definition sendJob_listener (j : nat) (env : SendJobEnv)
    (res : JobResultResponse) (s : Sdk) : Sdk :=
  if decide (jr_jobId res = sj_jobId env) then
    set_closure j
      (SendJob {| sj_jobId := sj_jobId env; sj_timeout := sj_timeout env;
                  sj_timeoutHandle := None;
                  sj_promise := settle_result res (sj_promise env) |})
      (upd_socket (off RESULT (ResultListener, j))
         (removeListener RESULT (ResultListener, j)
            (clearTimeout (sj_timeoutHandle env) s)))
  else s.

(** *** sendStreamingJob (lines 901-959) *)

Definition sendStreamingJob (event : string) (payload : Value)
    (execution : Execution) (metadata : ExecutionMetadata)
    (opts : option RunCodeOptions) (uuid : string) (now : Z) (s : Sdk) : Sdk :=
  match socket s with
  | None => alloc (Failed (ConnectionError "Socket not connected")) s
  | Some _ =>
      let j := nextId s in
      let jobId := uuid in
      let timeout := Js.num_or (opts ≫= timeoutMs) (config_timeout s) in
      let outputListener := (OutputListener, j) in
      alloc
        (Streaming {| so_jobId := jobId; so_timeout := timeout;
                      so_timeoutHandle := Some j; so_execution := execution;
                      so_metadata := metadata; so_opts := opts;
                      so_calls := []; so_promise := Pending |})
        (upd_socket (emit event jobId payload)
           (upd_socket (on JOB_OUTPUT outputListener)
              (trackListener JOB_OUTPUT outputListener
                 (setTimeout j timeout now s))))
  end.

(** [cleanup] in sendStreamingJob: the effect on the SDK; the closure's
    [timeoutHandle] becomes [null]. *)
Definition streaming_cleanup (j : nat) (env : StreamingEnv) (s : Sdk) : Sdk :=
  upd_socket (off JOB_OUTPUT (OutputListener, j))
    (clearTimeout (so_timeoutHandle env) s).

Definition streaming_onTimeout (j : nat) (env : StreamingEnv) (s : Sdk) : Sdk :=
  set_closure j
    (Streaming {| so_jobId := so_jobId env; so_timeout := so_timeout env;
                  so_timeoutHandle := None; so_execution := so_execution env;
                  so_metadata := so_metadata env; so_opts := so_opts env;
                  so_calls := so_calls env;
                  so_promise :=
                    reject (TimeoutError "Code execution" (so_timeout env))
                      (so_promise env) |})
    (streaming_cleanup j env s).

(** [outputListener] in sendStreamingJob, run to completion: the call and
    what follows its await as one step, with one reading of the clock (see
    [Async.outputListener_call] and [Async.outputListener_resume] for the two
    halves). *)
Definition outputListener (j : nat) (env : StreamingEnv) (res : JobOutputLine)
    (now : Z) (s : Sdk) : Sdk :=
  if decide (jo_jobId res = so_jobId env) then
    let '(execution, calls, exn) :=
      parseOutput (so_execution env) (jo_line res) (so_opts env) now in
    match exn with
    | None =>
        match error execution with
        | Some _ =>
            let duration := now - Js.num_or (startTime (so_metadata env)) 0 in
            let metadata :=
              {| executionId := executionId (so_metadata env);
                 sandboxId := sandboxId (so_metadata env);
                 startTime := startTime (so_metadata env);
                 endTime := Some now;
                 duration := Some duration |} in
            set_closure j
              (Streaming {| so_jobId := so_jobId env; so_timeout := so_timeout env;
                            so_timeoutHandle := None; so_execution := execution;
                            so_metadata := metadata; so_opts := so_opts env;
                            so_calls := so_calls env ++ calls;
                            so_promise := resolve now (so_promise env) |})
              (upd_metricsCollector (MetricsCollector.recordExecution duration)
                 (streaming_cleanup j env s))
        | None =>
            set_closure j
              (Streaming {| so_jobId := so_jobId env; so_timeout := so_timeout env;
                            so_timeoutHandle := so_timeoutHandle env;
                            so_execution := execution;
                            so_metadata := so_metadata env; so_opts := so_opts env;
                            so_calls := so_calls env ++ calls;
                            so_promise := so_promise env |}) s
        end
    | Some e =>
        set_closure j
          (Streaming {| so_jobId := so_jobId env; so_timeout := so_timeout env;
                        so_timeoutHandle := None; so_execution := execution;
                        so_metadata := so_metadata env; so_opts := so_opts env;
                        so_calls := so_calls env ++ calls;
                        so_promise := reject e (so_promise env) |})
          (streaming_cleanup j env s)
    end
  else s.

(** The value a fulfilled streaming promise holds:
    [{execution, metadata, timestamp}]. *)
Definition executionResult (env : StreamingEnv)
    : option (Execution * ExecutionMetadata * Z) :=
  match so_promise env with
  | Fulfilled timestamp => Some (so_execution env, so_metadata env, timestamp)
  | _ => None
  end.

(** *** runTerminal (lines 599-671) *)

(** [checkRateLimit] (lines 851-857), with one reading of the clock for the
    call (see [Admission.checkRateLimit_reads] for the readings apart). *)
Definition checkRateLimit (now : Z) (s : Sdk) : Sdk * option SdkError :=
  let '(ok, limiter) := RateLimiter.canMakeRequest now (rateLimiter s) in
  if ok then (set_rateLimiter (RateLimiter.recordRequest now limiter) s, None)
  else (set_rateLimiter limiter s,
        Some (RateLimitError (RateLimiter.getRetryAfter now limiter))).

(** A call made while the SDK is not ready first awaits [waitForConnection];
    that wait is outside this embedding and such a call is left suspended. *)
Definition runTerminal (sandbox : string) (command : string)
    (opts : option RunCodeOptions) (uuid : string) (now : Z) (s : Sdk) : Sdk :=
  if isReady s then
    let '(s1, limited) := checkRateLimit now s in
    match limited with
    | Some e => alloc (Failed e) s1
    | None =>
        if decide (sandbox ∈ activeSandboxes s1) then
          match socket s1 with
          | None => alloc (Failed (ConnectionError "Socket not connected")) s1
          | Some _ =>
              let j := nextId s1 in
              let jobId := uuid in
              let payload :=
                VObj [("command", VStr command); ("sandboxId", VStr sandbox)]%string in
              let timeout := Js.num_or (opts ≫= timeoutMs) (config_timeout s1) in
              alloc
                (Terminal {| tm_jobId := jobId; tm_timeout := timeout;
                             tm_timeoutHandle := Some j; tm_output := "";
                             tm_opts := opts; tm_startTime := now;
                             tm_calls := []; tm_promise := Pending |})
                (upd_socket (emit TERMINAL jobId payload)
                   (upd_socket (on STREAM_END (EndListener, j))
                      (upd_socket (on STREAM (StreamListener, j))
                         (trackListener STREAM_END (EndListener, j)
                            (trackListener STREAM (StreamListener, j)
                               (setTimeout j timeout now s1))))))
          end
        else
          alloc (Failed (SandboxError ("Sandbox " ++ sandbox ++ " not found"))) s1
    end
  else s.

(** [cleanup] in runTerminal. *)
Definition terminal_cleanup (j : nat) (env : TerminalEnv) (s : Sdk) : Sdk :=
  upd_socket (off STREAM_END (EndListener, j))
    (upd_socket (off STREAM (StreamListener, j))
       (removeListener STREAM_END (EndListener, j)
          (removeListener STREAM (StreamListener, j)
             (clearTimeout (tm_timeoutHandle env) s)))).

Definition terminal_onTimeout (j : nat) (env : TerminalEnv) (s : Sdk) : Sdk :=
  set_closure j
    (Terminal {| tm_jobId := tm_jobId env; tm_timeout := tm_timeout env;
                 tm_timeoutHandle := None; tm_output := tm_output env;
                 tm_opts := tm_opts env; tm_startTime := tm_startTime env;
                 tm_calls := tm_calls env;
                 tm_promise :=
                   reject (TimeoutError "Terminal command" (tm_timeout env))
                     (tm_promise env) |})
    (terminal_cleanup j env s).

(** [streamListener] in runTerminal.  The callback is not awaited: only a
    synchronous throw leaves the listener, as the second component. *)
Definition streamListener (j : nat) (env : TerminalEnv)
    (res : StreamChunkResponse) (now : Z) (s : Sdk) : Sdk * option SdkError :=
  if decide (sc_jobId res = tm_jobId env ∧ chunk res ≠ EmptyString) then
    let output := (tm_output env ++ chunk res)%string in
    let message :=
      {| om_line := VStr (chunk res);
         om_timestamp := Js.num_or (sc_timestamp res) (now * 1000);
         om_error := false |} in
    let called :=
      match tm_opts env ≫= onStdout with
      | Some f => Some (f message)
      | None => None
      end in
    (set_closure j
       (Terminal {| tm_jobId := tm_jobId env; tm_timeout := tm_timeout env;
                    tm_timeoutHandle := tm_timeoutHandle env; tm_output := output;
                    tm_opts := tm_opts env; tm_startTime := tm_startTime env;
                    tm_calls :=
                      tm_calls env ++
                      match called with Some _ => [CalledOnStdout message] | None => [] end;
                    tm_promise := tm_promise env |}) s,
     match called with Some (Throws e) => Some e | _ => None end)
  else (s, None).

(** [endListener] in runTerminal. *)
Definition endListener (j : nat) (env : TerminalEnv)
    (res : StreamEndResponse) (now : Z) (s : Sdk) : Sdk :=
  if decide (se_jobId res = tm_jobId env) then
    set_closure j
      (Terminal {| tm_jobId := tm_jobId env; tm_timeout := tm_timeout env;
                   tm_timeoutHandle := None; tm_output := tm_output env;
                   tm_opts := tm_opts env; tm_startTime := tm_startTime env;
                   tm_calls := tm_calls env;
                   tm_promise := resolve (tm_output env) (tm_promise env) |})
      (upd_metricsCollector
         (MetricsCollector.recordRequest true (now - tm_startTime env))
         (terminal_cleanup j env s))
  else s.

(** *** The transition system *)

(** Calling a listener with a message: the closure of the listener's index
    supplies the captured variables.  The second component is the exception
    that leaves the listener, if any. *)
Definition invoke (l : Listener) (msg : Message) (now : Z) (s : Sdk)
    : Sdk * option SdkError :=
  match closures s !! l.2 with
  | Some (SendJob env) =>
      match l.1, msg with
      | ResultListener, JobResult res => (sendJob_listener l.2 env res s, None)
      | _, _ => (s, None)
      end
  | Some (Streaming env) =>
      match l.1, msg with
      | OutputListener, JobOutput res => (outputListener l.2 env res now s, None)
      | _, _ => (s, None)
      end
  | Some (Terminal env) =>
      match l.1, msg with
      | StreamListener, StreamChunk res => streamListener l.2 env res now s
      | EndListener, StreamEnd res => (endListener l.2 env res now s, None)
      | _, _ => (s, None)
      end
  | _ => (s, None)
  end.

(** The emitter calls the handlers registered when the event arrives, in
    registration order; an exception leaving a handler ends the round. *)
Fixpoint deliver (ls : list Listener) (msg : Message) (now : Z) (s : Sdk) : Sdk :=
  match ls with
  | [] => s
  | l :: rest =>
      match invoke l msg now s with
      | (s', Some _) => s'
      | (s', None) => deliver rest msg now s'
      end
  end.

(** The callback of the timeout armed by call [j]. *)
Definition fire (j : nat) (s : Sdk) : Sdk :=
  match closures s !! j with
  | Some (SendJob env) => sendJob_onTimeout j env s
  | Some (Streaming env) => streaming_onTimeout j env s
  | Some (Terminal env) => terminal_onTimeout j env s
  | _ => s
  end.

Inductive Event :=
| CallSendJob (event : string) (payload : Value) (timeoutMs : option Z)
    (uuid : string) (now : Z)
| CallSendStreamingJob (event : string) (payload : Value)
    (execution : Execution) (metadata : ExecutionMetadata)
    (opts : option RunCodeOptions) (uuid : string) (now : Z)
| CallRunTerminal (sandbox command : string) (opts : option RunCodeOptions)
    (uuid : string) (now : Z)
| TimerFires (handle : nat) (now : Z)
| Incoming (msg : Message) (now : Z)
| SocketConnect
| SocketDisconnect.

(** One step.  A timer fires only while armed and due; an incoming event
    reaches the handlers attached to the socket for its name. *)
Definition step (ev : Event) (s : Sdk) : Sdk :=
  match ev with
  | CallSendJob event payload timeoutMs uuid now =>
      sendJob event payload timeoutMs uuid now s
  | CallSendStreamingJob event payload execution metadata opts uuid now =>
      sendStreamingJob event payload execution metadata opts uuid now s
  | CallRunTerminal sandbox command opts uuid now =>
      runTerminal sandbox command opts uuid now s
  | TimerFires handle now =>
      match timers s !! handle with
      | Some due =>
          if decide (due <= now) then fire handle (upd_timers (delete handle) s)
          else s
      | None => s
      end
  | Incoming msg now =>
      match socket s with
      | Some sock => deliver (default [] (handlers sock !! event_of msg)) msg now s
      | None => s
      end
  | SocketConnect => set_isConnected true s
  | SocketDisconnect => cleanupAllListeners (set_isConnected false s)
  end.

Definition run (tr : list Event) (s : Sdk) : Sdk :=
  fold_left (fun acc ev => step ev acc) tr s.

(** A state in which no call has been made yet. *)
Definition fresh (s : Sdk) : Prop :=
  closures s = ∅ ∧ timers s = ∅ ∧ nextId s = 0%nat ∧
  listeners s = ∅ ∧ default ∅ (handlers <$> socket s) = ∅.

(** The listener role that reacts to a message. *)
Definition role_of (msg : Message) : Role :=
  match msg with
  | JobResult _ => ResultListener
  | JobOutput _ => OutputListener
  | StreamChunk _ => StreamListener
  | StreamEnd _ => EndListener
  end.

(** *** Invariants of the transition system *)

Definition handle_of (c : Closure) : option nat :=
  match c with
  | SendJob env => sj_timeoutHandle env
  | Streaming env => so_timeoutHandle env
  | Terminal env => tm_timeoutHandle env
  | Failed _ => None
  end.

Definition jobId_of_closure (c : Closure) : option string :=
  match c with
  | SendJob env => Some (sj_jobId env)
  | Streaming env => Some (so_jobId env)
  | Terminal env => Some (tm_jobId env)
  | Failed _ => None
  end.

(** The state of the promise a call returned, forgetting the value. *)
Inductive Settlement :=
| StillPending
| Resolved
| RejectedWith (e : SdkError).

Definition settlement_of {T} (p : Promise T) : Settlement :=
  match p with
  | Pending => StillPending
  | Fulfilled _ => Resolved
  | Rejected e => RejectedWith e
  end.

Definition settlement (c : Closure) : Settlement :=
  match c with
  | SendJob env => settlement_of (sj_promise env)
  | Streaming env => settlement_of (so_promise env)
  | Terminal env => settlement_of (tm_promise env)
  | Failed e => RejectedWith e
  end.

(** What relates the timer of call [j] to the promise of a sendJob closure. *)
Definition sendJob_inv (timer : option Z) (env : SendJobEnv) : Prop :=
  match sj_promise env with
  | Pending => is_Some timer
  | Fulfilled _ => timer = None
  | Rejected (SandboxError _) => timer = None
  | Rejected (TimeoutError what ms) =>
      what = "Job"%string ∧ ms = sj_timeout env ∧ timer = None
  | Rejected _ => False
  end.

Definition closure_ok (timer : option Z) (j : nat) (c : Closure) : Prop :=
  (∀ h, handle_of c = Some h → h = j)
  ∧ (handle_of c = None → timer = None)
  ∧ (settlement c = StillPending → handle_of c = Some j)
  ∧ match c with SendJob env => sendJob_inv timer env | _ => True end.

Definition handlers_of (s : Sdk) (event : string) : list Listener :=
  default [] (socket s ≫= fun sock => handlers sock !! event).

Definition tracked (s : Sdk) (event : string) : gset Listener :=
  default ∅ (listeners s !! event).

Record wf (s : Sdk) : Prop := mkWf {
  wf_closures :
    ∀ j c, closures s !! j = Some c →
           (j < nextId s)%nat ∧ closure_ok (timers s !! j) j c;
  wf_timers : ∀ t, is_Some (timers s !! t) → (t < nextId s)%nat;
  wf_handlers :
    ∀ event, NoDup (handlers_of s event)
             ∧ Forall (fun l => (l.2 < nextId s)%nat) (handlers_of s event)
}.

(** [frame j s s']: nothing that belongs to call [j] differs between [s]
    and [s']: its closure, its timer, and where its listeners are attached
    and tracked. *)
Definition frame (j : nat) (s s' : Sdk) : Prop :=
  closures s' !! j = closures s !! j
  ∧ timers s' !! j = timers s !! j
  ∧ (∀ event role,
       (role, j) ∈ handlers_of s' event ↔ (role, j) ∈ handlers_of s event)
  ∧ (∀ event role,
       (role, j) ∈ tracked s' event ↔ (role, j) ∈ tracked s event).

(** [local j s s']: a step of call [j]'s own callbacks: it leaves the other
    calls alone, arms no timer and attaches no handler. *)
Definition local (j : nat) (s s' : Sdk) : Prop :=
  nextId s' = nextId s
  ∧ (∀ k, k ≠ j → frame k s s')
  ∧ (∀ k, is_Some (timers s' !! k) → is_Some (timers s !! k))
  ∧ (∀ event, handlers_of s' event `sublist_of` handlers_of s event).

(** How the closure of one call may change: the job id stays, and a settled
    promise keeps its state. *)
Definition evolves (c c' : Closure) : Prop :=
  jobId_of_closure c' = jobId_of_closure c
  ∧ (settlement c ≠ StillPending → settlement c' = settlement c)
  ∧ match c, c' with
    | SendJob env, SendJob env' =>
        sj_timeout env' = sj_timeout env
        ∧ (sj_promise env ≠ Pending → sj_promise env' = sj_promise env)
    | Streaming env, Streaming env' =>
        so_opts env' = so_opts env
        ∧ (so_promise env ≠ Pending → so_promise env' = so_promise env)
    | Terminal env, Terminal env' =>
        (tm_promise env ≠ Pending → tm_promise env' = tm_promise env)
    | Failed e, Failed e' => e' = e
    | _, _ => False
    end.



(** No call other than [j] bears the job id of the message. *)
Definition sole_bearer (j : nat) (msg : Message) (s : Sdk) : Prop :=
  ∀ k c, k ≠ j → closures s !! k = Some c →
         jobId_of_closure c ≠ Some (jobId_of msg).

End Sdk.

(** ** The rest of MetricsCollector (lines 251-274) *)

Module Metrics.
Import MetricsCollector.

Definition updateActiveSandboxes (count : Z) (c : t) : t :=
  {| metrics :=
       {| totalRequests := totalRequests (metrics c);
          successfulRequests := successfulRequests (metrics c);
          failedRequests := failedRequests (metrics c);
          averageResponseTime := averageResponseTime (metrics c);
          totalExecutionTime := totalExecutionTime (metrics c);
          activeSandboxes := count |};
     responseTimes := responseTimes c |}.

(** The calls that change a collector. *)
Inductive Op :=
| Request (success : bool) (responseTime : Z)
| Executed (duration : Z)
| ActiveSandboxes (count : Z)
| Reset.

Definition apply (op : Op) (c : t) : t :=
  match op with
  | Request success responseTime => recordRequest success responseTime c
  | Executed duration => recordExecution duration c
  | ActiveSandboxes count => updateActiveSandboxes count c
  | Reset => reset c
  end.

Definition run (ops : list Op) (c : t) : t :=
  fold_left (fun acc op => apply op acc) ops c.

(** What a history leaves to look at: the calls after the last reset, the
    requests among them, the durations executed, and the last count of
    sandboxes that was set. *)
Definition since_reset (ops : list Op) : list Op :=
  fold_left (fun acc op => match op with Reset => [] | _ => acc ++ [op] end)
    ops [].

Definition requests (ops : list Op) : list (bool * Z) :=
  omap (fun op => match op with Request b rt => Some (b, rt) | _ => None end) ops.

Definition durations (ops : list Op) : list Z :=
  omap (fun op => match op with Executed d => Some d | _ => None end) ops.

Definition last_count (ops : list Op) : Z :=
  fold_left (fun acc op => match op with ActiveSandboxes n => n | _ => acc end)
    ops 0.

End Metrics.

(** ** checkRateLimit in sequence (lines 851-857) *)

Module Admission.
Import Sdk.

(** One more [checkRateLimit] at [now]: the state after, and the instants
    let through so far. *)
Definition check (acc : Sdk * list Z) (now : Z) : Sdk * list Z :=
  let '(s1, limited) := checkRateLimit now acc.1 in
  (s1, match limited with None => acc.2 ++ [now] | Some _ => acc.2 end).

Definition checks (times : list Z) (s : Sdk) : Sdk * list Z :=
  fold_left check times (s, []).

(** The instants of [l] in the 60 seconds that end at [t]. *)
Definition within_minute (t : Z) (l : list Z) : list Z :=
  filter (fun x => t - 60000 < x <= t) l.

(** [checkRateLimit] with the clock as the code reads it: [Date.now()] is
    read in [canMakeRequest], and once more in [getRetryAfter] when the call
    is refused or in [recordRequest] when it is let through. *)
Definition checkRateLimit_reads (first second : Z) (s : Sdk)
    : Sdk * option SdkError :=
  let '(ok, limiter) := RateLimiter.canMakeRequest first (rateLimiter s) in
  if ok then (set_rateLimiter (RateLimiter.recordRequest second limiter) s, None)
  else (set_rateLimiter limiter s,
        Some (RateLimitError (RateLimiter.getRetryAfter second limiter))).

(** Calls in sequence, each with its two readings of the clock, and the
    readings in the order they are made. *)
Definition checks_reads (reads : list (Z * Z)) (s : Sdk) : Sdk :=
  fold_left (fun acc t => (checkRateLimit_reads t.1 t.2 acc).1) reads s.

Definition readings (reads : list (Z * Z)) : list Z :=
  flat_map (fun t => [t.1; t.2]) reads.

End Admission.

(** ** Result.formats and Execution.text (lines 97-99, 169-187) *)

Module Formats.
Import Sdk.

(** JavaScript truthiness. *)
Definition truthy (v : Value) : bool :=
  match v with
  | VUndefined | VNull => false
  | VBool b => b
  | VNum n => negb (n =? 0)
  | VStr s => negb (bool_decide (s = EmptyString))
  | VArr _ | VObj _ => true
  end.

Definition push_if (v : Value) (key : string) : list string :=
  if truthy v then [key] else [].

Definition formats (r : Result) : list string :=
  push_if (text r) "text" ++ push_if (html r) "html"
  ++ push_if (markdown r) "markdown" ++ push_if (svg r) "svg"
  ++ push_if (png r) "png" ++ push_if (jpeg r) "jpeg"
  ++ push_if (pdf r) "pdf" ++ push_if (latex r) "latex"
  ++ push_if (json r) "json" ++ push_if (javascript r) "javascript"
  ++ push_if (data r) "data" ++ push_if (chart r) "chart"
  ++ (extra r).*1.

(** The keys [formats] tests one by one. *)
Definition formatKeys : list string :=
  ["text"; "html"; "markdown"; "svg"; "png"; "jpeg"; "pdf"; "latex"; "json";
   "javascript"; "data"; "chart"]%string.

(** [get text()]: [this.results.find(result => result.isMainResult)?.text] *)
Definition Execution_text (e : Execution) : Value :=
  match List.find (fun r => truthy (isMainResult r)) (results e) with
  | Some r => text r
  | None => VUndefined
  end.

Definition has_main (e : Execution) : bool :=
  existsb (fun r => truthy (isMainResult r)) (results e).

(** The [text] of a line that is a "result" message flagged as main. *)
Definition main_text (line : option Value) : Value :=
  match line with
  | Some (VObj fs) =>
      match field "type" fs with
      | VStr ty =>
          if decide (ty = "result"%string) then
            if truthy (nullish (field "is_main_result" fs) (VBool false))
            then field "text" fs else VUndefined
          else VUndefined
      | _ => VUndefined
      end
  | _ => VUndefined
  end.

End Formats.

(** ** Outcomes of the calls: what the further invariants speak about *)

Module Outcomes.
Import Sdk.

(** The event on which a closure's listener of a given role is attached. *)
Definition placed (c : Closure) (role : Role) (event : string) : Prop :=
  match c, role with
  | SendJob _, ResultListener => event = RESULT
  | Streaming _, OutputListener => event = JOB_OUTPUT
  | Terminal _, StreamListener => event = STREAM
  | Terminal _, EndListener => event = STREAM_END
  | _, _ => False
  end.

(** Some handler of call [j] is on the socket. *)
Definition attached (j : nat) (s : Sdk) : Prop :=
  ∃ event role, (role, j) ∈ handlers_of s event.

(** The error the timeout callback of a call rejects with. *)
Definition timeout_error (c : Closure) : option SdkError :=
  match c with
  | SendJob env => Some (TimeoutError "Job" (sj_timeout env))
  | Streaming env => Some (TimeoutError "Code execution" (so_timeout env))
  | Terminal env => Some (TimeoutError "Terminal command" (tm_timeout env))
  | Failed _ => None
  end.

(** How the promise of a call relates to its timer ([timer]), to its
    handlers being off the socket ([detached]) and to what it carries. *)
Definition outcome_ok (timer : option Z) (detached : Prop) (c : Closure) : Prop :=
  match c with
  | SendJob env =>
      match sj_promise env with
      | Fulfilled v => v ≠ VUndefined
      | _ => True
      end
  | Streaming env =>
      match so_promise env with
      | Pending => is_Some timer
      | Fulfilled _ =>
          is_Some (error (so_execution env))
          ∧ so_timeoutHandle env = None ∧ detached
      | Rejected _ => so_timeoutHandle env = None ∧ detached
      end
  | Terminal env =>
      match tm_promise env with
      | Pending => is_Some timer
      | Fulfilled _ => tm_timeoutHandle env = None ∧ detached
      | Rejected e =>
          e = TimeoutError "Terminal command" (tm_timeout env)
          ∧ tm_timeoutHandle env = None ∧ detached
      end
  | Failed _ => True
  end.

Record sound (s : Sdk) : Prop := mkSound {
  sound_wf : wf s;
  sound_placed :
    ∀ event role j, (role, j) ∈ handlers_of s event →
      ∃ c, closures s !! j = Some c ∧ placed c role event;
  sound_tracked :
    ∀ event role j c, (role, j) ∈ handlers_of s event →
      closures s !! j = Some c → settlement c = StillPending →
      (role, j) ∈ tracked s event;
  sound_outcome :
    ∀ j c, closures s !! j = Some c →
      outcome_ok (timers s !! j) (¬ attached j s) c
}.

(** What a callback of call [j] may rely on in [s], and what it leaves in
    [s']. *)
Definition own_pre (j : nat) (s : Sdk) (c : Closure) (timer : option Z) : Prop :=
  (∀ event, NoDup (handlers_of s event))
  ∧ (∀ event role, (role, j) ∈ handlers_of s event → placed c role event)
  ∧ outcome_ok timer (¬ attached j s) c.

Definition own_post (j : nat) (s s' : Sdk) : Prop :=
  ∀ c', closures s' !! j = Some c' →
        outcome_ok (timers s' !! j) (¬ attached j s') c'
        ∧ (settlement c' = StillPending →
           ∀ event, tracked s event ⊆ tracked s' event).

(** The two ways the registry of listeners and the socket come apart: a
    sendJob call that timed out, and a streaming job that is settled. *)
Definition timed_out_job (c : Closure) : Prop :=
  match c with
  | SendJob env => sj_promise env = Rejected (TimeoutError "Job" (sj_timeout env))
  | _ => False
  end.

Definition settled_stream (c : Closure) : Prop :=
  match c with
  | Streaming env => so_promise env ≠ Pending
  | _ => False
  end.

Record bookkeeping (s : Sdk) : Prop := mkBookkeeping {
  bk_placed :
    ∀ event role j, (role, j) ∈ tracked s event →
      ∃ c, closures s !! j = Some c ∧ placed c role event;
  bk_attached :
    ∀ event role j, (role, j) ∈ handlers_of s event →
      (role, j) ∈ tracked s event
      ∨ ∃ c, closures s !! j = Some c ∧ timed_out_job c;
  bk_tracked :
    ∀ event role j, (role, j) ∈ tracked s event →
      (role, j) ∈ handlers_of s event
      ∨ ∃ c, closures s !! j = Some c ∧ settled_stream c
}.

(** What a callback of call [j] leaves of the listeners of [j]. *)
Definition own_bk (j : nat) (s s' : Sdk) : Prop :=
  (∀ event role, (role, j) ∈ tracked s' event → (role, j) ∈ tracked s event)
  ∧ ∀ c', closures s' !! j = Some c' →
      (∀ event role, (role, j) ∈ handlers_of s' event →
         (role, j) ∈ tracked s' event ∨ timed_out_job c')
      ∧ (∀ event role, (role, j) ∈ tracked s' event →
           (role, j) ∈ handlers_of s' event ∨ settled_stream c').

(** What such a callback may rely on for the listeners of [j]. *)
Definition bk_pre (j : nat) (s : Sdk) (c : Closure) : Prop :=
  (∀ event role, (role, j) ∈ tracked s event → placed c role event)
  ∧ (∀ event role, (role, j) ∈ handlers_of s event →
       (role, j) ∈ tracked s event ∨ timed_out_job c)
  ∧ (∀ event role, (role, j) ∈ tracked s event →
       (role, j) ∈ handlers_of s event ∨ settled_stream c).

(** The promise of a streaming or terminal job is settled. *)
Definition settled_job (c : Closure) : Prop :=
  match c with
  | Streaming env => so_promise env ≠ Pending
  | Terminal env => tm_promise env ≠ Pending
  | _ => False
  end.

(** An event that is a call, or the timer of a call other than [j]. *)
Definition foreign_to (j : nat) (ev : Event) : Prop :=
  match ev with
  | CallSendJob _ _ _ _ _ | CallSendStreamingJob _ _ _ _ _ _ _
  | CallRunTerminal _ _ _ _ _ | SocketConnect => True
  | TimerFires handle _ => handle ≠ j
  | Incoming _ _ | SocketDisconnect => False
  end.

(** The calls of [onStdout] that a sequence of stream chunks, each with its
    time of arrival, gives rise to in runTerminal: one per non-empty chunk,
    if the caller passed the callback. *)
Definition stdout_calls (opts : option RunCodeOptions)
    (chunks : list (StreamChunkResponse * Z)) : list CallbackCall :=
  match opts ≫= onStdout with
  | None => []
  | Some _ =>
      omap (fun c : StreamChunkResponse * Z =>
              if decide (chunk c.1 = EmptyString) then None
              else Some (CalledOnStdout
                           {| om_line := VStr (chunk c.1);
                              om_timestamp :=
                                Js.num_or (sc_timestamp c.1) (c.2 * 1000);
                              om_error := false |}))
        chunks
  end.

(** A line of output that cannot be processed: [JSON.parse] throws a
    SyntaxError on it, or it decodes to [null], on which reading [msg.type]
    throws a TypeError. *)
Definition malformed (line : option Value) (e : SdkError) : Prop :=
  (line = None ∧ e = SyntaxError) ∨ (line = Some VNull ∧ e = TypeError).

(** A trace in which the socket never disconnects. *)
Definition stays_connected (tr : list Event) : Prop :=
  Forall (fun ev => ev ≠ SocketDisconnect) tr.

End Outcomes.


(** ** What the calls send to the server *)

Module Accounting.
Import Sdk.

(** What the calls made so far have sent to the server, and what they were
    to send: the job id of every call that got past its checks, in the order
    of the calls. *)
Definition sent (s : Sdk) : list (string * string * Value) :=
  default [] (emitted <$> socket s).

Definition job_ids (s : Sdk) : list string :=
  omap (fun j => closures s !! j ≫= jobId_of_closure) (seq 0 (nextId s)).

End Accounting.


(** ** outputListener with its await (lines 929-953)

    [outputListener] is an async function.  A call runs at once up to
    [await this.parseOutput(...)]: parseOutput is entered, the execution is
    mutated and the caller's callback is called.  What follows the await,
    the test of [execution.error] with the settlement, or the [catch], runs
    only when the promise of parseOutput has settled: in a later microtask,
    or later still when the callback returned a promise that takes its time.
    Other events are handled in between.  Here a call of the listener leaves
    a continuation, and resuming a continuation is a step of its own; the
    continuation reads the closure as it is when it resumes, and every call
    of the listener leaves one. *)

Module Async.
Import Sdk.

(** What is left of a call of [outputListener] of call [k_job] after the
    await: [k_exn] is the exception parseOutput ends with, if any. *)
Record Continuation := mkContinuation {
  k_job : nat;
  k_exn : option SdkError
}.

(** [outputListener] up to the await. *)
Definition outputListener_call (j : nat) (env : StreamingEnv)
    (res : JobOutputLine) (now : Z) (s : Sdk) : Sdk * list Continuation :=
  if decide (jo_jobId res = so_jobId env) then
    let '(execution, calls, exn) :=
      parseOutput (so_execution env) (jo_line res) (so_opts env) now in
    (set_closure j
       (Streaming {| so_jobId := so_jobId env; so_timeout := so_timeout env;
                     so_timeoutHandle := so_timeoutHandle env;
                     so_execution := execution;
                     so_metadata := so_metadata env; so_opts := so_opts env;
                     so_calls := so_calls env ++ calls;
                     so_promise := so_promise env |}) s,
     [{| k_job := j; k_exn := exn |}])
  else (s, []).

(** [outputListener] after the await.  The clock is read three times:
    [new Date()] for [endTime], [Date.now()] for the duration and
    [Date.now()] for the timestamp. *)
Definition outputListener_resume (k : Continuation)
    (endTime now timestamp : Z) (s : Sdk) : Sdk :=
  match closures s !! k_job k with
  | Some (Streaming env) =>
      match k_exn k with
      | None =>
          match error (so_execution env) with
          | Some _ =>
              let duration := now - Js.num_or (startTime (so_metadata env)) 0 in
              let metadata :=
                {| executionId := executionId (so_metadata env);
                   sandboxId := sandboxId (so_metadata env);
                   startTime := startTime (so_metadata env);
                   endTime := Some endTime;
                   duration := Some duration |} in
              set_closure (k_job k)
                (Streaming {| so_jobId := so_jobId env;
                              so_timeout := so_timeout env;
                              so_timeoutHandle := None;
                              so_execution := so_execution env;
                              so_metadata := metadata; so_opts := so_opts env;
                              so_calls := so_calls env;
                              so_promise := resolve timestamp (so_promise env) |})
                (upd_metricsCollector (MetricsCollector.recordExecution duration)
                   (streaming_cleanup (k_job k) env s))
          | None => s
          end
      | Some e =>
          set_closure (k_job k)
            (Streaming {| so_jobId := so_jobId env; so_timeout := so_timeout env;
                          so_timeoutHandle := None;
                          so_execution := so_execution env;
                          so_metadata := so_metadata env; so_opts := so_opts env;
                          so_calls := so_calls env;
                          so_promise := reject e (so_promise env) |})
            (streaming_cleanup (k_job k) env s)
      end
  | _ => s
  end.

(** Calling a listener: as [Sdk.invoke], except that [outputListener] stops
    at its await and leaves a continuation. *)
Definition invoke (l : Listener) (msg : Message) (now : Z) (s : Sdk)
    : Sdk * list Continuation * option SdkError :=
  match closures s !! l.2, l.1, msg with
  | Some (Streaming env), OutputListener, JobOutput res =>
      let '(s', ks) := outputListener_call l.2 env res now s in (s', ks, None)
  | _, _, _ => let '(s', e) := Sdk.invoke l msg now s in (s', [], e)
  end.

Fixpoint deliver (ls : list Listener) (msg : Message) (now : Z) (s : Sdk)
    : Sdk * list Continuation :=
  match ls with
  | [] => (s, [])
  | l :: rest =>
      match invoke l msg now s with
      | (s', ks, Some _) => (s', ks)
      | (s', ks, None) =>
          let '(s'', ks') := deliver rest msg now s' in (s'', ks ++ ks')
      end
  end.

(** The SDK together with the continuations that have not resumed yet. *)
Record State := mkState {
  sdk : Sdk;
  suspended : list Continuation
}.

Definition start (s : Sdk) : State := {| sdk := s; suspended := [] |}.

(** The events of [Sdk.Event], and the resumption of the [n]-th suspended
    continuation, in any order the runtime may choose. *)
Inductive Event :=
| External (ev : Sdk.Event)
| Resume (n : nat) (endTime now timestamp : Z).

Definition step (ev : Event) (a : State) : State :=
  match ev with
  | External (Incoming msg now) =>
      let '(s', ks) :=
        deliver (handlers_of (sdk a) (event_of msg)) msg now (sdk a) in
      {| sdk := s'; suspended := suspended a ++ ks |}
  | External ev' => {| sdk := Sdk.step ev' (sdk a); suspended := suspended a |}
  | Resume n endTime now timestamp =>
      match suspended a !! n with
      | Some k =>
          {| sdk := outputListener_resume k endTime now timestamp (sdk a);
             suspended := delete n (suspended a) |}
      | None => a
      end
  end.

Definition run (tr : list Event) (a : State) : State :=
  fold_left (fun acc ev => step ev acc) tr a.

(** Some continuation of call [j] has not resumed yet. *)
Definition in_flight (j : nat) (a : State) : Prop :=
  ∃ k, k ∈ suspended a ∧ k_job k = j.

(** A closure and a later one that agree on everything except, for a
    streaming job, the metadata. *)
Definition same_but_metadata (c c' : Closure) : Prop :=
  match c, c' with
  | Streaming env, Streaming env' =>
      so_jobId env' = so_jobId env ∧ so_timeout env' = so_timeout env
      ∧ so_timeoutHandle env' = so_timeoutHandle env
      ∧ so_execution env' = so_execution env
      ∧ so_opts env' = so_opts env ∧ so_calls env' = so_calls env
      ∧ so_promise env' = so_promise env
  | _, _ => c' = c
  end.

End Async.


(** * Properties *)

(** ** MetricsCollector *)

Section MetricsFacts.
Import MetricsCollector.

Lemma feed_snoc samples x c :
  feed (samples ++ [x]) c = recordRequest x.1 x.2 (feed samples c).
Proof. unfold feed. by rewrite fold_left_app. Qed.

Lemma responseTimes_updateAverage c :
  responseTimes (updateAverageResponseTime c) = responseTimes c.
Proof.
  unfold updateAverageResponseTime. by destruct (responseTimes c) eqn:E.
Qed.

Lemma metrics_updateAverage c :
  responseTimes c ≠ [] →
  metrics (updateAverageResponseTime c)
  = set_average (mean (responseTimes c)) (metrics c).
Proof.
  unfold updateAverageResponseTime. by destruct (responseTimes c) eqn:E.
Qed.

(** The ring after one call: the new sample goes last, and the first entry
    leaves when the ring was full. *)
Lemma responseTimes_recordRequest success rt c :
  responseTimes (recordRequest success rt c)
  = if decide (length (responseTimes c) < 1000)%nat
    then responseTimes c ++ [rt]
    else tail (responseTimes c) ++ [rt].
Proof.
  unfold recordRequest. rewrite responseTimes_updateAverage. cbn.
  rewrite length_app. cbn.
  destruct (Z.ltb_spec 1000 (Z.of_nat (length (responseTimes c) + 1)));
    case_decide; try lia; [|done].
  unfold Js.shift. destruct (responseTimes c); [cbn in *; lia | done].
Qed.

Lemma responseTimes_nonempty success rt c :
  responseTimes (recordRequest success rt c) ≠ [].
Proof.
  rewrite responseTimes_recordRequest.
  case_decide; intros E; by apply app_eq_nil in E as [_ ?].
Qed.

Lemma average_recordRequest success rt c :
  averageResponseTime (metrics (recordRequest success rt c))
  = mean (responseTimes (recordRequest success rt c)).
Proof.
  pose proof (responseTimes_nonempty success rt c) as Hne.
  unfold recordRequest in *. rewrite responseTimes_updateAverage in *.
  by rewrite metrics_updateAverage.
Qed.

Lemma counters_recordRequest success rt c :
  metrics (recordRequest success rt c)
  = set_average (mean (responseTimes (recordRequest success rt c)))
      (count_request success (metrics c)).
Proof.
  pose proof (responseTimes_nonempty success rt c) as Hne.
  unfold recordRequest in *. rewrite responseTimes_updateAverage in *.
  by rewrite metrics_updateAverage.
Qed.

(** After any history the ring holds the most recent samples, at most 1000,
    in arrival order. *)
Lemma responseTimes_feed samples :
  responseTimes (feed samples new) = drop (length samples - 1000) samples.*2.
Proof.
  induction samples as [|x samples IH] using rev_ind; [done|].
  rewrite feed_snoc, responseTimes_recordRequest, IH.
  rewrite fmap_app, !length_app, length_drop, length_fmap. cbn.
  case_decide.
  - replace (length samples + 1 - 1000)%nat with 0%nat by lia.
    by replace (length samples - 1000)%nat with 0%nat by lia.
  - replace (length samples + 1 - 1000)%nat
      with (S (length samples - 1000)) by lia.
    rewrite drop_app_le by (rewrite length_fmap; lia).
    f_equal. generalize (length samples - 1000)%nat as k.
    generalize (samples.*2) as l. clear.
    intros l k. revert l. induction k as [|k IH]; intros [|a l]; cbn; auto.
Qed.

Lemma counters_feed samples :
  let m := metrics (feed samples new) in
  totalRequests m = Z.of_nat (length samples)
  ∧ totalRequests m = successfulRequests m + failedRequests m.
Proof.
  induction samples as [|x samples IH] using rev_ind; [done|].
  cbn in *. rewrite feed_snoc, counters_recordRequest, length_app. cbn.
  destruct IH as [IH1 IH2]. destruct x.1; lia.
Qed.

Lemma reduce_add_foldr l : Js.reduce_add l = foldr Z.add 0%Z l.
Proof.
  unfold Js.reduce_add. rewrite <- (Z.add_0_l (foldr Z.add 0%Z l)).
  generalize 0 at 1 2 as acc. induction l as [|x l IH]; intros acc; cbn.
  - lia.
  - rewrite IH. lia.
Qed.

(** What is stored is the quotient of the sum by the length, so it is as near
    to it as any rounding of the division asks. *)
Lemma average_near_quotient success rt c :
  let ring := responseTimes (recordRequest success rt c) in
  let quotient :=
    (inject_Z (foldr Z.add 0%Z ring) / inject_Z (Z.of_nat (length ring)))%Q in
  (Qabs (averageResponseTime (metrics (recordRequest success rt c)) - quotient)
   <= (1 # 2 ^ 53) * Qabs quotient)%Q.
Proof.
  cbn zeta. rewrite average_recordRequest. unfold mean.
  rewrite reduce_add_foldr.
  set (q := (inject_Z _ / inject_Z _)%Q).
  assert (Hz : (q - q == 0)%Q) by ring.
  rewrite (Qabs_wd _ _ Hz). change (Qabs 0) with 0%Q.
  apply Qmult_le_0_compat; [done|apply Qabs_nonneg].
Qed.

(** C8.  [recordRequest] adds one to the total and to exactly one of the
    success and failure counters; the ring of response times holds the most
    recent samples, at most 1000, in arrival order (the oldest leaves first);
    the reported average is the sum of the ring as it stands divided by its
    length.  The quotient is written out here, and the average is within the
    rounding of that one division of it (a relative error of 2^-53, for
    samples below 2^43 ms, whose sum the code computes exactly).  After 1001
    samples the ring is the last 1000 of them and the average is their sum
    divided by 1000: the first sample no longer contributes. *)
Theorem recordRequest_counts_ring_mean :
  ∀ (history : list (bool * Z)) (success : bool) (responseTime : Z),
    let c := feed history new in
    let c' := recordRequest success responseTime c in
    let ring := responseTimes c' in
    totalRequests (metrics c') = totalRequests (metrics c) + 1
    ∧ successfulRequests (metrics c')
      = successfulRequests (metrics c) + (if success then 1 else 0)
    ∧ failedRequests (metrics c')
      = failedRequests (metrics c) + (if success then 0 else 1)
    ∧ ring = drop (length history + 1 - 1000) (history.*2 ++ [responseTime])
    ∧ (length ring ≤ 1000)%nat
    ∧ (Forall (fun x => Z.abs x <= 2 ^ 43) ring →
       (Qabs (averageResponseTime (metrics c')
              - inject_Z (foldr Z.add 0%Z ring)
                / inject_Z (Z.of_nat (length ring)))
        <= (1 # 2 ^ 53)
           * Qabs (inject_Z (foldr Z.add 0%Z ring)
                   / inject_Z (Z.of_nat (length ring))))%Q)
    ∧ (∀ first rest,
         history ++ [(success, responseTime)] = first :: rest →
         length rest = 1000%nat →
         Forall (fun x => Z.abs x <= 2 ^ 43) rest.*2 →
         ring = rest.*2
         ∧ (Qabs (averageResponseTime (metrics c')
                  - inject_Z (foldr Z.add 0%Z rest.*2) / inject_Z 1000)
            <= (1 # 2 ^ 53)
               * Qabs (inject_Z (foldr Z.add 0%Z rest.*2) / inject_Z 1000))%Q).
Proof.
  intros history success rt c c' ring.
  assert (Hring : ring
                  = drop (length history + 1 - 1000) (history.*2 ++ [rt])).
  { subst ring c' c. rewrite <- (feed_snoc history (success, rt)).
    by rewrite responseTimes_feed, length_app, fmap_app. }
  assert (Havg := average_near_quotient success rt c). cbn zeta in Havg.
  fold c' in Havg. fold ring in Havg.
  assert (Hlast : ∀ first rest,
            history ++ [(success, rt)] = first :: rest →
            length rest = 1000%nat → ring = rest.*2).
  { intros first rest H Hlen. rewrite Hring.
    change [rt] with ([(success, rt)].*2). rewrite <- fmap_app, H.
    replace (length history + 1 - 1000)%nat with 1%nat; [done|].
    apply (f_equal length) in H. rewrite length_app in H. cbn in H. lia. }
  assert (Hcount : metrics c' = set_average (mean ring)
                                 (count_request success (metrics c)))
    by apply counters_recordRequest.
  split; [rewrite Hcount; cbn; lia|].
  split; [rewrite Hcount; cbn; destruct success; lia|].
  split; [rewrite Hcount; cbn; destruct success; lia|].
  split; [exact Hring|].
  split; [rewrite Hring, length_drop, length_app, length_fmap; cbn; lia|].
  split; [intros _; exact Havg|].
  intros first rest H Hlen _. split; [by apply (Hlast first)|].
  rewrite (Hlast first rest) in Havg by done.
  rewrite length_fmap in Havg. by replace (length rest) with 1000%nat in Havg.
Qed.

(** The scenario of C8 run: an outlier followed by 1000 samples of 10 ms.
    The ring is the 1000 samples of 10 ms, and the average is 10000 / 1000
    to within the rounding. *)
Lemma recordRequest_counts_ring_mean_witness :
  let history := (true, 1000000) :: repeat (false, 10) 999 in
  responseTimes (recordRequest false 10 (feed history new)) = repeat 10 1000
  ∧ (Qabs (averageResponseTime
             (metrics (recordRequest false 10 (feed history new)))
           - inject_Z 10000 / inject_Z 1000)
     <= (1 # 2 ^ 53) * Qabs (inject_Z 10000 / inject_Z 1000))%Q.
Proof.
  intros history.
  destruct (recordRequest_counts_ring_mean history false 10)
    as (_ & _ & _ & _ & _ & _ & H).
  apply (H (true, 1000000) (repeat (false, 10) 1000)).
  - vm_compute. reflexivity.
  - vm_compute. reflexivity.
  - apply Forall_forall. intros x Hx.
    apply list_elem_of_fmap in Hx as ([b y] & -> & Hy).
    apply list_elem_of_In, repeat_spec in Hy. injection Hy as _ ->.
    vm_compute. discriminate.
Defined.

End MetricsFacts.

(** ** RateLimiter *)

Section RateLimiterFacts.
Import RateLimiter.

Lemma limiter_run_snoc h c r : run (h ++ [c]) r = exec c (run h r).
Proof. unfold run. by rewrite fold_left_app. Qed.

Lemma maxRequestsPerMinute_run h r :
  maxRequestsPerMinute (run h r) = maxRequestsPerMinute r.
Proof.
  induction h as [|c h IH] using rev_ind; [done|].
  rewrite limiter_run_snoc, <- IH. destruct c; cbn; try done.
  unfold canMakeRequest. by case_match.
Qed.

Lemma requestTimestamps_canMakeRequest now r :
  requestTimestamps (canMakeRequest now r).2
  = filter (fun ts => now - 60000 < ts) (requestTimestamps r).
Proof. unfold canMakeRequest. by case_match. Qed.

Lemma in_window_filter now l :
  filter (fun ts => now - 60000 < ts) l = in_window now l.
Proof. apply list_filter_iff. intros ts. lia. Qed.

(** Pruning at an earlier instant removes nothing a later window needs. *)
Lemma in_window_pruned now t l :
  t <= now → in_window now (in_window t l) = in_window now l.
Proof.
  intros Hle. unfold in_window. induction l as [|x l IH]; [done|].
  rewrite !filter_cons. repeat case_decide; rewrite ?filter_cons;
    repeat case_decide; try lia; by rewrite IH.
Qed.

Lemma clock_snoc h c :
  clock (h ++ [c]) = clock h ++ clock [c].
Proof. unfold clock. by rewrite omap_app. Qed.

Lemma recorded_snoc h c :
  recorded (h ++ [c]) = recorded h ++ recorded [c].
Proof. unfold recorded. by rewrite omap_app. Qed.

(** Whatever was pruned along the way, the stored timestamps and the
    recorded ones agree on every window taken at or after the last clock
    reading. *)
Lemma window_run ceiling h now :
  Forall (fun t => t <= now) (clock h) →
  in_window now (requestTimestamps (run h (new ceiling)))
  = in_window now (recorded h).
Proof.
  induction h as [|c h IH] using rev_ind; [done|].
  rewrite clock_snoc, recorded_snoc, limiter_run_snoc. intros [Hh Hc]%Forall_app.
  specialize (IH Hh). destruct c as [t|t| |]; cbn in *.
  - rewrite requestTimestamps_canMakeRequest, in_window_filter, app_nil_r.
    rewrite in_window_pruned; [done|]. by inversion Hc.
  - unfold in_window in *. by rewrite !filter_app, IH.
  - by rewrite app_nil_r.
  - by rewrite app_nil_r.
Qed.

Lemma recorded_sublist h : sublist (recorded h) (clock h).
Proof.
  induction h as [|c h IH]; [done|].
  destruct c; cbn; try done; by constructor.
Qed.

Lemma StronglySorted_sublist (l' l : list Z) :
  l' `sublist_of` l → StronglySorted Z.le l → StronglySorted Z.le l'.
Proof.
  induction 1 as [|x l1 l2 Hsub IH|x l1 l2 Hsub IH]; [done| |];
    inversion 1 as [|? ? Hs Hall]; subst; [|by auto].
  constructor; [by auto|]. rewrite Forall_forall in *.
  intros y Hy. apply Hall. by eapply elem_of_sublist.
Qed.

Lemma in_window_sorted now l :
  StronglySorted Z.le l → StronglySorted Z.le (in_window now l).
Proof. apply StronglySorted_sublist, sublist_filter. Qed.

Lemma concurrentJobs_run h ceiling :
  concurrentJobs (run h (new ceiling))
  = Z.of_nat (length (filter (fun c => c = IncrementConcurrentJobs) h))
    - Z.of_nat (length (filter (fun c => c = DecrementConcurrentJobs) h)).
Proof.
  induction h as [|c h IH] using rev_ind; [done|].
  rewrite limiter_run_snoc, !filter_app, !length_app.
  destruct c; cbn; rewrite ?filter_cons; repeat case_decide; try done; cbn;
    try (unfold canMakeRequest; case_match; cbn); lia.
Qed.

Lemma stored_sublist_recorded h ceiling :
  requestTimestamps (run h (new ceiling)) `sublist_of` recorded h.
Proof.
  induction h as [|c h IH] using rev_ind; [done|].
  rewrite limiter_run_snoc, recorded_snoc. destruct c as [t|t| |]; cbn;
    rewrite ?app_nil_r; try done.
  - rewrite requestTimestamps_canMakeRequest.
    etrans; [apply sublist_filter|done].
  - by apply sublist_app.
Qed.

Lemma head_is_oldest (l : list Z) oldest rest :
  StronglySorted Z.le l → l = oldest :: rest → Forall (Z.le oldest) rest.
Proof. intros Hs ->. by inversion Hs. Qed.

(** C6, as amended.  After any history of checks and records, a check at
    [now] prunes the timestamps 60 seconds old or older (it keeps those with
    [ts > now - 60000]) and lets the call through exactly when fewer than
    the ceiling (60 by default) remain; [getRetryAfter] is zero on an empty
    window and otherwise [60000 - (now - oldest)] clamped at zero, [oldest]
    being the first timestamp of the window.  When the clock never went
    backwards, what remains after the check is exactly the recorded
    timestamps less than 60 seconds old, and the first timestamp of the
    window is the oldest of all. *)
Theorem canMakeRequest_window :
  ∀ (ceiling : option Z) (h : list Call) (now : Z),
    let r := run h (new ceiling) in
    let kept := in_window now (requestTimestamps r) in
    requestTimestamps (canMakeRequest now r).2 = kept
    ∧ ((canMakeRequest now r).1 = true
       ↔ Z.of_nat (length kept) < default 60 ceiling)
    ∧ getRetryAfter now r
      = match requestTimestamps r with
        | [] => 0
        | oldest :: _ => Z.max (60000 - (now - oldest)) 0
        end
    ∧ getRetryAfter now (canMakeRequest now r).2
      = match kept with
        | [] => 0
        | oldest :: _ => Z.max (60000 - (now - oldest)) 0
        end
    ∧ (StronglySorted Z.le (clock h ++ [now]) →
       kept = in_window now (recorded h)
       ∧ (∀ oldest rest, kept = oldest :: rest → Forall (Z.le oldest) rest)
       ∧ (∀ oldest rest,
            requestTimestamps r = oldest :: rest → Forall (Z.le oldest) rest)).
Proof.
  intros ceiling h now r kept.
  assert (Hkept : requestTimestamps (canMakeRequest now r).2 = kept)
    by by rewrite requestTimestamps_canMakeRequest, in_window_filter.
  split; [done|]. split; [|split; [done|split]].
  - rewrite <- Hkept, requestTimestamps_canMakeRequest.
    unfold canMakeRequest. subst r.
    rewrite maxRequestsPerMinute_run. cbn.
    case_match; cbn; [split; [done|lia]|split; [lia|done]].
  - unfold getRetryAfter. by rewrite Hkept.
  - intros Hsorted.
    apply StronglySorted_app in Hsorted as (Hle & Hclock & _).
    assert (Hnow : Forall (fun t => t <= now) (clock h)).
    { apply Forall_forall. intros t Ht. apply Hle; [done|]. by left. }
    assert (Hrec : StronglySorted Z.le (recorded h))
      by (eapply StronglySorted_sublist; [apply recorded_sublist|done]).
    assert (Hwin : kept = in_window now (recorded h)) by by apply window_run.
    split; [done|]. split.
    + intros oldest rest. apply head_is_oldest.
      rewrite Hwin. by apply in_window_sorted.
    + intros oldest rest. apply head_is_oldest.
      eapply StronglySorted_sublist; [apply stored_sublist_recorded|done].
Qed.

(** A run of C6 with a ceiling of 2: three requests, one of them already a
    minute old at the check. *)
Lemma canMakeRequest_window_witness :
  let h := [RecordRequest 0; CanMakeRequest 10; RecordRequest 20000;
            RecordRequest 40000] in
  requestTimestamps (canMakeRequest 60000 (run h (new (Some 2)))).2
  = in_window 60000 (recorded h)
  ∧ in_window 60000 (recorded h) = [20000; 40000]
  ∧ (canMakeRequest 60000 (run h (new (Some 2)))).1 = false
  ∧ getRetryAfter 60000 (canMakeRequest 60000 (run h (new (Some 2)))).2 = 20000.
Proof.
  intros h.
  destruct (canMakeRequest_window (Some 2) h 60000)
    as (H1 & H2 & _ & H4 & H5).
  destruct H5 as (H5 & _); [repeat constructor; lia|].
  split; [by rewrite H1|]. split; [reflexivity|]. split; [|exact H4].
  apply not_true_is_false. intros E.
  apply H2 in E. vm_compute in E. discriminate.
Defined.

(** C6 as stated fails on the boundary: at the instant the 60 recorded
    timestamps are exactly 60 seconds old, none of them is older than 60
    seconds, so the stated rule keeps all 60 and refuses; the code prunes
    them and admits. *)
Lemma canMakeRequest_boundary_counterexample :
  ¬ (∀ (ceiling : option Z) (h : list Call) (now : Z),
       StronglySorted Z.le (clock h ++ [now]) →
       (canMakeRequest now (run h (new ceiling))).1
       = allowed_as_specified now (recorded h) (default 60 ceiling)).
Proof.
  intros H.
  specialize (H None (repeat (RecordRequest 0) 60) 60000).
  assert (Hs : StronglySorted Z.le
                 (clock (repeat (RecordRequest 0) 60) ++ [60000])).
  { refine (bool_decide_unpack _ _). vm_compute. exact I. }
  apply H in Hs. vm_compute in Hs. discriminate.
Qed.

(** C7.  The floor is applied to the value [decrementConcurrentJobs]
    returns, not to the counter: after any history the gauge reads
    increments minus decrements, and one decrement on a new limiter returns
    0 and leaves the gauge at -1. *)
Theorem getConcurrentJobs_unfloored :
  (∀ (ceiling : option Z) (h : list Call),
     getConcurrentJobs (run h (new ceiling))
     = Z.of_nat (length (filter (fun c => c = IncrementConcurrentJobs) h))
       - Z.of_nat (length (filter (fun c => c = DecrementConcurrentJobs) h)))
  ∧ (decrementConcurrentJobs (new None)).1 = 0
  ∧ getConcurrentJobs (decrementConcurrentJobs (new None)).2 = -1.
Proof.
  split; [|done]. intros ceiling h. apply concurrentJobs_run.
Qed.

End RateLimiterFacts.

(** ** The protocol layer *)

Section ProtocolFacts.
Import Sdk.

(** *** The socket's handler table and the registry *)

Lemma remove_first_sublist l ls : remove_first l ls `sublist_of` ls.
Proof.
  induction ls as [|x ls IH]; [done|]. cbn.
  case_decide; [by apply sublist_cons_r; left|by constructor].
Qed.

Lemma elem_of_remove_first_ne l l' ls :
  l' ≠ l → l' ∈ remove_first l ls ↔ l' ∈ ls.
Proof.
  intros Hne. induction ls as [|x ls IH]; [done|]. cbn.
  case_decide; subst; rewrite !elem_of_cons; [|rewrite IH]; intuition congruence.
Qed.

Lemma not_elem_of_remove_first l ls : NoDup ls → l ∉ remove_first l ls.
Proof.
  induction 1 as [|x ls Hx Hnd IH]; cbn; [by apply not_elem_of_nil|].
  case_decide; subst; [done|]. rewrite elem_of_cons. intuition congruence.
Qed.

Lemma handlers_of_off ev l s event :
  handlers_of (upd_socket (off ev l) s) event
  = if decide (event = ev) then remove_first l (handlers_of s ev)
    else handlers_of s event.
Proof.
  unfold handlers_of, upd_socket, off. cbn.
  destruct (socket s) as [sock|]; cbn; [|by case_decide].
  case_decide; subst.
  - destruct (handlers sock !! ev) as [ls|] eqn:E; cbn; [|by rewrite E].
    destruct (remove_first l ls) eqn:R.
    + by rewrite lookup_delete_eq.
    + by rewrite lookup_insert_eq.
  - destruct (handlers sock !! ev) as [ls|] eqn:E; cbn; [|done].
    destruct (remove_first l ls).
    + by rewrite lookup_delete_ne.
    + by rewrite lookup_insert_ne.
Qed.

Lemma handlers_of_on ev l s event :
  is_Some (socket s) →
  handlers_of (upd_socket (on ev l) s) event
  = if decide (event = ev) then handlers_of s ev ++ [l]
    else handlers_of s event.
Proof.
  intros [sock Hs]. unfold handlers_of, upd_socket, on. rewrite Hs. cbn.
  case_decide; subst; [by rewrite lookup_insert_eq|by rewrite lookup_insert_ne].
Qed.

Lemma handlers_of_emit ev jobId payload s event :
  handlers_of (upd_socket (emit ev jobId payload) s) event = handlers_of s event.
Proof. unfold handlers_of, upd_socket. by destruct (socket s). Qed.

Lemma tracked_removeListener ev l s event :
  tracked (removeListener ev l s) event
  = if decide (event = ev) then tracked s ev ∖ {[l]} else tracked s event.
Proof.
  unfold tracked, removeListener. cbn.
  destruct (listeners s !! ev) as [ls|] eqn:E.
  - repeat case_decide; subst; cbn.
    + rewrite lookup_delete_eq. cbn. symmetry.
      apply leibniz_equiv. by apply size_empty_inv.
    + by rewrite lookup_delete_ne.
    + by rewrite lookup_insert_eq.
    + by rewrite lookup_insert_ne.
  - case_decide; subst; [|done]. rewrite E. cbn. set_solver.
Qed.

Lemma tracked_trackListener ev l s event :
  tracked (trackListener ev l s) event
  = if decide (event = ev) then tracked s ev ∪ {[l]} else tracked s event.
Proof.
  unfold tracked, trackListener. cbn.
  case_decide; subst; [by rewrite lookup_insert_eq|by rewrite lookup_insert_ne].
Qed.

(** *** Frames *)

Lemma frame_refl j s : frame j s s.
Proof. by repeat split. Qed.

Lemma frame_trans j s1 s2 s3 : frame j s1 s2 → frame j s2 s3 → frame j s1 s3.
Proof.
  intros (Hc & Ht & Hh & Hr) (Hc' & Ht' & Hh' & Hr').
  repeat split; try congruence; intros; by (rewrite Hh', Hh || rewrite Hr', Hr
    || rewrite <- Hh, <- Hh' || rewrite <- Hr, <- Hr').
Qed.

Lemma local_refl j s : local j s s.
Proof. split; [done|]. split; [intros; apply frame_refl|done]. Qed.

Lemma local_trans j s1 s2 s3 : local j s1 s2 → local j s2 s3 → local j s1 s3.
Proof.
  intros (Hn & Hf & Ht & Hh) (Hn' & Hf' & Ht' & Hh').
  split; [congruence|]. split; [|split].
  - intros k Hk. eapply frame_trans; eauto.
  - eauto.
  - intros event. etrans; eauto.
Qed.

Lemma local_set_closure j c s : local j s (set_closure j c s).
Proof.
  split; [done|]. split; [|done].
  intros k Hk. split; [|done]. cbn. by rewrite lookup_insert_ne.
Qed.

Lemma local_upd_metricsCollector j f s : local j s (upd_metricsCollector f s).
Proof. split; [done|]. split; [|done]. intros k Hk. by repeat split. Qed.

Lemma local_delete_timer j s : local j s (upd_timers (delete j) s).
Proof.
  split; [done|]. split; [|split; [|done]].
  - intros k Hk. split; [done|]. split; [|done]. cbn. by rewrite lookup_delete_ne.
  - intros k. cbn. rewrite lookup_delete. by case_decide; [intros []|].
Qed.

Lemma local_clearTimeout j handle s :
  (∀ h, handle = Some h → h = j) → local j s (clearTimeout handle s).
Proof.
  intros Hh. destruct handle as [h|]; [|apply local_refl].
  rewrite (Hh h eq_refl). apply local_delete_timer.
Qed.

Lemma local_off j ev role s : local j s (upd_socket (off ev (role, j)) s).
Proof.
  split; [done|]. split; [|split; [done|]].
  - intros k Hk. split; [done|]. split; [done|]. split; [|done].
    intros event role'. rewrite handlers_of_off. case_decide; subst; [|done].
    apply elem_of_remove_first_ne. congruence.
  - intros event. rewrite handlers_of_off. case_decide; subst; [|done].
    apply remove_first_sublist.
Qed.

Lemma local_removeListener j ev role s : local j s (removeListener ev (role, j) s).
Proof.
  split; [done|]. split; [|done].
  intros k Hk. split; [done|]. split; [done|]. split; [done|].
  intros event role'. rewrite tracked_removeListener. case_decide; subst; [|done].
  rewrite elem_of_difference, elem_of_singleton.
  split; [by intros []|]. intros ?. split; [done|congruence].
Qed.

(** *** The callbacks of one call are local to it *)

Lemma sendJob_onTimeout_local j env s : local j s (sendJob_onTimeout j env s).
Proof.
  unfold sendJob_onTimeout.
  eapply local_trans; [apply local_removeListener|apply local_set_closure].
Qed.

Lemma sendJob_listener_local j env res s :
  (∀ h, sj_timeoutHandle env = Some h → h = j) →
  local j s (sendJob_listener j env res s).
Proof.
  intros Hh. unfold sendJob_listener. case_decide; [|apply local_refl].
  eapply local_trans; [by apply local_clearTimeout|].
  eapply local_trans; [apply local_removeListener|].
  eapply local_trans; [apply local_off|apply local_set_closure].
Qed.

Lemma streaming_cleanup_local j env s :
  (∀ h, so_timeoutHandle env = Some h → h = j) →
  local j s (streaming_cleanup j env s).
Proof.
  intros Hh. unfold streaming_cleanup.
  eapply local_trans; [by apply local_clearTimeout|apply local_off].
Qed.

Lemma streaming_onTimeout_local j env s :
  (∀ h, so_timeoutHandle env = Some h → h = j) →
  local j s (streaming_onTimeout j env s).
Proof.
  intros Hh. unfold streaming_onTimeout.
  eapply local_trans; [by apply streaming_cleanup_local|apply local_set_closure].
Qed.

Lemma outputListener_local j env res now s :
  (∀ h, so_timeoutHandle env = Some h → h = j) →
  local j s (outputListener j env res now s).
Proof.
  intros Hh. unfold outputListener. case_decide; [|apply local_refl].
  destruct (parseOutput _ _ _ _) as [[execution calls] [e|]].
  - eapply local_trans; [by apply streaming_cleanup_local|apply local_set_closure].
  - destruct (error execution); [|apply local_set_closure].
    eapply local_trans; [by apply streaming_cleanup_local|].
    eapply local_trans; [apply local_upd_metricsCollector|apply local_set_closure].
Qed.

Lemma terminal_cleanup_local j env s :
  (∀ h, tm_timeoutHandle env = Some h → h = j) →
  local j s (terminal_cleanup j env s).
Proof.
  intros Hh. unfold terminal_cleanup.
  eapply local_trans; [by apply local_clearTimeout|].
  eapply local_trans; [apply local_removeListener|].
  eapply local_trans; [apply local_removeListener|].
  eapply local_trans; [apply local_off|apply local_off].
Qed.

Lemma terminal_onTimeout_local j env s :
  (∀ h, tm_timeoutHandle env = Some h → h = j) →
  local j s (terminal_onTimeout j env s).
Proof.
  intros Hh. unfold terminal_onTimeout.
  eapply local_trans; [by apply terminal_cleanup_local|apply local_set_closure].
Qed.

Lemma streamListener_local j env res now s :
  local j s (streamListener j env res now s).1.
Proof.
  unfold streamListener. case_decide; [|apply local_refl]. apply local_set_closure.
Qed.

Lemma endListener_local j env res now s :
  (∀ h, tm_timeoutHandle env = Some h → h = j) →
  local j s (endListener j env res now s).
Proof.
  intros Hh. unfold endListener. case_decide; [|apply local_refl].
  eapply local_trans; [by apply terminal_cleanup_local|].
  eapply local_trans; [apply local_upd_metricsCollector|apply local_set_closure].
Qed.

(** Calling a listener touches the call it belongs to, and no other. *)
Lemma invoke_local l msg now s :
  (∀ c h, closures s !! l.2 = Some c → handle_of c = Some h → h = l.2) →
  local l.2 s (invoke l msg now s).1.
Proof.
  intros Hh. unfold invoke.
  destruct (closures s !! l.2) as [[env|env|env|e]|];
    try apply local_refl; pose proof (fun h => Hh _ h eq_refl) as Hh';
    cbn in Hh'; destruct l.1, msg; try apply local_refl.
  - by apply sendJob_listener_local.
  - by apply outputListener_local.
  - apply streamListener_local.
  - by apply endListener_local.
Qed.

Lemma fire_local j s :
  (∀ c h, closures s !! j = Some c → handle_of c = Some h → h = j) →
  local j s (fire j s).
Proof.
  intros Hh. unfold fire.
  destruct (closures s !! j) as [[env|env|env|e]|];
    try apply local_refl; pose proof (fun h => Hh _ h eq_refl) as Hh';
    cbn in Hh'.
  - apply sendJob_onTimeout_local.
  - by apply streaming_onTimeout_local.
  - by apply terminal_onTimeout_local.
Qed.

(** *** The invariant is kept by every step *)

Lemma Forall_sublist_bound (n : nat) (l1 l2 : list Listener) :
  l1 `sublist_of` l2 →
  Forall (fun l => (l.2 < n)%nat) l2 → Forall (fun l => (l.2 < n)%nat) l1.
Proof.
  rewrite !Forall_forall. intros Hsub H l Hl. apply H.
  by eapply elem_of_sublist.
Qed.

Lemma wf_fresh s : fresh s → wf s.
Proof.
  intros (Hc & Ht & Hn & Hl & Hh). split.
  - intros j c. by rewrite Hc, lookup_empty.
  - intros t. rewrite Ht, lookup_empty. by intros [].
  - intros event. unfold handlers_of.
    destruct (socket s) as [sock|]; cbn in *; [|by split; constructor].
    rewrite Hh, lookup_empty. by split; constructor.
Qed.

(** A step of call [j]'s callbacks keeps the invariant when it leaves the
    closure of [j] in order. *)
Lemma wf_local j s s' :
  wf s → local j s s' →
  (∀ c', closures s' !! j = Some c' →
         (j < nextId s)%nat ∧ closure_ok (timers s' !! j) j c') →
  wf s'.
Proof.
  intros [Hc Ht Hh] (Hn & Hf & Hts & Hsub) Hj. split.
  - intros k c' Hk. rewrite Hn. destruct (decide (k = j)) as [->|Hne]; [eauto|].
    destruct (Hf k Hne) as (Hck & Htk & _). rewrite Hck in Hk. rewrite Htk. eauto.
  - intros t Hsome. rewrite Hn. eauto.
  - intros event. rewrite Hn. destruct (Hh event) as [Hnd Hb]. split.
    + by eapply sublist_NoDup.
    + eapply Forall_sublist_bound; [apply Hsub|done].
Qed.

Lemma timers_clearTimeout j handle s :
  (∀ h, handle = Some h → h = j) →
  (handle = None → timers s !! j = None) →
  timers (clearTimeout handle s) !! j = None.
Proof.
  intros Hh Hn. destruct handle as [h|]; [|by apply Hn].
  rewrite (Hh h eq_refl). cbn. apply lookup_delete_eq.
Qed.

Lemma resolve_not_pending {T} (v : T) p : resolve v p ≠ Pending.
Proof. by destruct p. Qed.

Lemma reject_not_pending {T} e (p : Promise T) : reject e p ≠ Pending.
Proof. by destruct p. Qed.

Lemma settle_result_not_pending res p : settle_result res p ≠ Pending.
Proof.
  unfold settle_result.
  destruct (success res), (output res);
    auto using resolve_not_pending, reject_not_pending.
Qed.

Lemma settlement_pending {T} (p : Promise T) :
  settlement_of p = StillPending ↔ p = Pending.
Proof. by destruct p. Qed.

Lemma sendJob_inv_settle_result res env handle :
  sendJob_inv None env →
  sendJob_inv None
    {| sj_jobId := sj_jobId env; sj_timeout := sj_timeout env;
       sj_timeoutHandle := handle;
       sj_promise := settle_result res (sj_promise env) |}.
Proof.
  unfold sendJob_inv, settle_result. cbn.
  destruct (sj_promise env) as [|v|e]; cbn.
  - by destruct (success res), (output res).
  - by destruct (success res), (output res).
  - by destruct (success res), (output res), e.
Qed.

Lemma sendJob_inv_disarm timer env :
  sendJob_inv timer env → sj_promise env ≠ Pending → sendJob_inv None env.
Proof.
  unfold sendJob_inv. destruct (sj_promise env) as [|v|[]]; intuition congruence.
Qed.

Lemma sendJob_listener_wf j env res s :
  wf s → closures s !! j = Some (SendJob env) →
  wf (sendJob_listener j env res s).
Proof.
  intros Hwf Hj. destruct (wf_closures s Hwf j _ Hj) as (Hb & Hh & Hn & Hp & Hinv).
  cbn in *. eapply wf_local; [done|by apply sendJob_listener_local|].
  unfold sendJob_listener. case_decide.
  - cbn. rewrite lookup_insert_eq. intros c' [= <-]. split; [done|].
    assert (Ht : timers (clearTimeout (sj_timeoutHandle env) s) !! j = None)
      by by apply timers_clearTimeout.
    rewrite Ht. repeat split; cbn; try done.
    + intros Hpend%settlement_pending. by apply settle_result_not_pending in Hpend.
    + assert (sj_promise env = Pending ∨ sj_promise env ≠ Pending)
        as [Hpe|Hpe] by (destruct (sj_promise env); auto).
      * unfold sendJob_inv, settle_result. cbn. rewrite Hpe.
        by destruct (success res), (output res).
      * apply sendJob_inv_settle_result. by eapply sendJob_inv_disarm.
  - rewrite Hj. intros c' [= <-]. by repeat split.
Qed.

Lemma outputListener_wf j env res now s :
  wf s → closures s !! j = Some (Streaming env) →
  wf (outputListener j env res now s).
Proof.
  intros Hwf Hj. destruct (wf_closures s Hwf j _ Hj) as (Hb & Hh & Hn & Hp & _).
  cbn in *. eapply wf_local; [done|by apply outputListener_local|].
  assert (Ht : timers (clearTimeout (so_timeoutHandle env) s) !! j = None)
    by by apply timers_clearTimeout.
  unfold outputListener. case_decide.
  - destruct (parseOutput _ _ _ _) as [[execution calls] [e|]].
    + cbn. rewrite lookup_insert_eq. intros c' [= <-]. split; [done|].
      rewrite Ht. repeat split; cbn; try done.
      intros Hpend%settlement_pending. by apply reject_not_pending in Hpend.
    + destruct (error execution).
      * cbn. rewrite lookup_insert_eq. intros c' [= <-]. split; [done|].
        rewrite Ht. repeat split; cbn; try done.
        intros Hpend%settlement_pending. by apply resolve_not_pending in Hpend.
      * cbn. rewrite lookup_insert_eq. intros c' [= <-]. by repeat split.
  - rewrite Hj. intros c' [= <-]. by repeat split.
Qed.

Lemma streamListener_wf j env res now s :
  wf s → closures s !! j = Some (Terminal env) →
  wf (streamListener j env res now s).1.
Proof.
  intros Hwf Hj. destruct (wf_closures s Hwf j _ Hj) as (Hb & Hh & Hn & Hp & _).
  cbn in *. eapply wf_local; [done|by apply streamListener_local|].
  unfold streamListener. case_decide.
  - cbn. rewrite lookup_insert_eq. intros c' [= <-]. by repeat split.
  - cbn. rewrite Hj. intros c' [= <-]. by repeat split.
Qed.

Lemma endListener_wf j env res now s :
  wf s → closures s !! j = Some (Terminal env) →
  wf (endListener j env res now s).
Proof.
  intros Hwf Hj. destruct (wf_closures s Hwf j _ Hj) as (Hb & Hh & Hn & Hp & _).
  cbn in *. eapply wf_local; [done|by apply endListener_local|].
  assert (Ht : timers (clearTimeout (tm_timeoutHandle env) s) !! j = None)
    by by apply timers_clearTimeout.
  unfold endListener. case_decide.
  - cbn. rewrite lookup_insert_eq. intros c' [= <-]. split; [done|].
    rewrite Ht. repeat split; cbn; try done.
    intros Hpend%settlement_pending. by apply resolve_not_pending in Hpend.
  - rewrite Hj. intros c' [= <-]. by repeat split.
Qed.

Lemma invoke_wf l msg now s : wf s → wf (invoke l msg now s).1.
Proof.
  intros Hwf. unfold invoke.
  destruct (closures s !! l.2) as [[env|env|env|e]|] eqn:E; try done;
    destruct l.1, msg; try done.
  - by apply sendJob_listener_wf.
  - by apply outputListener_wf.
  - by apply streamListener_wf.
  - by apply endListener_wf.
Qed.

Lemma deliver_wf ls msg now s : wf s → wf (deliver ls msg now s).
Proof.
  revert s. induction ls as [|l ls IH]; intros s Hwf; [done|]. cbn.
  pose proof (invoke_wf l msg now s Hwf) as Hwf'.
  destruct (invoke l msg now s) as [s' [e|]]; auto.
Qed.

Lemma wf_same s s' :
  closures s' = closures s → timers s' = timers s → nextId s' = nextId s →
  socket s' = socket s → wf s → wf s'.
Proof.
  intros Hc Ht Hn Hs [H1 H2 H3].
  split; unfold handlers_of; rewrite ?Hc, ?Ht, ?Hn, ?Hs.
  - apply H1.
  - apply H2.
  - apply H3.
Qed.

Lemma reject_pending_cases {T} e (p : Promise T) :
  (p = Pending ∧ reject e p = Rejected e) ∨ (p ≠ Pending ∧ reject e p = p).
Proof. destruct p; [left|right|right]; by split. Qed.

Lemma timerFires_wf handle now s : wf s → wf (step (TimerFires handle now) s).
Proof.
  intros Hwf. cbn. destruct (timers s !! handle) as [due|] eqn:Hdue; [|done].
  case_decide; [|done].
  set (s1 := upd_timers (delete handle) s).
  assert (Hgone : timers s1 !! handle = None) by apply lookup_delete_eq.
  assert (Hloc : local handle s (fire handle s1)).
  { eapply local_trans; [apply local_delete_timer|]. apply fire_local.
    intros c h Hc. by apply (wf_closures s Hwf handle c Hc). }
  eapply wf_local; [done|done|].
  unfold fire.
  destruct (closures s1 !! handle) as [[env|env|env|e]|] eqn:Hc;
    change (closures s1) with (closures s) in Hc;
    try destruct (wf_closures s Hwf handle _ Hc) as (Hb & Hh & Hn & Hp & Hinv);
    cbn in *.
  - rewrite lookup_insert_eq. intros c' [= <-]. split; [done|].
    rewrite lookup_delete_eq. repeat split; cbn; try done.
    + intros Hpend%settlement_pending. by apply reject_not_pending in Hpend.
    + destruct (reject_pending_cases (TimeoutError "Job" (sj_timeout env))
                  (sj_promise env)) as [[Hpe Hr]|[Hpe Hr]].
      * unfold sendJob_inv. cbn. by rewrite Hr.
      * unfold sendJob_inv in *. cbn. rewrite Hr.
        destruct (sj_promise env) as [|v|[]]; intuition congruence.
  - rewrite lookup_insert_eq. intros c' [= <-]. split; [done|].
    assert (Ht : timers (clearTimeout (so_timeoutHandle env) s1) !! handle = None)
      by by apply timers_clearTimeout.
    unfold streaming_cleanup. cbn. rewrite Ht. repeat split; cbn; try done.
    intros Hpend%settlement_pending. by apply reject_not_pending in Hpend.
  - rewrite lookup_insert_eq. intros c' [= <-]. split; [done|].
    assert (Ht : timers (clearTimeout (tm_timeoutHandle env) s1) !! handle = None)
      by by apply timers_clearTimeout.
    unfold terminal_cleanup. cbn. rewrite Ht. repeat split; cbn; try done.
    intros Hpend%settlement_pending. by apply reject_not_pending in Hpend.
  - rewrite Hc. intros c' [= <-]. rewrite lookup_delete_eq. by repeat split.
  - by rewrite Hc.
Qed.

(** Calls: the new closure takes the next index. *)
Lemma wf_call c s s1 :
  wf s →
  closures s1 = closures s → nextId s1 = nextId s →
  (∀ k, k ≠ nextId s → timers s1 !! k = timers s !! k) →
  closure_ok (timers s1 !! nextId s) (nextId s) c →
  (∀ event, NoDup (handlers_of s1 event)
            ∧ Forall (fun l => (l.2 < S (nextId s))%nat) (handlers_of s1 event)) →
  wf (alloc c s1).
Proof.
  intros [Hc Ht Hh] Hcs Hn Hts Hok Hhs. split; cbn; rewrite ?Hcs, ?Hn.
  - intros j c'. rewrite lookup_insert. case_decide as Hj.
    + subst j. intros [= <-]. split; [lia|done].
    + intros Hj'. destruct (Hc j c' Hj') as [Hb Hok']. split; [lia|].
      by rewrite Hts.
  - intros t Hsome. destruct (decide (t = nextId s)) as [->|Hne]; [lia|].
    rewrite Hts in Hsome by done. apply Ht in Hsome. lia.
  - done.
Qed.

Lemma handlers_snoc_ok (n : nat) (ls : list Listener) (l : Listener) :
  NoDup ls ∧ Forall (fun l => (l.2 < n)%nat) ls → l.2 = n →
  NoDup (ls ++ [l]) ∧ Forall (fun l => (l.2 < S n)%nat) (ls ++ [l]).
Proof.
  intros [Hnd Hb] Hl. split.
  - apply NoDup_app. split; [done|]. split; [|apply NoDup_singleton].
    intros x Hx ->%list_elem_of_singleton.
    rewrite Forall_forall in Hb. apply Hb in Hx. lia.
  - apply Forall_app. split; [|constructor; [lia|constructor]].
    eapply Forall_impl; [done|]. cbn. lia.
Qed.

Lemma handlers_weaken_ok (n : nat) (ls : list Listener) :
  NoDup ls ∧ Forall (fun l => (l.2 < n)%nat) ls →
  NoDup ls ∧ Forall (fun l => (l.2 < S n)%nat) ls.
Proof.
  intros [Hnd Hb]. split; [done|]. eapply Forall_impl; [done|]. cbn. lia.
Qed.

Lemma closure_ok_failed timer j e : timer = None → closure_ok timer j (Failed e).
Proof. by repeat split. Qed.

Lemma wf_failed e s : wf s → wf (alloc (Failed e) s).
Proof.
  intros Hwf. apply (wf_call _ s); try done.
  - apply closure_ok_failed.
    destruct (timers s !! nextId s) eqn:E; [|done].
    assert (nextId s < nextId s)%nat; [|lia].
    apply (wf_timers s Hwf). by rewrite E.
  - intros event. apply handlers_weaken_ok, (wf_handlers s Hwf).
Qed.

Lemma closure_ok_new j due c :
  handle_of c = Some j →
  match c with SendJob env => sj_promise env = Pending | _ => True end →
  closure_ok (Some due) j c.
Proof.
  intros Hh Hp. repeat split; try congruence.
  destruct c as [env| | |]; try done. unfold sendJob_inv. by rewrite Hp.
Qed.

Lemma sendJob_wf event payload timeoutMs uuid now s :
  wf s → wf (sendJob event payload timeoutMs uuid now s).
Proof.
  intros Hwf. unfold sendJob.
  destruct (socket s) as [sock|] eqn:Hs; [|by apply wf_failed].
  apply (wf_call _ s); try done.
  - intros k Hk. cbn. by rewrite lookup_insert_ne.
  - cbn. rewrite lookup_insert_eq. by apply closure_ok_new.
  - intros event'. rewrite handlers_of_emit, handlers_of_on by (cbn; rewrite Hs; eauto).
    change (handlers_of (trackListener _ _ _)) with (handlers_of s).
    case_decide; subst.
    + apply handlers_snoc_ok; [apply (wf_handlers s Hwf)|done].
    + apply handlers_weaken_ok, (wf_handlers s Hwf).
Qed.

Lemma sendStreamingJob_wf event payload execution metadata opts uuid now s :
  wf s → wf (sendStreamingJob event payload execution metadata opts uuid now s).
Proof.
  intros Hwf. unfold sendStreamingJob.
  destruct (socket s) as [sock|] eqn:Hs; [|by apply wf_failed].
  apply (wf_call _ s); try done.
  - intros k Hk. cbn. by rewrite lookup_insert_ne.
  - cbn. rewrite lookup_insert_eq. by apply closure_ok_new.
  - intros event'. rewrite handlers_of_emit, handlers_of_on by (cbn; rewrite Hs; eauto).
    change (handlers_of (trackListener _ _ _)) with (handlers_of s).
    case_decide; subst.
    + apply handlers_snoc_ok; [apply (wf_handlers s Hwf)|done].
    + apply handlers_weaken_ok, (wf_handlers s Hwf).
Qed.

Lemma checkRateLimit_same now s :
  let s1 := (checkRateLimit now s).1 in
  closures s1 = closures s ∧ timers s1 = timers s ∧ nextId s1 = nextId s
  ∧ socket s1 = socket s ∧ listeners s1 = listeners s.
Proof.
  unfold checkRateLimit.
  destruct (RateLimiter.canMakeRequest now (rateLimiter s)) as [[] limiter];
    by repeat split.
Qed.

Lemma runTerminal_wf sandbox command opts uuid now s :
  wf s → wf (runTerminal sandbox command opts uuid now s).
Proof.
  intros Hwf. unfold runTerminal. destruct (isReady s); [|done].
  pose proof (checkRateLimit_same now s) as (Hc & Ht & Hn & Hs & _).
  destruct (checkRateLimit now s) as [s1 limited]. cbn in *.
  assert (Hwf1 : wf s1) by by eapply wf_same.
  destruct limited as [e|]; [by apply wf_failed|].
  case_decide; [|by apply wf_failed].
  destruct (socket s1) as [sock|] eqn:Hs1; [|by apply wf_failed].
  apply (wf_call _ s1); try done.
  - intros k Hk. cbn. by rewrite lookup_insert_ne.
  - cbn. rewrite lookup_insert_eq. by apply closure_ok_new.
  - intros event'. rewrite handlers_of_emit.
    rewrite !handlers_of_on by (cbn; rewrite Hs1; eauto).
    change (handlers_of (trackListener _ _ _)) with (handlers_of s1).
    repeat case_decide; subst; try done.
    + apply handlers_snoc_ok; [apply (wf_handlers s1 Hwf1)|done].
    + apply handlers_snoc_ok; [apply (wf_handlers s1 Hwf1)|done].
    + apply handlers_weaken_ok, (wf_handlers s1 Hwf1).
Qed.

Lemma handlers_off ev l sock event :
  default [] (handlers (off ev l sock) !! event)
  = if decide (event = ev) then remove_first l (default [] (handlers sock !! ev))
    else default [] (handlers sock !! event).
Proof.
  pose proof (handlers_of_off ev l
    (mkSdk (Some sock) false 0 ∅ ∅ MetricsCollector.new
       (RateLimiter.new None) ∅ ∅ 0) event) as H.
  exact H.
Qed.

Lemma foldr_off_sublist ev ls sock event :
  default [] (handlers (foldr (off ev) sock ls) !! event)
  `sublist_of` default [] (handlers sock !! event).
Proof.
  induction ls as [|l ls IH]; [done|].
  change (foldr (off ev) sock (l :: ls)) with (off ev l (foldr (off ev) sock ls)).
  rewrite handlers_off.
  case_decide; subst; [|done]. etrans; [apply remove_first_sublist|done].
Qed.

Lemma detach_sublist (items : list (string * gset Listener)) sock event :
  default []
    (handlers (foldr (fun '(ev, ls) sk => foldr (off ev) sk (elements ls))
                 sock items) !! event)
  `sublist_of` default [] (handlers sock !! event).
Proof.
  induction items as [|[ev ls] items IH]; [done|].
  rewrite foldr_cons. etrans; [apply foldr_off_sublist|done].
Qed.

Lemma cleanupAllListeners_wf s : wf s → wf (cleanupAllListeners s).
Proof.
  intros [Hc Ht Hh]. split; [done|done|].
  intros event. destruct (Hh event) as [Hnd Hb].
  assert (Hsub : handlers_of (cleanupAllListeners s) event
                 `sublist_of` handlers_of s event).
  { unfold handlers_of, cleanupAllListeners. cbn.
    destruct (socket s) as [sock|]; [|done]. cbn. apply detach_sublist. }
  split; [by eapply sublist_NoDup|by eapply Forall_sublist_bound].
Qed.

Theorem wf_step ev s : wf s → wf (step ev s).
Proof.
  intros Hwf. destruct ev.
  - by apply sendJob_wf.
  - by apply sendStreamingJob_wf.
  - by apply runTerminal_wf.
  - by apply timerFires_wf.
  - cbn. destruct (socket s); [by apply deliver_wf|done].
  - by apply (wf_same s).
  - apply cleanupAllListeners_wf. by apply (wf_same s).
Qed.

Lemma run_snoc tr ev s : run (tr ++ [ev]) s = step ev (run tr s).
Proof. unfold run. by rewrite fold_left_app. Qed.

Lemma run_app tr tr' s : run (tr ++ tr') s = run tr' (run tr s).
Proof. unfold run. by rewrite fold_left_app. Qed.

Theorem wf_run tr s : wf s → wf (run tr s).
Proof.
  revert s. induction tr as [|ev tr IH]; intros s Hwf; [done|].
  cbn. by apply IH, wf_step.
Qed.

(** *** A settled promise stays as it is *)

Lemma resolve_settled {T} (v : T) p : p ≠ Pending → resolve v p = p.
Proof. by destruct p. Qed.

Lemma reject_settled {T} e (p : Promise T) : p ≠ Pending → reject e p = p.
Proof. by destruct p. Qed.

Lemma settle_result_settled res p : p ≠ Pending → settle_result res p = p.
Proof.
  intros Hp. unfold settle_result.
  destruct (success res), (output res);
    auto using resolve_settled, reject_settled.
Qed.

Lemma settlement_settled {T} (p : Promise T) :
  settlement_of p ≠ StillPending → p ≠ Pending.
Proof. by destruct p. Qed.

Lemma evolves_refl c : evolves c c.
Proof. by destruct c. Qed.

Lemma evolves_trans c1 c2 c3 : evolves c1 c2 → evolves c2 c3 → evolves c1 c3.
Proof.
  intros (Hid & Hs & Hk) (Hid' & Hs' & Hk').
  split; [congruence|]. split.
  - intros Hne. rewrite Hs', Hs; [done|done|]. by rewrite Hs.
  - destruct c1 as [e1|e1|e1|e1], c2 as [e2|e2|e2|e2]; try done;
      destruct c3 as [e3|e3|e3|e3]; try done; cbn in *.
    + destruct Hk as [Ht Hp], Hk' as [Ht' Hp']. split; [congruence|].
      intros Hne. rewrite Hp', Hp; [done|done|]. by rewrite Hp.
    + destruct Hk as [Ht Hp], Hk' as [Ht' Hp']. split; [congruence|].
      intros Hne. rewrite Hp', Hp; [done|done|]. by rewrite Hp.
    + intros Hne. rewrite Hk', Hk; [done|done|]. by rewrite Hk.
    + congruence.
Qed.

Lemma sendJob_listener_evolves j env res s :
  closures s !! j = Some (SendJob env) →
  ∃ c', closures (sendJob_listener j env res s) !! j = Some c'
        ∧ evolves (SendJob env) c'.
Proof.
  intros Hj. unfold sendJob_listener.
  case_decide; [|eauto using evolves_refl].
  cbn. rewrite lookup_insert_eq. eexists. split; [done|].
  repeat split; cbn; try done.
  - intros Hne%settlement_settled. by rewrite settle_result_settled.
  - apply settle_result_settled.
Qed.

Lemma sendJob_onTimeout_evolves j env s :
  ∃ c', closures (sendJob_onTimeout j env s) !! j = Some c'
        ∧ evolves (SendJob env) c'.
Proof.
  unfold sendJob_onTimeout. cbn. rewrite lookup_insert_eq.
  eexists. split; [done|]. repeat split; cbn; try done.
  - intros Hne%settlement_settled. by rewrite reject_settled.
  - apply reject_settled.
Qed.

Lemma streaming_onTimeout_evolves j env s :
  ∃ c', closures (streaming_onTimeout j env s) !! j = Some c'
        ∧ evolves (Streaming env) c'.
Proof.
  unfold streaming_onTimeout. cbn. rewrite lookup_insert_eq.
  eexists. split; [done|]. repeat split; cbn; try done.
  - intros Hne%settlement_settled. by rewrite reject_settled.
  - apply reject_settled.
Qed.

Lemma terminal_onTimeout_evolves j env s :
  ∃ c', closures (terminal_onTimeout j env s) !! j = Some c'
        ∧ evolves (Terminal env) c'.
Proof.
  unfold terminal_onTimeout. cbn. rewrite lookup_insert_eq.
  eexists. split; [done|]. repeat split; cbn; try done.
  - intros Hne%settlement_settled. by rewrite reject_settled.
  - apply reject_settled.
Qed.

Lemma outputListener_evolves j env res now s :
  closures s !! j = Some (Streaming env) →
  ∃ c', closures (outputListener j env res now s) !! j = Some c'
        ∧ evolves (Streaming env) c'.
Proof.
  intros Hj. unfold outputListener.
  case_decide; [|eauto using evolves_refl].
  destruct (parseOutput _ _ _ _) as [[execution calls] [e|]];
    [|destruct (error execution)]; cbn; rewrite lookup_insert_eq;
    (eexists; split; [done|]); repeat split; cbn; try done.
  - intros Hne%settlement_settled. by rewrite reject_settled.
  - apply reject_settled.
  - intros Hne%settlement_settled. by rewrite resolve_settled.
  - apply resolve_settled.
Qed.

Lemma streamListener_evolves j env res now s :
  closures s !! j = Some (Terminal env) →
  ∃ c', closures (streamListener j env res now s).1 !! j = Some c'
        ∧ evolves (Terminal env) c'.
Proof.
  intros Hj. unfold streamListener.
  case_decide; [|eauto using evolves_refl].
  cbn. rewrite lookup_insert_eq. eexists. by split.
Qed.

Lemma endListener_evolves j env res now s :
  closures s !! j = Some (Terminal env) →
  ∃ c', closures (endListener j env res now s) !! j = Some c'
        ∧ evolves (Terminal env) c'.
Proof.
  intros Hj. unfold endListener.
  case_decide; [|eauto using evolves_refl].
  cbn. rewrite lookup_insert_eq. eexists. split; [done|].
  repeat split; cbn; try done.
  - intros Hne%settlement_settled. by rewrite resolve_settled.
  - apply resolve_settled.
Qed.

Lemma wf_handle s j c h :
  wf s → closures s !! j = Some c → handle_of c = Some h → h = j.
Proof. intros Hwf Hc. by apply (wf_closures s Hwf j c Hc). Qed.

Lemma invoke_evolves l msg now s j c :
  wf s → closures s !! j = Some c →
  ∃ c', closures (invoke l msg now s).1 !! j = Some c' ∧ evolves c c'.
Proof.
  intros Hwf Hj. destruct (decide (l.2 = j)) as [<-|Hne].
  - unfold invoke. rewrite Hj.
    destruct c as [env|env|env|e], l.1, msg;
      eauto using evolves_refl, sendJob_listener_evolves,
        outputListener_evolves, streamListener_evolves, endListener_evolves.
  - pose proof (invoke_local l msg now s) as (_ & Hf & _).
    { intros c0 h. by apply wf_handle. }
    destruct (Hf j) as [Hc _]; [done|]. rewrite Hc.
    eauto using evolves_refl.
Qed.

Lemma deliver_evolves ls msg now s j c :
  wf s → closures s !! j = Some c →
  ∃ c', closures (deliver ls msg now s) !! j = Some c' ∧ evolves c c'.
Proof.
  revert s c. induction ls as [|l ls IH]; intros s c Hwf Hj;
    [eauto using evolves_refl|]. cbn.
  destruct (invoke_evolves l msg now s j c Hwf Hj) as (c1 & Hc1 & He1).
  pose proof (invoke_wf l msg now s Hwf) as Hwf1.
  destruct (invoke l msg now s) as [s1 [e|]]; cbn in *; [eauto|].
  destruct (IH s1 c1 Hwf1 Hc1) as (c2 & Hc2 & He2).
  eauto using evolves_trans.
Qed.

(** A call leaves the closures of the earlier calls alone. *)
Lemma call_closures ev s j :
  wf s → (j < nextId s)%nat →
  match ev with
  | CallSendJob _ _ _ _ _ | CallSendStreamingJob _ _ _ _ _ _ _
  | CallRunTerminal _ _ _ _ _ => closures (step ev s) !! j = closures s !! j
  | _ => True
  end.
Proof.
  intros Hwf Hj. destruct ev; try done; cbn.
  - unfold sendJob. destruct (socket s); cbn; rewrite lookup_insert_ne; done || lia.
  - unfold sendStreamingJob.
    destruct (socket s); cbn; rewrite lookup_insert_ne; done || lia.
  - unfold runTerminal. destruct (isReady s); [|done].
    pose proof (checkRateLimit_same now s) as (Hc & _ & Hn & _).
    destruct (checkRateLimit now s) as [s1 limited]. cbn in *.
    rewrite <- Hc, <- Hn in *.
    destruct limited; [cbn; rewrite lookup_insert_ne; done || lia|].
    case_decide; [|cbn; rewrite lookup_insert_ne; done || lia].
    destruct (socket s1); cbn; rewrite lookup_insert_ne; done || lia.
Qed.

Lemma step_evolves ev s j c :
  wf s → closures s !! j = Some c →
  ∃ c', closures (step ev s) !! j = Some c' ∧ evolves c c'.
Proof.
  intros Hwf Hj.
  assert (Hb : (j < nextId s)%nat) by by apply (wf_closures s Hwf j c Hj).
  pose proof (call_closures ev s j Hwf Hb) as Hcall.
  destruct ev; try (rewrite Hcall; eauto using evolves_refl).
  - cbn. destruct (timers s !! handle) as [due|]; [|eauto using evolves_refl].
    case_decide; [|eauto using evolves_refl].
    set (s1 := upd_timers (delete handle) s).
    destruct (decide (handle = j)) as [->|Hne].
    + unfold fire. change (closures s1) with (closures s). rewrite Hj.
      destruct c; eauto using evolves_refl, sendJob_onTimeout_evolves,
        streaming_onTimeout_evolves, terminal_onTimeout_evolves.
    + assert (Hloc : local handle s (fire handle s1)).
      { eapply local_trans; [apply local_delete_timer|]. apply fire_local.
        intros c0 h. by apply (wf_handle s). }
      destruct Hloc as (_ & Hf & _). destruct (Hf j) as [Hc _]; [done|].
      rewrite Hc. eauto using evolves_refl.
  - cbn. destruct (socket s); [by apply deliver_evolves|eauto using evolves_refl].
  - eauto using evolves_refl.
  - eauto using evolves_refl.
Qed.

Lemma run_evolves tr s j c :
  wf s → closures s !! j = Some c →
  ∃ c', closures (run tr s) !! j = Some c' ∧ evolves c c'.
Proof.
  revert s c. induction tr as [|ev tr IH]; intros s c Hwf Hj;
    [eauto using evolves_refl|]. cbn.
  destruct (step_evolves ev s j c Hwf Hj) as (c1 & Hc1 & He1).
  destruct (IH (step ev s) c1 (wf_step ev s Hwf) Hc1) as (c2 & Hc2 & He2).
  eauto using evolves_trans.
Qed.

(** *** Delivering a message *)

Lemma invoke_other_role role j msg now s :
  role ≠ role_of msg → invoke (role, j) msg now s = (s, None).
Proof.
  intros Hr. unfold invoke. cbn.
  by destruct (closures s !! j) as [[env|env|env|e]|], role, msg.
Qed.

(** A listener called with a message that carries another job id returns
    at once. *)
Lemma invoke_mismatch l msg now s :
  (∀ c, closures s !! l.2 = Some c →
        jobId_of_closure c ≠ Some (jobId_of msg)) →
  invoke l msg now s = (s, None).
Proof.
  intros Hid. unfold invoke.
  destruct (closures s !! l.2) as [[env|env|env|e]|]; try done;
    specialize (Hid _ eq_refl); cbn in Hid; destruct l.1, msg; try done; cbn in *.
  - unfold sendJob_listener. case_decide; [congruence|done].
  - unfold outputListener. case_decide; [congruence|done].
  - unfold streamListener. case_decide as H; [destruct H; congruence|done].
  - unfold endListener. case_decide; [congruence|done].
Qed.

Lemma invoke_no_throw l msg now s :
  role_of msg ≠ StreamListener → (invoke l msg now s).2 = None.
Proof.
  intros Hm. unfold invoke.
  by destruct (closures s !! l.2) as [[env|env|env|e]|], l.1, msg.
Qed.

Lemma invoke_frame l msg now s j :
  wf s → l.2 ≠ j → frame j s (invoke l msg now s).1.
Proof.
  intros Hwf Hne. pose proof (invoke_local l msg now s) as (_ & Hf & _).
  { intros c h. by apply wf_handle. }
  by apply Hf.
Qed.

(** Correlation-id isolation, for one round of delivery. *)
Lemma deliver_frame ls msg now s a c :
  wf s → closures s !! a = Some c →
  jobId_of_closure c ≠ Some (jobId_of msg) →
  frame a s (deliver ls msg now s).
Proof.
  revert s. induction ls as [|l ls IH]; intros s Hwf Ha Hid; [apply frame_refl|].
  cbn. destruct (decide (l.2 = a)) as [Hl|Hl].
  - rewrite invoke_mismatch; [by apply IH|].
    rewrite Hl, Ha. by intros c' [= <-].
  - pose proof (invoke_frame l msg now s a Hwf Hl) as Hf.
    pose proof (invoke_wf l msg now s Hwf) as Hwf'.
    destruct (invoke l msg now s) as [s' [e|]]; cbn in *; [done|].
    eapply frame_trans; [done|]. apply IH; [done| |done].
    destruct Hf as [-> _]. done.
Qed.

(** Delivery to a list of handlers none of which is the one of call [j]
    that reacts to the message. *)
Lemma deliver_frame_others ls msg now s j :
  wf s → (role_of msg, j) ∉ ls → frame j s (deliver ls msg now s).
Proof.
  revert s. induction ls as [|l ls IH]; intros s Hwf Hnot; [apply frame_refl|].
  apply not_elem_of_cons in Hnot as [Hl Hnot]. cbn.
  destruct (decide (l.2 = j)) as [Hj|Hj].
  - destruct l as [role k]. cbn in Hj. subst k.
    rewrite invoke_other_role by congruence. by apply IH.
  - pose proof (invoke_frame l msg now s j Hwf Hj) as Hf.
    pose proof (invoke_wf l msg now s Hwf) as Hwf'.
    destruct (invoke l msg now s) as [s' [e|]]; cbn in *; [done|].
    eapply frame_trans; [done|]. by apply IH.
Qed.

(** When the handler of call [j] is among those the event reaches, the
    round amounts, for everything that belongs to [j], to calling that
    handler in a state that agrees with the initial one on [j]. *)
Lemma deliver_split ls msg now s j :
  wf s → NoDup ls → (role_of msg, j) ∈ ls → role_of msg ≠ StreamListener →
  ∃ s_pre, wf s_pre ∧ frame j s s_pre
           ∧ frame j (invoke (role_of msg, j) msg now s_pre).1
               (deliver ls msg now s).
Proof.
  intros Hwf Hnd Hin Hm. revert s Hwf.
  induction Hnd as [|l ls Hl Hnd IH]; intros s Hwf; [by apply elem_of_nil in Hin|].
  cbn. pose proof (invoke_no_throw l msg now s Hm) as Hno.
  pose proof (invoke_wf l msg now s Hwf) as Hwf'.
  destruct (decide (l = (role_of msg, j))) as [->|Hne].
  - exists s. split; [done|]. split; [apply frame_refl|].
    destruct (invoke (role_of msg, j) msg now s) as [s' o]; cbn in *; subst o.
    by apply deliver_frame_others.
  - apply elem_of_cons in Hin as [Hin|Hin]; [congruence|].
    assert (Hf : frame j s (invoke l msg now s).1).
    { destruct (decide (l.2 = j)) as [Hj|Hj]; [|by apply invoke_frame].
      destruct l as [role k]. cbn in Hj. subst k.
      rewrite invoke_other_role by congruence. apply frame_refl. }
    destruct (invoke l msg now s) as [s' o]; cbn in *; subst o.
    destruct (IH Hin s' Hwf') as (s_pre & Hwfp & Hfp & Hfinal).
    exists s_pre. split; [done|]. split; [|done]. by eapply frame_trans.
Qed.

Lemma deliver_others_unique ls msg now s j :
  sole_bearer j msg s → (role_of msg, j) ∉ ls → deliver ls msg now s = s.
Proof.
  intros Huniq. induction ls as [|l ls IH]; [done|].
  intros [Hl Hnot]%not_elem_of_cons. cbn.
  destruct (decide (l.2 = j)) as [Hj|Hj].
  - destruct l as [role k]. cbn in Hj. subst k.
    rewrite invoke_other_role by congruence. by apply IH.
  - rewrite invoke_mismatch; [by apply IH|]. intros c. by apply Huniq.
Qed.

(** When no other call bears the job id of the message, the round is the
    call of that one handler. *)
Lemma deliver_unique ls msg now s j :
  wf s → NoDup ls → sole_bearer j msg s →
  deliver ls msg now s
  = if decide ((role_of msg, j) ∈ ls)
    then (invoke (role_of msg, j) msg now s).1 else s.
Proof.
  intros Hwf Hnd Huniq. induction Hnd as [|l ls Hl Hnd IH]; [done|].
  destruct (decide (l = (role_of msg, j))) as [->|Hne].
  - rewrite decide_True by (apply elem_of_cons; by left). cbn.
    assert (Huniq' : sole_bearer j msg (invoke (role_of msg, j) msg now s).1).
    { intros k c Hk. destruct (invoke_frame (role_of msg, j) msg now s k Hwf)
        as [-> _]; [by cbn|]. by apply Huniq. }
    destruct (invoke (role_of msg, j) msg now s) as [s' [e|]]; [done|].
    by apply deliver_others_unique with j.
  - cbn. assert (Hinv : invoke l msg now s = (s, None)).
    { destruct (decide (l.2 = j)) as [Hj|Hj].
      - destruct l as [role k]. cbn in Hj. subst k.
        apply invoke_other_role. congruence.
      - apply invoke_mismatch. intros c. by apply Huniq. }
    rewrite Hinv, IH. repeat case_decide; try done.
    + exfalso. apply H0. by right.
    + apply elem_of_cons in H0 as [|]; [congruence|done].
Qed.

Lemma wf_reachable s0 tr : fresh s0 → wf (run tr s0).
Proof. intros Hf. by apply wf_run, wf_fresh. Qed.

Lemma handlers_of_step_incoming msg now s :
  step (Incoming msg now) s = deliver (handlers_of s (event_of msg)) msg now s.
Proof.
  cbn. unfold handlers_of. by destruct (socket s) as [sock|].
Qed.

(** *** sendJob *)

(** The effect of the result listener of call [j] on what belongs to [j]. *)
Lemma sendJob_listener_own j env res s :
  closures s !! j = Some (SendJob env) →
  jr_jobId res = sj_jobId env →
  sj_timeoutHandle env = Some j →
  let s' := (invoke (ResultListener, j) (JobResult res) 0 s).1 in
  closures s' !! j
  = Some (SendJob {| sj_jobId := sj_jobId env; sj_timeout := sj_timeout env;
                     sj_timeoutHandle := None;
                     sj_promise := settle_result res (sj_promise env) |})
  ∧ timers s' !! j = None.
Proof.
  intros Hj Hid Hh. unfold invoke. cbn. rewrite Hj. cbn.
  unfold sendJob_listener. rewrite decide_True by done. cbn.
  rewrite lookup_insert_eq, Hh. cbn. by rewrite lookup_delete_eq.
Qed.

(** A job issued by sendJob settles at most once.  In every reachable
    state its promise is pending, resolved with an output, rejected with a
    Sandbox error or rejected with the Timeout error; whatever happens next,
    a settled promise keeps its state; while it is pending the timer is
    armed, and either path settles it: the timer, once due, rejects with
    Timeout, and a result message with the job's id, reaching the attached
    listener, resolves or rejects as the message says and disarms the timer;
    once the result path has fired the timer event does nothing at all. *)
Theorem sendJob_settles_exactly_once :
  ∀ (s0 : Sdk) (tr : list Event) (j : nat) (env : SendJobEnv),
    fresh s0 →
    closures (run tr s0) !! j = Some (SendJob env) →
    let s := run tr s0 in
    (sj_promise env = Pending
     ∨ (∃ out, sj_promise env = Fulfilled out)
     ∨ (∃ message, sj_promise env = Rejected (SandboxError message))
     ∨ sj_promise env = Rejected (TimeoutError "Job" (sj_timeout env)))
    ∧ (∀ tr', ∃ env',
         closures (run tr' s) !! j = Some (SendJob env')
         ∧ sj_jobId env' = sj_jobId env
         ∧ (sj_promise env ≠ Pending → sj_promise env' = sj_promise env))
    ∧ (sj_promise env = Pending →
       ∃ due, timers s !! j = Some due
         ∧ ∀ now, due <= now → ∃ env',
             closures (step (TimerFires j now) s) !! j = Some (SendJob env')
             ∧ sj_promise env'
               = Rejected (TimeoutError "Job" (sj_timeout env)))
    ∧ (sj_promise env = Pending →
       ∀ res now,
         jr_jobId res = sj_jobId env →
         (ResultListener, j) ∈ handlers_of s RESULT →
         ∃ env',
           closures (step (Incoming (JobResult res) now) s) !! j
           = Some (SendJob env')
           ∧ sj_promise env' = settle_result res Pending
           ∧ sj_promise env' ≠ Pending
           ∧ timers (step (Incoming (JobResult res) now) s) !! j = None)
    ∧ ((∃ out, sj_promise env = Fulfilled out)
       ∨ (∃ message, sj_promise env = Rejected (SandboxError message)) →
       ∀ now, step (TimerFires j now) s = s).
Proof.
  intros s0 tr j env Hfresh Hj s.
  pose proof (wf_reachable s0 tr Hfresh) as Hwf. fold s in Hwf, Hj.
  destruct (wf_closures s Hwf j _ Hj) as (Hb & Hh & Hn & Hp & Hinv).
  cbn in Hh, Hn, Hp, Hinv. unfold sendJob_inv in Hinv.
  split; [|split; [|split; [|split]]].
  - destruct (sj_promise env) as [|out|[]]; try done; eauto.
    destruct Hinv as (-> & -> & _). auto.
  - intros tr'. destruct (run_evolves tr' s j _ Hwf Hj) as (c' & Hc' & Hid & _ & He).
    destruct c' as [env'| | |]; try done. destruct He as [_ He].
    exists env'. cbn in Hid. split; [done|]. split; [congruence|done].
  - intros Hpend. rewrite Hpend in Hinv. destruct Hinv as [due Hdue].
    exists due. split; [done|]. intros now Hnow. cbn.
    rewrite Hdue, decide_True by done. unfold fire. cbn. rewrite Hj.
    unfold sendJob_onTimeout. cbn. rewrite lookup_insert_eq, Hpend.
    by eexists.
  - intros Hpend res now Hid Hin.
    rewrite handlers_of_step_incoming.
    destruct (deliver_split (handlers_of s RESULT) (JobResult res) now s j)
      as (s_pre & Hwfp & Hfp & Hfinal); try done.
    { apply (wf_handlers s Hwf). }
    destruct Hfp as (Hcp & _). rewrite Hj in Hcp.
    destruct (sendJob_listener_own j env res s_pre) as [Hc' Ht']; try done.
    { apply Hp. by rewrite Hpend. }
    destruct Hfinal as (Hcf & Htf & _). cbn in Hcf, Htf.
    unfold invoke in *. cbn in *. rewrite Hcp in *. cbn in *.
    eexists. rewrite Hcf, Htf. split; [exact Hc'|]. cbn.
    rewrite Hpend. split; [done|]. split; [apply settle_result_not_pending|done].
  - intros Hres now. cbn.
    assert (Ht : timers s !! j = None)
      by (destruct Hres as [[out Hr]|[m Hr]]; by rewrite Hr in Hinv).
    by rewrite Ht.
Qed.

(** A job that is answered in time; later its deadline passes and a second,
    failing, answer with the same id arrives. *)
Lemma sendJob_settles_exactly_once_witness :
  let s0 := new None in
  let res := {| jr_jobId := "J"; success := true; output := VStr "done";
                jr_error := None |} in
  let again := {| jr_jobId := "J"; success := false; output := VUndefined;
                  jr_error := Some "failed"%string |} in
  let tr := [CallSendJob "sandbox:status" VNull (Some 1000) "J" 0;
             Incoming (JobResult res) 10] in
  let tr' := [TimerFires 0 1000; Incoming (JobResult again) 2000] in
  ∃ env',
    closures (run tr' (run tr s0)) !! 0%nat = Some (SendJob env')
    ∧ sj_jobId env' = "J"%string
    ∧ sj_promise env' = Fulfilled (VStr "done").
Proof.
  intros s0 res again tr tr'.
  assert (Hfresh : fresh s0) by (repeat split; reflexivity).
  destruct (sendJob_settles_exactly_once s0 tr 0
              {| sj_jobId := "J"; sj_timeout := 1000; sj_timeoutHandle := None;
                 sj_promise := Fulfilled (VStr "done") |} Hfresh)
    as (_ & Hstable & _); [vm_compute; reflexivity|].
  destruct (Hstable tr') as (env' & Hc & Hid & Hp).
  exists env'. split; [exact Hc|]. split; [exact Hid|]. by apply Hp.
Defined.

(** *** Isolation of concurrent jobs *)

(** C3.  In every reachable state, a message that carries another job's
    correlation id leaves a job alone: each of its listeners, called with
    the message, returns without any effect, and after the message has been
    delivered to all handlers the job's closure (its promise included), its
    timer, and the attachment and tracking of its listeners are what they
    were. *)
Theorem correlation_id_isolation :
  ∀ (s0 : Sdk) (tr : list Event) (a : nat) (c : Closure)
    (msg : Message) (now : Z),
    fresh s0 →
    closures (run tr s0) !! a = Some c →
    jobId_of_closure c ≠ Some (jobId_of msg) →
    let s := run tr s0 in
    (∀ role, invoke (role, a) msg now s = (s, None))
    ∧ frame a s (step (Incoming msg now) s).
Proof.
  intros s0 tr a c msg now Hfresh Ha Hid s.
  pose proof (wf_reachable s0 tr Hfresh) as Hwf. fold s in Hwf, Ha. split.
  - intros role. apply invoke_mismatch. cbn. rewrite Ha. by intros c' [= <-].
  - rewrite handlers_of_step_incoming. by eapply deliver_frame.
Qed.

(** A run of C3: jobs A and B pending, a result for B. *)
Lemma correlation_id_isolation_witness :
  let tr := [CallSendJob "sandbox:status" VNull None "A" 0;
             CallSendJob "sandbox:delete" VNull None "B" 1] in
  let res := {| jr_jobId := "B"; success := true; output := VNull;
                jr_error := None |} in
  let s := run tr (new None) in
  frame 0 s (step (Incoming (JobResult res) 5) s).
Proof.
  intros tr res s.
  refine (proj2 (correlation_id_isolation (new None) tr 0
    (SendJob {| sj_jobId := "A"; sj_timeout := 60000;
                sj_timeoutHandle := Some 0%nat; sj_promise := Pending |})
    (JobResult res) 5 _ _ _)).
  - repeat split; reflexivity.
  - vm_compute. reflexivity.
  - cbn. intros [=].
Defined.

(** *** Streaming jobs *)


(** C10.  A chunk whose line decodes to an object with a [type] that is
    none of the five recognised ones leaves the execution untouched, calls no
    callback and raises nothing. *)
Theorem parseOutput_ignores_unknown_type :
  ∀ (execution : Execution) (fs : list (string * Value))
    (opts : option RunCodeOptions) (now : Z),
    field "type" fs ∉ [VStr "result"; VStr "stdout"; VStr "stderr";
                       VStr "error"; VStr "execution_count"] →
    parseOutput execution (Some (VObj fs)) opts now = (execution, [], None).
Proof.
  intros execution fs opts now Hty. unfold parseOutput. cbn.
  destruct (field "type" fs) as [| | | |ty| |]; try done.
  repeat case_decide; subst; try done; exfalso; apply Hty;
    repeat (apply elem_of_cons; (by left) || right).
Qed.

(** A run of C10: a chunk of type [display_data], with every callback set
    to throw. *)
Lemma parseOutput_ignores_unknown_type_witness :
  let boom := Thrown (VStr "boom") in
  let opts := {| onStdout := Some (fun _ => Throws boom);
                 onStderr := Some (fun _ => Throws boom);
                 onResult := Some (fun _ => Throws boom);
                 onError := Some (fun _ => Throws boom); timeoutMs := None |} in
  parseOutput new_Execution
    (Some (VObj [("type", VStr "display_data"); ("text", VStr "x")]%string))
    (Some opts) 7
  = (new_Execution, [], None).
Proof.
  intros boom opts. apply parseOutput_ignores_unknown_type.
  vm_compute. intros H.
  repeat (apply elem_of_cons in H as [H|H]; [discriminate H|]).
  by apply elem_of_nil in H.
Defined.









(** *** Terminal jobs *)

Lemma string_app_assoc (a b c : string) :
  ((a ++ b) ++ c = a ++ (b ++ c))%string.
Proof.
  induction a as [|x a IH]; [done|].
  change (String x ((a ++ b) ++ c) = String x (a ++ (b ++ c)))%string.
  by rewrite IH.
Qed.

Lemma string_app_empty_r (a : string) : (a ++ "" = a)%string.
Proof.
  induction a as [|x a IH]; [done|].
  change (String x (a ++ "") = String x a)%string. by rewrite IH.
Qed.

Lemma set_closure_id j c s : closures s !! j = Some c → set_closure j c s = s.
Proof.
  intros Hj. destruct s. unfold set_closure. cbn in *. f_equal.
  by apply insert_id.
Qed.

(** A chunk with the job's id, when no other call bears that id: the text
    is appended to the output, and nothing else changes. *)
Lemma terminal_chunk j env res now s :
  wf s →
  closures s !! j = Some (Terminal env) →
  sole_bearer j (StreamChunk res) s →
  (StreamListener, j) ∈ handlers_of s STREAM →
  sc_jobId res = tm_jobId env →
  ∃ env',
    step (Incoming (StreamChunk res) now) s = set_closure j (Terminal env') s
    ∧ tm_jobId env' = tm_jobId env
    ∧ tm_promise env' = tm_promise env
    ∧ tm_output env' = (tm_output env ++ chunk res)%string.
Proof.
  intros Hwf Hj Huniq Hin Hid.
  rewrite handlers_of_step_incoming.
  rewrite (deliver_unique _ _ _ _ j Hwf (proj1 (wf_handlers s Hwf _)) Huniq).
  rewrite decide_True by done. unfold invoke. cbn. rewrite Hj. cbn.
  unfold streamListener. case_decide as Hc.
  - cbn. by eexists.
  - exists env. rewrite set_closure_id by done. repeat split.
    destruct (decide (chunk res = "")) as [->|Hne];
      [by rewrite string_app_empty_r|].
    exfalso. apply Hc. by split.
Qed.

(** The stream-end envelope with the job's id: the promise is resolved with
    the output accumulated so far, and the listeners and the timer go. *)
Lemma terminal_end j env fin now s :
  wf s →
  closures s !! j = Some (Terminal env) →
  sole_bearer j (StreamEnd fin) s →
  (EndListener, j) ∈ handlers_of s STREAM_END →
  se_jobId fin = tm_jobId env →
  tm_promise env = Pending →
  let s' := step (Incoming (StreamEnd fin) now) s in
  ∃ env',
    closures s' !! j = Some (Terminal env')
    ∧ tm_promise env' = Fulfilled (tm_output env)
    ∧ ((StreamListener, j) ∉ handlers_of s' STREAM)
    ∧ ((EndListener, j) ∉ handlers_of s' STREAM_END)
    ∧ timers s' !! j = None.
Proof.
  intros Hwf Hj Huniq Hin Hid Hpend s'. subst s'.
  destruct (wf_closures s Hwf j _ Hj) as (_ & _ & _ & Hp & _). cbn in Hp.
  assert (Hh : tm_timeoutHandle env = Some j) by (apply Hp; by rewrite Hpend).
  rewrite handlers_of_step_incoming.
  rewrite (deliver_unique _ _ _ _ j Hwf (proj1 (wf_handlers s Hwf _)) Huniq).
  rewrite decide_True by done. unfold invoke. cbn [fst snd role_of].
  rewrite Hj. cbn [fst snd].
  unfold endListener. rewrite decide_True by done.
  eexists. split; [cbn; by rewrite lookup_insert_eq|].
  split; [cbn; by rewrite Hpend|].
  change (handlers_of (set_closure _ _ (upd_metricsCollector _ ?x)))
    with (handlers_of x).
  change (timers (set_closure _ _ (upd_metricsCollector _ ?x)))
    with (timers x).
  unfold terminal_cleanup. rewrite Hh.
  split; [|split].
  - rewrite handlers_of_off, decide_False by done.
    rewrite handlers_of_off, decide_True by done.
    apply not_elem_of_remove_first. apply (wf_handlers s Hwf).
  - rewrite handlers_of_off, decide_True by done.
    apply not_elem_of_remove_first.
    rewrite handlers_of_off, decide_False by done. apply (wf_handlers s Hwf).
  - cbn. by rewrite lookup_delete_eq.
Qed.

(** C9.  In every reachable state, for a pending terminal job whose
    listeners are attached and whose id no other call bears: after any
    sequence of chunks with its id, followed by the stream-end envelope with
    its id, the promise is resolved with the output it had, followed by the
    chunks' texts in arrival order; the envelope is what ends the wait (the
    listeners and the timer are gone after it).  For a job just issued and
    the chunks "hel", "lo" the output is "hello". *)
Theorem terminal_output_concatenated :
  ∀ (s0 : Sdk) (tr : list Event) (j : nat) (env : TerminalEnv)
    (chunks : list (StreamChunkResponse * Z)) (fin : StreamEndResponse)
    (tEnd : Z),
    fresh s0 →
    closures (run tr s0) !! j = Some (Terminal env) →
    tm_promise env = Pending →
    (StreamListener, j) ∈ handlers_of (run tr s0) STREAM →
    (EndListener, j) ∈ handlers_of (run tr s0) STREAM_END →
    (∀ k c, k ≠ j → closures (run tr s0) !! k = Some c →
            jobId_of_closure c ≠ Some (tm_jobId env)) →
    Forall (fun c => sc_jobId c.1 = tm_jobId env) chunks →
    se_jobId fin = tm_jobId env →
    let arrivals :=
      map (fun c => Incoming (StreamChunk c.1) c.2) chunks
      ++ [Incoming (StreamEnd fin) tEnd] in
    let s' := run arrivals (run tr s0) in
    ∃ env',
      closures s' !! j = Some (Terminal env')
      ∧ tm_promise env'
        = Fulfilled
            (tm_output env ++ foldr String.append "" (map (fun c => chunk c.1) chunks))%string
      ∧ ((StreamListener, j) ∉ handlers_of s' STREAM)
      ∧ ((EndListener, j) ∉ handlers_of s' STREAM_END)
      ∧ timers s' !! j = None.
Proof.
  intros s0 tr j env chunks fin tEnd Hfresh Hj Hpend Hin1 Hin2 Huniq Hids Hfin
    arrivals s'.
  pose proof (wf_reachable s0 tr Hfresh) as Hwf.
  subst s' arrivals. set (s := run tr s0) in *. clearbody s. clear Hfresh.
  rewrite run_app. remember (tm_jobId env) as id eqn:Heq.
  revert s env Heq Hwf Hj Hpend Hin1 Hin2 Huniq Hfin.
  induction Hids as [|[res t] chunks Hid Hids IH];
    intros s env Heq Hwf Hj Hpend Hin1 Hin2 Huniq Hfin.
  - cbn. rewrite string_app_empty_r.
    apply terminal_end; try done; [|congruence].
    intros k c Hk Hc. cbn. rewrite Hfin. by eapply Huniq.
  - cbn [map run fold_left]. cbn in Hid.
    destruct (terminal_chunk j env res t s Hwf Hj)
      as (env' & Hs & Hid' & Hp' & Ho'); try done; [|congruence|].
    { intros k c Hk Hc. cbn. rewrite Hid. by eapply Huniq. }
    change (fold_left (λ acc ev, step ev acc) ?l ?x) with (run l x).
    cbn [fst snd]. rewrite Hs.
    destruct (IH (set_closure j (Terminal env') s) env')
      as (env'' & H1 & H2 & H3); try done.
    + congruence.
    + rewrite <- Hs. by apply wf_step.
    + cbn. by rewrite lookup_insert_eq.
    + congruence.
    + intros k c Hk. cbn. rewrite lookup_insert_ne by done. by apply Huniq.
    + exists env''. split; [done|]. split; [|done].
      rewrite H2, Ho'. cbn. by rewrite string_app_assoc.
Qed.

(** The scenario of C9: on a connected SDK that knows sandbox "sb", a
    terminal job receives "hel", "lo" and the stream-end envelope. *)
Lemma terminal_output_concatenated_witness :
  let s0 :=
    {| socket := Some {| handlers := ∅; emitted := [] |};
       isConnected := true; config_timeout := 60000; listeners := ∅;
       activeSandboxes := {["sb"%string]};
       metricsCollector := MetricsCollector.new;
       rateLimiter := RateLimiter.new (Some 60);
       timers := ∅; closures := ∅; nextId := 0 |} in
  let tr := [CallRunTerminal "sb" "echo hello" None "T" 0] in
  let chunks :=
    [({| sc_jobId := "T"; chunk := "hel"; sc_timestamp := None |}, 1);
     ({| sc_jobId := "T"; chunk := "lo"; sc_timestamp := None |}, 2)] in
  let fin := {| se_jobId := "T"; exitCode := Some 0 |} in
  let s' :=
    run (map (fun c => Incoming (StreamChunk c.1) c.2) chunks
         ++ [Incoming (StreamEnd fin) 3]) (run tr s0) in
  ∃ env',
    closures s' !! 0%nat = Some (Terminal env')
    ∧ tm_promise env' = Fulfilled "hello"%string.
Proof.
  intros s0 tr chunks fin s'.
  destruct (terminal_output_concatenated s0 tr 0
    {| tm_jobId := "T"; tm_timeout := 60000; tm_timeoutHandle := Some 0%nat;
       tm_output := ""; tm_opts := None; tm_startTime := 0; tm_calls := [];
       tm_promise := Pending |} chunks fin 3)
    as (env' & Hc & Hp & _).
  - repeat split; reflexivity.
  - vm_compute. reflexivity.
  - reflexivity.
  - vm_compute. left.
  - vm_compute. left.
  - intros k c Hk Hc. exfalso.
    assert (Hcl : closures (run tr s0)
                  = <[0%nat := Terminal
                        {| tm_jobId := "T"; tm_timeout := 60000;
                           tm_timeoutHandle := Some 0%nat; tm_output := "";
                           tm_opts := None; tm_startTime := 0; tm_calls := [];
                           tm_promise := Pending |}]> ∅)
      by (vm_compute; reflexivity).
    rewrite Hcl, lookup_insert_ne, lookup_empty in Hc by done.
    discriminate Hc.
  - repeat constructor.
  - reflexivity.
  - exists env'. split; [exact Hc|exact Hp].
Defined.

(** *** The timeout path of sendJob *)

(** sendJob arms its timer for the instant of the call plus the timeout. *)
Lemma sendJob_arms_timer event payload timeoutMs uuid now s :
  is_Some (socket s) →
  let timeout := Js.num_or timeoutMs (config_timeout s) in
  timers (sendJob event payload timeoutMs uuid now s) !! nextId s
  = Some (now + timer_delay timeout).
Proof.
  intros [sock Hs]. unfold sendJob. rewrite Hs. cbn. by rewrite lookup_insert_eq.
Qed.

(** In every reachable state, for a pending sendJob call: the timer does
    nothing before it is due; once due it rejects with the Timeout error and
    takes the listener out of the tracked registry, and the handlers on the
    socket are what they were. *)
Lemma sendJob_timeout_path s0 tr j env :
  fresh s0 →
  closures (run tr s0) !! j = Some (SendJob env) →
  sj_promise env = Pending →
  let s := run tr s0 in
  ∃ due,
    timers s !! j = Some due
    ∧ (∀ now, now < due → step (TimerFires j now) s = s)
    ∧ ∀ now, due <= now →
        let s' := step (TimerFires j now) s in
        settlement <$> closures s' !! j
        = Some (RejectedWith (TimeoutError "Job" (sj_timeout env)))
        ∧ ((ResultListener, j) ∉ tracked s' RESULT)
        ∧ handlers_of s' RESULT = handlers_of s RESULT.
Proof.
  intros Hfresh Hj Hpend s.
  pose proof (wf_reachable s0 tr Hfresh) as Hwf. fold s in Hwf, Hj.
  destruct (wf_closures s Hwf j _ Hj) as (_ & _ & _ & _ & Hinv).
  cbn in Hinv. unfold sendJob_inv in Hinv. rewrite Hpend in Hinv.
  destruct Hinv as [due Hdue]. exists due. split; [done|]. split.
  - intros now Hnow. cbn. rewrite Hdue. by rewrite decide_False by lia.
  - intros now Hnow s'. subst s'. cbn [step].
    rewrite Hdue, decide_True by done. unfold fire.
    change (closures (upd_timers _ s)) with (closures s). rewrite Hj.
    unfold sendJob_onTimeout. split; [|split].
    + cbn. by rewrite lookup_insert_eq, Hpend.
    + change (tracked (set_closure _ _ ?x)) with (tracked x).
      rewrite tracked_removeListener, decide_True by done.
      rewrite elem_of_difference, elem_of_singleton. by intros [_ []].
    + done.
Qed.

(** C1.  After the timer path of sendJob the result path is not a no-op.
    In every reachable state, for a pending sendJob call whose listener is on
    the socket: the timer, once due, rejects the promise with the Timeout
    error and leaves the listener on the socket; a result message with the
    job's id that arrives afterwards is therefore handed to the listener,
    whose body runs: it nulls the timeout handle and takes the listener off
    the socket, so the state changes.  The promise is not settled a second
    time: it stays rejected with the Timeout error. *)
Theorem sendJob_late_result_runs_listener :
  ∀ (s0 : Sdk) (tr : list Event) (j : nat) (env : SendJobEnv) (due now : Z)
    (res : JobResultResponse) (later : Z),
    fresh s0 →
    closures (run tr s0) !! j = Some (SendJob env) →
    sj_promise env = Pending →
    (ResultListener, j) ∈ handlers_of (run tr s0) RESULT →
    timers (run tr s0) !! j = Some due →
    due <= now →
    jr_jobId res = sj_jobId env →
    let s2 := step (TimerFires j now) (run tr s0) in
    let s3 := step (Incoming (JobResult res) later) s2 in
    settlement <$> closures s2 !! j
    = Some (RejectedWith (TimeoutError "Job" (sj_timeout env)))
    ∧ (handle_of <$> closures s2 !! j) = Some (Some j)
    ∧ (ResultListener, j) ∈ handlers_of s2 RESULT
    ∧ s3 ≠ s2
    ∧ (handle_of <$> closures s3 !! j) = Some None
    ∧ ((ResultListener, j) ∉ handlers_of s3 RESULT)
    ∧ settlement <$> closures s3 !! j
      = Some (RejectedWith (TimeoutError "Job" (sj_timeout env))).
Proof.
  intros s0 tr j env due now res later Hfresh Hj Hpend Hin Hdue Hnow Hid s2 s3.
  pose proof (wf_reachable s0 tr Hfresh) as Hwf.
  destruct (wf_closures _ Hwf j _ Hj) as (_ & _ & _ & Hp & _).
  assert (Hh : sj_timeoutHandle env = Some j) by (apply Hp; cbn; by rewrite Hpend).
  set (env2 := {| sj_jobId := sj_jobId env; sj_timeout := sj_timeout env;
                  sj_timeoutHandle := Some j;
                  sj_promise := Rejected (TimeoutError "Job" (sj_timeout env)) |}).
  assert (Hc2 : closures s2 !! j = Some (SendJob env2)).
  { subst s2. cbn [step]. rewrite Hdue, decide_True by done. unfold fire.
    change (closures (upd_timers _ ?x)) with (closures x). rewrite Hj.
    unfold sendJob_onTimeout. cbn. by rewrite lookup_insert_eq, Hpend, Hh. }
  assert (Hh2 : handlers_of s2 RESULT = handlers_of (run tr s0) RESULT).
  { subst s2. cbn [step]. rewrite Hdue, decide_True by done. unfold fire.
    change (closures (upd_timers _ ?x)) with (closures x). by rewrite Hj. }
  assert (Hwf2 : wf s2) by by apply wf_step.
  assert (Hin2 : (ResultListener, j) ∈ handlers_of s2 RESULT) by by rewrite Hh2.
  assert (Hs3 : closures s3 !! j
                = Some (SendJob {| sj_jobId := sj_jobId env;
                                   sj_timeout := sj_timeout env;
                                   sj_timeoutHandle := None;
                                   sj_promise :=
                                     Rejected (TimeoutError "Job" (sj_timeout env)) |})
                ∧ (ResultListener, j) ∉ handlers_of s3 RESULT).
  { subst s3. rewrite handlers_of_step_incoming.
    destruct (deliver_split (handlers_of s2 RESULT) (JobResult res) later s2 j)
      as (s_pre & Hwfp & Hfp & Hfinal); try done.
    { apply (wf_handlers s2 Hwf2). }
    destruct Hfp as (Hcp & _ & Hhp & _). rewrite Hc2 in Hcp.
    destruct Hfinal as (Hcf & _ & Hhf & _).
    change (event_of (JobResult res)) with RESULT.
    rewrite Hcf, (Hhf RESULT ResultListener).
    unfold invoke. cbn [fst snd role_of]. rewrite Hcp.
    unfold sendJob_listener. rewrite decide_True by done. cbn [fst].
    split.
    - unfold set_closure. cbn [closures]. rewrite lookup_insert_eq.
      subst env2. cbn [sj_jobId sj_timeout sj_promise].
      by rewrite settle_result_settled.
    - change (handlers_of (set_closure _ _ ?x)) with (handlers_of x).
      rewrite handlers_of_off, decide_True by done.
      apply not_elem_of_remove_first.
      apply (wf_handlers s_pre Hwfp RESULT). }
  destruct Hs3 as [Hc3 Hout3].
  split; [by rewrite Hc2|]. split; [by rewrite Hc2|]. split; [done|].
  split; [intros Heq; apply Hout3; by rewrite Heq|].
  split; [by rewrite Hc3|]. split; [done|]. by rewrite Hc3.
Qed.

(** Job J, issued at 0 with a timeout of 1000 ms, times out; its answer
    arrives at 2000. *)
Lemma sendJob_late_result_runs_listener_witness :
  let tr := [CallSendJob "sandbox:status" VNull (Some 1000) "J" 0] in
  let late := {| jr_jobId := "J"; success := true; output := VStr "late";
                 jr_error := None |} in
  let s2 := step (TimerFires 0 1000) (run tr (new None)) in
  let s3 := step (Incoming (JobResult late) 2000) s2 in
  (ResultListener, 0%nat) ∈ handlers_of s2 RESULT
  ∧ s3 ≠ s2
  ∧ ((ResultListener, 0%nat) ∉ handlers_of s3 RESULT)
  ∧ settlement <$> closures s3 !! 0%nat
    = Some (RejectedWith (TimeoutError "Job" 1000)).
Proof.
  intros tr late s2 s3.
  destruct (sendJob_late_result_runs_listener (new None) tr 0
              {| sj_jobId := "J"; sj_timeout := 1000; sj_timeoutHandle := Some 0%nat;
                 sj_promise := Pending |} 1000 1000 late 2000)
    as (_ & _ & H2 & Hne & _ & H3 & Hp); try (vm_compute; reflexivity).
  - repeat split; reflexivity.
  - vm_compute. by left.
  - vm_compute. discriminate.
  - done.
Defined.

(** C2.  The timeout callback of sendJob takes the listener out of the
    registry of tracked listeners but leaves it on the socket.  Job J, issued
    at 0 with a timeout of 1000 ms: the timer does nothing at 999; at 1000 it
    rejects with the Timeout error and the registry is empty, yet the
    listener is still attached to "job:result"; a result for J that arrives
    at 2000 is therefore handed to the listener, which runs: the state
    changes (the handler comes off the socket and the closure's timeout
    handle is nulled), while the promise stays rejected.  After three
    timed-out jobs the registry is empty and three handlers remain on the
    socket. *)
Theorem sendJob_timeout_leaves_socket_listener :
  let s1 := step (CallSendJob "sandbox:status" VNull (Some 1000) "J" 0) (new None) in
  let s2 := step (TimerFires 0 1000) s1 in
  let late := {| jr_jobId := "J"; success := true; output := VStr "late";
                 jr_error := None |} in
  let s3 := step (Incoming (JobResult late) 2000) s2 in
  let three := run [CallSendJob "sandbox:status" VNull (Some 1000) "J1" 0;
                    CallSendJob "sandbox:status" VNull (Some 1000) "J2" 0;
                    CallSendJob "sandbox:status" VNull (Some 1000) "J3" 0;
                    TimerFires 0 1000; TimerFires 1 1000; TimerFires 2 1000]
                 (new None) in
  step (TimerFires 0 999) s1 = s1
  ∧ settlement <$> closures s2 !! 0%nat
    = Some (RejectedWith (TimeoutError "Job" 1000))
  ∧ listeners s2 = ∅
  ∧ handlers_of s2 RESULT = [(ResultListener, 0%nat)]
  ∧ s3 ≠ s2
  ∧ handlers_of s3 RESULT = []
  ∧ (handle_of <$> closures s2 !! 0%nat) = Some (Some 0%nat)
  ∧ (handle_of <$> closures s3 !! 0%nat) = Some None
  ∧ settlement <$> closures s3 !! 0%nat
    = Some (RejectedWith (TimeoutError "Job" 1000))
  ∧ listeners three = ∅
  ∧ handlers_of three RESULT
    = [(ResultListener, 0%nat); (ResultListener, 1%nat); (ResultListener, 2%nat)].
Proof.
  intros s1 s2 late s3 three.
  repeat split; try (vm_compute; reflexivity).
  intros H. apply (f_equal (fun s => handlers_of s RESULT)) in H.
  vm_compute in H. discriminate H.
Qed.

End ProtocolFacts.

(** * Further properties *)

(** ** MetricsCollector: bounds and mixed histories *)

Section MetricsMore.
Import MetricsCollector Metrics.

Lemma fold_add_bounds lo hi (l : list Z) a :
  Forall (fun x => lo <= x <= hi) l →
  a + lo * Z.of_nat (length l) <= fold_left Z.add l a
  <= a + hi * Z.of_nat (length l).
Proof.
  intros H. revert a. induction H as [|x l Hx H IH]; intros a; cbn; [lia|].
  specialize (IH (a + x)). lia.
Qed.

Lemma mean_bounds lo hi (l : list Z) :
  l ≠ [] → Forall (fun x => lo <= x <= hi) l →
  (inject_Z lo <= mean l <= inject_Z hi)%Q.
Proof.
  intros Hne H. pose proof (fold_add_bounds lo hi l 0 H) as Hb.
  unfold mean, Js.reduce_add. set (sum := fold_left Z.add l 0) in *.
  assert (Hn : 0 < Z.of_nat (length l)) by (destruct l; [done|cbn [length]; lia]).
  destruct (Z.of_nat (length l)) as [|p|p]; try lia.
  unfold Qle, Qdiv, Qmult, Qinv, inject_Z. simpl.
  rewrite ?Pos.mul_1_l, ?Z.mul_1_r. lia.
Qed.

(** X1.  After any history, the average reported by [recordRequest] lies
    between any two bounds that enclose the samples in the ring: samples
    that have left the ring do not count. *)
Theorem average_within_ring_bounds :
  ∀ (history : list (bool * Z)) (success : bool) (responseTime lo hi : Z),
    let c' := recordRequest success responseTime (feed history new) in
    Forall (fun x => lo <= x <= hi) (responseTimes c') →
    (inject_Z lo <= averageResponseTime (metrics c') <= inject_Z hi)%Q.
Proof.
  intros history success rt lo hi c' H. subst c'.
  rewrite average_recordRequest. apply mean_bounds; [|done].
  apply responseTimes_nonempty.
Qed.

(** A run of X1: an outlier of 1000000 ms, evicted by 1000 samples between
    10 and 30 ms. *)
Lemma average_within_ring_bounds_witness :
  let history := (true, 1000000) :: repeat (true, 10) 999 in
  (inject_Z 10
   <= averageResponseTime (metrics (recordRequest false 30 (feed history new)))
   <= inject_Z 30)%Q.
Proof.
  intros history.
  apply (average_within_ring_bounds history false 30 10 30).
  refine (bool_decide_unpack _ _). vm_compute. exact I.
Defined.

Lemma metrics_run_snoc ops op c : run (ops ++ [op]) c = apply op (run ops c).
Proof. unfold run. by rewrite fold_left_app. Qed.

Lemma since_reset_snoc ops op :
  since_reset (ops ++ [op])
  = match op with Reset => [] | _ => since_reset ops ++ [op] end.
Proof. unfold since_reset. by rewrite fold_left_app. Qed.

Lemma reduce_add_snoc l x : Js.reduce_add (l ++ [x]) = Js.reduce_add l + x.
Proof. unfold Js.reduce_add. by rewrite fold_left_app. Qed.

Lemma requests_snoc ops op :
  requests (ops ++ [op])
  = requests ops ++ match op with Request b rt => [(b, rt)] | _ => [] end.
Proof. unfold requests. rewrite omap_app. by destruct op. Qed.

Lemma durations_snoc ops op :
  durations (ops ++ [op])
  = durations ops ++ match op with Executed d => [d] | _ => [] end.
Proof. unfold durations. rewrite omap_app. by destruct op. Qed.

Lemma last_count_snoc ops op :
  last_count (ops ++ [op])
  = match op with ActiveSandboxes n => n | _ => last_count ops end.
Proof. unfold last_count. by rewrite fold_left_app. Qed.

(** X2.  Whatever the history of calls on a collector, the request
    statistics (counters, ring, average) are those of the requests recorded
    since the last [reset], as if nothing else had been called in between;
    the execution time is the sum of the durations recorded since that reset
    and the sandbox gauge is the last value set since then (0 if none). *)
Theorem metrics_after_any_history :
  ∀ (ops : list Op),
    let c := run ops new in
    let live := since_reset ops in
    let fed := feed (requests live) new in
    responseTimes c = responseTimes fed
    ∧ totalRequests (metrics c) = totalRequests (metrics fed)
    ∧ successfulRequests (metrics c) = successfulRequests (metrics fed)
    ∧ failedRequests (metrics c) = failedRequests (metrics fed)
    ∧ averageResponseTime (metrics c) = averageResponseTime (metrics fed)
    ∧ totalExecutionTime (metrics c) = Js.reduce_add (durations live)
    ∧ activeSandboxes (metrics c) = last_count live.
Proof.
  induction ops as [|op ops IH] using rev_ind; [by repeat split|].
  cbn zeta in *. rewrite metrics_run_snoc, since_reset_snoc.
  destruct IH as (Hr & Ht & Hs & Hf & Ha & He & Hc).
  destruct op as [b rt|d|n|]; cbn [apply];
    rewrite ?requests_snoc, ?durations_snoc, ?last_count_snoc, ?app_nil_r.
  - rewrite (feed_snoc _ (b, rt)). cbn [fst snd].
    assert (Hring : responseTimes (recordRequest b rt (run ops new))
                    = responseTimes
                        (recordRequest b rt
                           (feed (requests (since_reset ops)) new)))
      by (by rewrite !responseTimes_recordRequest, Hr).
    rewrite !counters_recordRequest, Hring. cbn.
    rewrite Ht, Hs, Hf. by repeat split.
  - rewrite reduce_add_snoc. cbn. rewrite He. by repeat split.
  - by repeat split.
  - by repeat split.
Qed.

End MetricsMore.

(** ** checkRateLimit: what a sequence of calls lets through *)

Section AdmissionFacts.
Import Sdk Admission.

Lemma checkRateLimit_cases now s :
  let r := rateLimiter s in
  let kept := RateLimiter.in_window now (RateLimiter.requestTimestamps r) in
  let s1 := (checkRateLimit now s).1 in
  RateLimiter.maxRequestsPerMinute (rateLimiter s1)
  = RateLimiter.maxRequestsPerMinute r
  ∧ ((Z.of_nat (length kept) < RateLimiter.maxRequestsPerMinute r
      ∧ (checkRateLimit now s).2 = None
      ∧ RateLimiter.requestTimestamps (rateLimiter s1) = kept ++ [now])
     ∨ (RateLimiter.maxRequestsPerMinute r <= Z.of_nat (length kept)
        ∧ (checkRateLimit now s).2
          = Some (RateLimitError
                    match kept with
                    | [] => 0
                    | oldest :: _ => Z.max (60000 - (now - oldest)) 0
                    end)
        ∧ RateLimiter.requestTimestamps (rateLimiter s1) = kept)).
Proof.
  cbn zeta. unfold checkRateLimit, RateLimiter.canMakeRequest.
  rewrite in_window_filter.
  set (kept := RateLimiter.in_window now _).
  destruct (Z.leb_spec (RateLimiter.maxRequestsPerMinute (rateLimiter s))
              (Z.of_nat (length kept))); cbn; (split; [done|]);
    [right|left]; by repeat split.
Qed.

Lemma checks_snoc times now s :
  checks (times ++ [now]) s = check (checks times s) now.
Proof. unfold checks. by rewrite fold_left_app. Qed.

Lemma within_minute_in_window now t (l : list Z) :
  now <= t → Forall (fun x => x <= now) l →
  (length (within_minute t l) <= length (RateLimiter.in_window now l))%nat.
Proof.
  intros Hnow Hall. unfold within_minute, RateLimiter.in_window.
  induction Hall as [|x l Hx Hall IH]; [done|].
  rewrite !filter_cons. repeat case_decide; cbn; lia.
Qed.

(** What a sequence of checks on a non-decreasing clock keeps true. *)
Lemma checks_invariant s0 times :
  RateLimiter.requestTimestamps (rateLimiter s0) = [] →
  StronglySorted Z.le times →
  let s := (checks times s0).1 in
  let passed := (checks times s0).2 in
  let ceiling := RateLimiter.maxRequestsPerMinute (rateLimiter s0) in
  RateLimiter.maxRequestsPerMinute (rateLimiter s) = ceiling
  ∧ passed `sublist_of` times
  ∧ RateLimiter.requestTimestamps (rateLimiter s) `sublist_of` passed
  ∧ (∀ now, Forall (fun t => t <= now) times →
       RateLimiter.in_window now (RateLimiter.requestTimestamps (rateLimiter s))
       = RateLimiter.in_window now passed)
  ∧ (∀ t, Z.of_nat (length (within_minute t passed)) <= Z.max ceiling 0).
Proof.
  intros Hempty. induction times as [|now times IH] using rev_ind; intros Hsorted.
  { cbn. rewrite Hempty. repeat split; try done. intros t. lia. }
  apply StronglySorted_app in Hsorted as (Hle & Hsorted & _).
  assert (Hnow : Forall (fun t => t <= now) times).
  { apply Forall_forall. intros t Ht. apply Hle; [done|]. by left. }
  destruct (IH Hsorted) as (Hmax & Hsub & Hstored & Hwin & Hbound). clear IH.
  cbn zeta. rewrite checks_snoc. unfold check.
  destruct (checks times s0) as [s passed]. cbn [fst snd] in *.
  pose proof (checkRateLimit_cases now s) as [Hmax' Hcases].
  destruct (checkRateLimit now s) as [s1 limited]. cbn [fst snd] in *.
  assert (Hpassed : Forall (fun x => x <= now) passed).
  { rewrite Forall_forall in *. intros x Hx. apply Hnow.
    by eapply elem_of_sublist. }
  rewrite (Hwin now Hnow) in Hcases.
  destruct Hcases as [(Hlt & -> & Hts)|(Hge & -> & Hts)]; rewrite Hts.
  - split; [congruence|]. split; [by apply sublist_app|]. split.
    { apply sublist_app; [|done]. etrans; [apply sublist_filter|done]. }
    split.
    + intros now' [Hall Hn]%Forall_app.
      assert (now <= now') by by inversion Hn.
      unfold RateLimiter.in_window at 1 3. rewrite !filter_app.
      f_equal. fold (RateLimiter.in_window now' passed).
      fold (RateLimiter.in_window now'
              (RateLimiter.in_window now passed)).
      by apply in_window_pruned.
    + intros t. unfold within_minute. rewrite filter_app, length_app.
      fold (within_minute t passed). rewrite filter_cons, filter_nil.
      case_decide as Hin; cbn [length]; [|specialize (Hbound t); lia].
      pose proof (within_minute_in_window now t passed
                    ltac:(lia) Hpassed) as Hc.
      rewrite Hmax in Hlt. lia.
  - split; [congruence|]. split; [by apply sublist_inserts_r|]. split.
    { apply sublist_filter. }
    split; [|done].
    intros now' [Hall Hn]%Forall_app.
    assert (now <= now') by by inversion Hn.
    by apply in_window_pruned.
Qed.

Lemma within_minute_until_now now (l : list Z) :
  Forall (fun x => x <= now) l → within_minute now l = RateLimiter.in_window now l.
Proof.
  intros Hall. unfold within_minute, RateLimiter.in_window.
  induction Hall as [|x l Hx Hall IH]; [done|].
  rewrite !filter_cons, IH. repeat case_decide; try done; lia.
Qed.

Lemma sorted_snoc_bound (times : list Z) now :
  StronglySorted Z.le (times ++ [now]) →
  StronglySorted Z.le times ∧ Forall (fun t => t <= now) times.
Proof.
  intros (Hle & Hsorted & _)%StronglySorted_app. split; [done|].
  apply Forall_forall. intros t Ht. apply Hle; [done|]. by left.
Qed.

(** X3.  Calls of checkRateLimit on a clock that never goes backwards,
    starting with no recorded timestamp.  A call at [now] passes exactly
    when fewer than the ceiling of the calls that passed before lie in the
    minute ending at [now]; and whatever instant [t] one looks at, the calls
    that passed within the minute ending at [t] (those with
    [t - 60000 < ts <= t]) never number more than the ceiling.  Refused calls
    are not recorded and do not count. *)
Theorem checkRateLimit_sliding_window s0 times now :
  RateLimiter.requestTimestamps (rateLimiter s0) = [] →
  StronglySorted Z.le (times ++ [now]) →
  let ceiling := RateLimiter.maxRequestsPerMinute (rateLimiter s0) in
  let s := (checks times s0).1 in
  let passed := (checks times s0).2 in
  ((checkRateLimit now s).2 = None
   ↔ Z.of_nat (length (within_minute now passed)) < ceiling)
  ∧ (checks (times ++ [now]) s0).2
    = (if bool_decide ((checkRateLimit now s).2 = None)
       then passed ++ [now] else passed)
  ∧ ∀ t, Z.of_nat (length (within_minute t (checks (times ++ [now]) s0).2))
         <= Z.max ceiling 0.
Proof.
  intros Hempty Hsorted. cbn zeta.
  destruct (sorted_snoc_bound _ _ Hsorted) as [Hsorted' Hnow].
  destruct (checks_invariant s0 times Hempty Hsorted')
    as (Hmax & Hsub & _ & Hwin & _).
  pose proof (checks_invariant s0 _ Hempty Hsorted) as (_ & _ & _ & _ & Hbound).
  split; [|split; [|exact Hbound]].
  - rewrite within_minute_until_now.
    2:{ rewrite Forall_forall in *. intros x Hx. apply Hnow.
        by eapply elem_of_sublist. }
    rewrite <- (Hwin now Hnow), <- Hmax.
    pose proof (checkRateLimit_cases now (checks times s0).1) as [_ Hcases].
    cbn zeta in Hcases.
    destruct Hcases as [(Hlt & -> & _)|(Hge & -> & _)]; split; try done; lia.
  - rewrite checks_snoc. unfold check.
    destruct (checkRateLimit now (checks times s0).1) as [s1 [e|]]; cbn [snd];
      by (rewrite bool_decide_eq_false_2 by done)
      || by rewrite bool_decide_eq_true_2.
Qed.

Lemma checkRateLimit_sliding_window_witness :
  let s0 := Sdk.new None in
  let times := repeat 0 60 ++ [30000; 59999; 60000; 60001] in
  (checks times s0).2 = repeat 0 60 ++ [60000; 60001]
  ∧ ∀ t, Z.of_nat (length (within_minute t (checks times s0).2)) <= 60.
Proof.
  cbn zeta.
  pose proof (checkRateLimit_sliding_window (Sdk.new None)
                (repeat 0 60 ++ [30000; 59999; 60000]) 60001 eq_refl) as H.
  cbn zeta in H. rewrite <- app_assoc in H.
  destruct H as (_ & Hpassed & Hbound).
  { refine (bool_decide_unpack _ _). vm_compute. exact I. }
  split; [by vm_compute|exact Hbound].
Defined.

(** One reading of the clock for the whole call gives [checkRateLimit] as
    the transition system uses it. *)
Lemma checkRateLimit_reads_same now s :
  checkRateLimit_reads now now s = checkRateLimit now s.
Proof. done. Qed.

Lemma checkRateLimit_reads_cases first second s :
  let r := rateLimiter s in
  let kept := RateLimiter.in_window first (RateLimiter.requestTimestamps r) in
  let s1 := (checkRateLimit_reads first second s).1 in
  RateLimiter.maxRequestsPerMinute (rateLimiter s1)
  = RateLimiter.maxRequestsPerMinute r
  ∧ ((Z.of_nat (length kept) < RateLimiter.maxRequestsPerMinute r
      ∧ (checkRateLimit_reads first second s).2 = None
      ∧ RateLimiter.requestTimestamps (rateLimiter s1) = kept ++ [second])
     ∨ (RateLimiter.maxRequestsPerMinute r <= Z.of_nat (length kept)
        ∧ (checkRateLimit_reads first second s).2
          = Some (RateLimitError
                    match kept with
                    | [] => 0
                    | oldest :: _ => Z.max (60000 - (second - oldest)) 0
                    end)
        ∧ RateLimiter.requestTimestamps (rateLimiter s1) = kept)).
Proof.
  cbn zeta. unfold checkRateLimit_reads, RateLimiter.canMakeRequest.
  rewrite in_window_filter.
  set (kept := RateLimiter.in_window first _).
  destruct (Z.leb_spec (RateLimiter.maxRequestsPerMinute (rateLimiter s))
              (Z.of_nat (length kept))); cbn; (split; [done|]);
    [right|left]; by repeat split.
Qed.

Lemma checks_reads_snoc reads t s :
  checks_reads (reads ++ [t]) s
  = (checkRateLimit_reads t.1 t.2 (checks_reads reads s)).1.
Proof. unfold checks_reads. by rewrite fold_left_app. Qed.

Lemma readings_snoc reads t : readings (reads ++ [t]) = readings reads ++ [t.1; t.2].
Proof. unfold readings. by rewrite flat_map_app. Qed.

Lemma sorted_snoc (l : list Z) x :
  StronglySorted Z.le l → Forall (fun y => y <= x) l →
  StronglySorted Z.le (l ++ [x]).
Proof.
  induction 1 as [|y l Hl IH Hy]; intros Hall; cbn.
  - repeat constructor.
  - inversion Hall as [|? ? Hyx Hall']; subst. constructor; [by apply IH|].
    apply Forall_app. split; [done|]. by constructor.
Qed.

(** What a sequence of calls keeps true when the readings of the clock never
    go backwards: the stored timestamps are in ascending order, each is one
    of the readings made, and there are never more of them than the
    ceiling. *)
Lemma checks_reads_invariant s0 reads :
  RateLimiter.requestTimestamps (rateLimiter s0) = [] →
  0 < RateLimiter.maxRequestsPerMinute (rateLimiter s0) →
  StronglySorted Z.le (readings reads) →
  let s := checks_reads reads s0 in
  let stored := RateLimiter.requestTimestamps (rateLimiter s) in
  RateLimiter.maxRequestsPerMinute (rateLimiter s)
  = RateLimiter.maxRequestsPerMinute (rateLimiter s0)
  ∧ StronglySorted Z.le stored
  ∧ stored ⊆ readings reads
  ∧ Z.of_nat (length stored) <= RateLimiter.maxRequestsPerMinute (rateLimiter s0).
Proof.
  intros Hempty Hceiling.
  induction reads as [|[first second] reads IH] using rev_ind; intros Hsorted.
  { cbn. rewrite Hempty. repeat split; [constructor|done|cbn; lia]. }
  rewrite readings_snoc in Hsorted. cbn [fst snd] in Hsorted.
  apply StronglySorted_app in Hsorted as (Hle & Hsorted & Hfs).
  destruct (IH Hsorted) as (Hmax & Hst & Hsub & Hlen). clear IH.
  cbn zeta. rewrite checks_reads_snoc. cbn [fst snd].
  set (s := checks_reads reads s0) in *.
  pose proof (checkRateLimit_reads_cases first second s) as [Hmax' Hcases].
  cbn zeta in Hcases.
  set (kept := RateLimiter.in_window first
                 (RateLimiter.requestTimestamps (rateLimiter s))) in *.
  assert (Hkept : kept `sublist_of` RateLimiter.requestTimestamps (rateLimiter s))
    by apply sublist_filter.
  split; [congruence|].
  destruct Hcases as [(Hlt & _ & ->)|(Hge & _ & ->)].
  - split; [|split].
    + apply sorted_snoc; [by eapply StronglySorted_sublist|].
      apply Forall_forall. intros x Hx. apply Hle.
      * apply Hsub. by eapply elem_of_sublist.
      * right. by left.
    + intros x [Hx|Hx%list_elem_of_singleton]%elem_of_app.
      * rewrite readings_snoc. apply elem_of_app. left. apply Hsub.
        by eapply elem_of_sublist.
      * subst x. rewrite readings_snoc. apply elem_of_app. right. cbn.
        right. by left.
    + rewrite length_app. cbn. lia.
  - split; [|split].
    + by eapply StronglySorted_sublist.
    + intros x Hx. rewrite readings_snoc. apply elem_of_app. left. apply Hsub.
      by eapply elem_of_sublist.
    + apply sublist_length in Hkept. lia.
Qed.

(** X4.  The delay carried by a RateLimitError, with the clock read as the
    code reads it: once in canMakeRequest and once more in getRetryAfter or
    recordRequest.  After calls of checkRateLimit whose readings never go
    backwards (ceiling at least 1, no timestamp recorded at the start), a
    call refused with [retryAfter = r] has [0 <= r <= 60000], and [0 < r]
    when its two readings coincide; counted from the reading [tRetry] that
    computed it the delay is exact: a retry whose check reads [t'] (not
    before [tRetry]) passes exactly when [tRetry + r <= t']. *)
Theorem retryAfter_is_exact s0 reads tCheck tRetry r :
  RateLimiter.requestTimestamps (rateLimiter s0) = [] →
  0 < RateLimiter.maxRequestsPerMinute (rateLimiter s0) →
  StronglySorted Z.le (readings (reads ++ [(tCheck, tRetry)])) →
  let s := checks_reads reads s0 in
  (checkRateLimit_reads tCheck tRetry s).2 = Some (RateLimitError r) →
  0 <= r <= 60000
  ∧ (tRetry = tCheck → 0 < r)
  ∧ ∀ t' t'', tRetry <= t' →
      ((checkRateLimit_reads t' t'' (checkRateLimit_reads tCheck tRetry s).1).2
       = None
       ↔ tRetry + r <= t').
Proof.
  intros Hempty Hceiling Hsorted. cbn zeta. intros Hrefused.
  rewrite readings_snoc in Hsorted. cbn [fst snd] in Hsorted.
  apply StronglySorted_app in Hsorted as (Hle & Hsorted & Hfs).
  assert (Hticks : tCheck <= tRetry).
  { inversion Hfs as [|? ? _ Hall]; subst. by inversion Hall. }
  destruct (checks_reads_invariant s0 reads Hempty Hceiling Hsorted)
    as (Hmax & Hst & Hsub & Hlen).
  set (s := checks_reads reads s0) in *.
  set (ceiling := RateLimiter.maxRequestsPerMinute (rateLimiter s0)) in *.
  pose proof (checkRateLimit_reads_cases tCheck tRetry s) as [Hmax1 Hcases].
  cbn zeta in Hcases. rewrite Hrefused in Hcases.
  destruct Hcases as [(_ & ? & _)|(Hge & Herr & Hts)]; [done|].
  set (kept := RateLimiter.in_window tCheck
                 (RateLimiter.requestTimestamps (rateLimiter s))) in *.
  assert (Hkept_sub : kept `sublist_of`
                      RateLimiter.requestTimestamps (rateLimiter s))
    by apply sublist_filter.
  assert (Hkept_sorted : StronglySorted Z.le kept)
    by by apply in_window_sorted.
  assert (Hkept_len : Z.of_nat (length kept) <= ceiling).
  { apply sublist_length in Hkept_sub. lia. }
  assert (Hkept_now : Forall (fun x => tCheck - 60000 < x <= tCheck) kept).
  { apply Forall_forall. intros x Hx.
    pose proof Hx as [Hw _]%list_elem_of_filter. split; [lia|].
    apply Hle; [|by left]. apply Hsub. by eapply elem_of_sublist. }
  rewrite Hmax in Hge. fold ceiling in Hge.
  destruct kept as [|oldest rest] eqn:Hkept; [cbn in Hge; lia|].
  injection Herr as ->.
  pose proof (head_is_oldest _ _ _ Hkept_sorted eq_refl) as Holdest.
  inversion Hkept_now as [|? ? Ho _]; subst.
  split; [lia|]. split; [lia|]. intros t' t'' Hlater.
  set (s1 := (checkRateLimit_reads tCheck tRetry s).1) in *.
  pose proof (checkRateLimit_reads_cases t' t'' s1) as [_ Hcases].
  cbn zeta in Hcases. rewrite Hts, Hmax1, Hmax in Hcases.
  fold ceiling in Hcases.
  destruct (Z_lt_le_dec t' (tRetry + Z.max (60000 - (tRetry - oldest)) 0))
    as [Hearly|Hlate].
  - assert (RateLimiter.in_window t' (oldest :: rest) = oldest :: rest) as Hall.
    { unfold RateLimiter.in_window. rewrite filter_cons_True by lia. f_equal.
      clear -Holdest Hearly Ho Hlater. induction Holdest as [|x l Hx _ IH]; [done|].
      rewrite filter_cons_True by lia. by f_equal. }
    rewrite Hall in Hcases.
    destruct Hcases as [(Hlt & _)|(_ & -> & _)]; [lia|].
    split; [done|lia].
  - assert (length (RateLimiter.in_window t' (oldest :: rest))
            ≤ length rest)%nat as Hfew.
    { unfold RateLimiter.in_window. rewrite filter_cons.
      case_decide; [lia|]. apply length_filter. }
    cbn [length] in Hkept_len, Hge.
    destruct Hcases as [(_ & -> & _)|(Hge' & _)]; [done|lia].
Qed.

(** Sixty calls at 100 fill the window.  A call that checks at 20000 and
    reads the clock again at 20003 is refused with a delay of 40097: a retry
    at 60099 is refused, one at 60100 passes.  A call that checks at 60099
    and computes its delay at 60100 is refused with a delay of 0. *)
Lemma retryAfter_is_exact_witness :
  let s := checks_reads (repeat (100, 100) 60) (Sdk.new None) in
  (checkRateLimit_reads 20000 20003 s).2 = Some (RateLimitError 40097)
  ∧ (checkRateLimit_reads 60099 60099 (checkRateLimit_reads 20000 20003 s).1).2
    ≠ None
  ∧ (checkRateLimit_reads 60100 60100 (checkRateLimit_reads 20000 20003 s).1).2
    = None
  ∧ (checkRateLimit_reads 60099 60100 s).2 = Some (RateLimitError 0).
Proof.
  cbn zeta.
  assert ((checkRateLimit_reads 20000 20003
             (checks_reads (repeat (100, 100) 60) (Sdk.new None))).2
          = Some (RateLimitError 40097)) as Hrefused by by vm_compute.
  split; [exact Hrefused|].
  pose proof (retryAfter_is_exact (Sdk.new None) (repeat (100, 100) 60)
                20000 20003 40097 eq_refl) as H.
  cbn zeta in H. destruct (H ltac:(by vm_compute)) as (_ & _ & Hretry); clear H.
  { refine (bool_decide_unpack _ _). vm_compute. exact I. }
  { exact Hrefused. }
  split; [|split].
  - intros Hnone. apply (Hretry 60099) in Hnone; lia.
  - apply (Hretry 60100); lia.
  - by vm_compute.
Defined.

End AdmissionFacts.

(** ** Result.formats and Execution.text *)

Section FormatsFacts.
Import Sdk Formats.

Lemma elem_of_push_if v k key :
  key ∈ push_if v k ↔ key = k ∧ truthy v = true.
Proof.
  unfold push_if. destruct (truthy v).
  - rewrite list_elem_of_singleton. tauto.
  - rewrite elem_of_nil. intuition discriminate.
Qed.

Lemma push_if_sublist v k : push_if v k `sublist_of` [k].
Proof. unfold push_if. destruct (truthy v); [done|by constructor]. Qed.

Lemma elem_of_extra_keys rawData main key :
  key ∈ (extra (new_Result rawData main)).*1
  ↔ (key ∉ reservedKeys) ∧ key ≠ "__proto__"%string
    ∧ key ∈ (own_fields rawData).*1.
Proof.
  cbn. rewrite !list_elem_of_fmap. split.
  - intros ([k v] & -> & [[Hk Hp] Hin]%list_elem_of_filter).
    split; [done|]. split; [done|]. by exists (k, v).
  - intros (Hk & Hp & [k v] & -> & Hin). exists (k, v). split; [done|].
    by apply list_elem_of_filter.
Qed.

Lemma formatKeys_reserved key : key ∈ formatKeys → key ∈ reservedKeys.
Proof. unfold formatKeys, reservedKeys. rewrite !elem_of_cons. tauto. Qed.

(** X5.  What [formats()] lists for a result built by the constructor from a
    decoded object: a key is listed exactly when it is one of the twelve
    named formats and its value is truthy, or it is an own key of the raw
    data other than the reserved ones and "__proto__".  So "type",
    "is_main_result" and "__proto__" are never listed, a named format whose
    value is empty or 0 is left out while any other key is listed whatever
    its value, and no key is listed twice when the raw object has none
    twice. *)
Theorem formats_of_new_Result rawData main :
  let r := new_Result rawData main in
  let fs := own_fields rawData in
  (∀ key, key ∈ formats r
          ↔ (key ∈ formatKeys ∧ truthy (field key fs) = true)
            ∨ ((key ∉ reservedKeys) ∧ key ≠ "__proto__"%string ∧ key ∈ fs.*1))
  ∧ ("type"%string ∉ formats r)
  ∧ ("is_main_result"%string ∉ formats r)
  ∧ ("__proto__"%string ∉ formats r)
  ∧ (NoDup fs.*1 → NoDup (formats r)).
Proof.
  cbn zeta.
  assert (Hiff : ∀ key, key ∈ formats (new_Result rawData main)
            ↔ (key ∈ formatKeys ∧ truthy (field key (own_fields rawData)) = true)
              ∨ ((key ∉ reservedKeys) ∧ key ≠ "__proto__"%string
                 ∧ key ∈ (own_fields rawData).*1)).
  { intros key. unfold formats. rewrite !elem_of_app, !elem_of_push_if.
    rewrite elem_of_extra_keys. unfold formatKeys. rewrite !elem_of_cons.
    rewrite elem_of_nil. cbn [new_Result text html markdown svg png jpeg pdf
      latex json javascript data chart]. 
    split.
    - intros H. repeat destruct H as [H|H]; try (destruct H as [-> H]; tauto).
      tauto.
    - intros [[H Ht]|H]; [|tauto].
      repeat destruct H as [H|H]; try subst key; tauto. }
  split; [exact Hiff|]. split; [|split; [|split]].
  - rewrite Hiff. unfold formatKeys, reservedKeys. rewrite !elem_of_cons.
    intros [[H _]|[H _]].
    + rewrite elem_of_nil in H. intuition discriminate.
    + apply H. repeat (first [by left|right]).
  - rewrite Hiff. unfold formatKeys, reservedKeys. rewrite !elem_of_cons.
    intros [[H _]|[H _]].
    + rewrite elem_of_nil in H. intuition discriminate.
    + apply H. repeat (first [by left|right]).
  - rewrite Hiff. unfold formatKeys. rewrite !elem_of_cons.
    intros [[H _]|(_ & H & _)]; [|done].
    rewrite elem_of_nil in H. intuition discriminate.
  - intros Hnd. unfold formats. rewrite !app_assoc.
    apply NoDup_app. split; [|split].
    + eapply sublist_NoDup with formatKeys.
      { unfold formatKeys. repeat constructor; rewrite ?elem_of_cons, ?elem_of_nil;
          intros H; repeat destruct H as [H|H]; done. }
      rewrite <- !app_assoc.
      repeat (apply (sublist_app _ [_]); [apply push_if_sublist|]).
      apply push_if_sublist.
    + intros key Hin [Hres _]%elem_of_extra_keys. apply Hres.
      apply formatKeys_reserved. rewrite <- !app_assoc in Hin.
      rewrite !elem_of_app, !elem_of_push_if in Hin.
      unfold formatKeys. rewrite !elem_of_cons. tauto.
    + cbn. eapply sublist_NoDup; [exact Hnd|].
      apply fmap_sublist, sublist_filter.
Qed.

Lemma find_snoc {A} (f : A → bool) (l : list A) (x : A) :
  List.find f (l ++ [x])
  = match List.find f l with
    | Some y => Some y
    | None => if f x then Some x else None
    end.
Proof. induction l as [|y l IH]; cbn; [done|]. by destruct (f y). Qed.

Lemma has_main_find e :
  has_main e = bool_decide (is_Some (List.find (fun r => truthy (isMainResult r))
                                       (results e))).
Proof.
  unfold has_main. induction (results e) as [|r l IH]; cbn; [done|].
  destruct (truthy (isMainResult r)); cbn; done.
Qed.

(** X6.  [execution.text] across a chunk.  Once the execution holds a main
    result, processing any further line leaves [text] as it is (the first
    main result wins, also over later main results); before that, [text] is
    undefined unless the line is a "result" message whose [is_main_result] is
    truthy, and then it is that message's [text] field.  This holds whether
    or not a callback fails on the line. *)
Theorem Execution_text_after_parseOutput e line opts now :
  let e' := (parseOutput e line opts now).1.1 in
  Execution_text e'
  = if has_main e then Execution_text e else main_text line.
Proof.
  cbn zeta. rewrite has_main_find. unfold Execution_text, main_text.
  assert (Hsame : ∀ e', results e' = results e →
    match List.find (fun r => truthy (isMainResult r)) (results e') with
    | Some r => text r | None => VUndefined end
    = if bool_decide (is_Some (List.find (fun r => truthy (isMainResult r))
                                 (results e)))
      then match List.find (fun r => truthy (isMainResult r)) (results e) with
           | Some r => text r | None => VUndefined end
      else VUndefined).
  { intros e' ->. destruct (List.find _ _) eqn:E.
    - by rewrite bool_decide_eq_true_2.
    - by rewrite bool_decide_eq_false_2 by by intros []. }
  unfold parseOutput.
  destruct line as [[| |b|n|str|items|fs]|]; cbn [get fst];
    try (rewrite Hsame by done; by destruct (bool_decide _)).
  destruct (field "type" fs) as [| |b|n|ty|items|fs'] eqn:Hty;
    try (rewrite Hsame by done; by destruct (bool_decide _)).
  destruct (decide (ty = "result"%string)) as [->|Hne].
  - destruct (await_callback _ _ _) as [calls exn]. cbn [fst results].
    rewrite find_snoc. cbn [own_fields].
    destruct (List.find _ (results e)) eqn:E.
    + by rewrite bool_decide_eq_true_2.
    + rewrite bool_decide_eq_false_2 by by intros [].
      cbn [new_Result isMainResult].
      by destruct (truthy _).
  - repeat case_decide; try destruct (await_callback _ _ _) as [calls exn];
      cbn [fst]; rewrite Hsame by done; by destruct (bool_decide _).
Qed.

End FormatsFacts.

(** ** Outcomes of the calls *)

Section OutcomeFacts.
Import Sdk Outcomes.

Lemma placed_evolves c c' role event :
  evolves c c' → placed c role event → placed c' role event.
Proof. intros (_ & _ & Hk). by destruct c, c'. Qed.

Lemma pending_evolves c c' :
  evolves c c' → settlement c' = StillPending → settlement c = StillPending.
Proof.
  intros (_ & Hs & _) Hp.
  assert (settlement c = StillPending ∨ settlement c ≠ StillPending)
    as [|Hne] by (destruct (settlement c); auto); [done|].
  rewrite (Hs Hne) in Hp. done.
Qed.

Lemma sound_fresh s : fresh s → sound s.
Proof.
  intros Hf. pose proof Hf as (Hc & Ht & Hn & Hl & Hh).
  assert (Hnone : ∀ event, handlers_of s event = []).
  { intros event. unfold handlers_of.
    destruct (socket s) as [sock|]; cbn in *; [|done].
    by rewrite Hh, lookup_empty. }
  split.
  - by apply wf_fresh.
  - intros event role j. rewrite Hnone. by intros ?%elem_of_nil.
  - intros event role j c. rewrite Hnone. by intros ?%elem_of_nil.
  - intros j c. by rewrite Hc, lookup_empty.
Qed.

Lemma not_attached_frame j s s' :
  frame j s s' → ¬ attached j s → ¬ attached j s'.
Proof.
  intros (_ & _ & Hh & _) Hnot (event & role & Hin). apply Hnot.
  exists event, role. by apply Hh.
Qed.

Lemma not_attached_sublist j s s' :
  (∀ event, handlers_of s' event `sublist_of` handlers_of s event) →
  ¬ attached j s → ¬ attached j s'.
Proof.
  intros Hsub Hnot (event & role & Hin). apply Hnot.
  exists event, role. by eapply elem_of_sublist.
Qed.

Lemma outcome_ok_impl timer timer' (d d' : Prop) c :
  (is_Some timer → is_Some timer') → (d → d') →
  outcome_ok timer d c → outcome_ok timer' d' c.
Proof.
  intros Ht Hd. destruct c as [env|env|env|e]; cbn; [done| | |done].
  - destruct (so_promise env); tauto.
  - destruct (tm_promise env); tauto.
Qed.

(** A step of call [j]'s callbacks keeps [sound] when it keeps it for [j]. *)
Lemma sound_local j s s' :
  sound s → wf s' → local j s s' →
  (∀ c, closures s !! j = Some c →
        ∃ c', closures s' !! j = Some c' ∧ evolves c c') →
  own_post j s s' →
  sound s'.
Proof.
  intros [Hwf Hp Ht Ho] Hwf' (Hn & Hf & Hts & Hsub) Hev Hj. split; [done| | |].
  - intros event role k Hin.
    assert (Hin0 : (role, k) ∈ handlers_of s event)
      by by eapply elem_of_sublist.
    destruct (Hp _ _ _ Hin0) as (c & Hc & Hpl).
    destruct (decide (k = j)) as [->|Hne].
    + destruct (Hev c Hc) as (c' & Hc' & He). exists c'. split; [done|].
      by eapply placed_evolves.
    + destruct (Hf k Hne) as (Hck & _). exists c. by rewrite Hck.
  - intros event role k c' Hin Hc' Hpend.
    assert (Hin0 : (role, k) ∈ handlers_of s event)
      by by eapply elem_of_sublist.
    destruct (decide (k = j)) as [->|Hne].
    + destruct (Hp _ _ _ Hin0) as (c & Hc & _).
      destruct (Hev c Hc) as (c'' & Hc'' & He).
      assert (c'' = c') by congruence. subst c''.
      destruct (Hj c' Hc') as [_ Htr]. apply (Htr Hpend event).
      eapply Ht; [done|done|]. by eapply pending_evolves.
    + destruct (Hf k Hne) as (Hck & _ & _ & Htk). apply Htk.
      rewrite Hck in Hc'. by eapply Ht.
  - intros k c' Hc'. destruct (decide (k = j)) as [->|Hne].
    + by apply Hj.
    + pose proof (Hf k Hne) as Hfr. destruct Hfr as (Hck & Htk & Hhk & _).
      rewrite Hck in Hc'. rewrite Htk.
      eapply outcome_ok_impl; [done| |by apply Ho].
      apply not_attached_frame. by apply Hf.
Qed.

Lemma own_pre_sound s j c :
  sound s → closures s !! j = Some c → own_pre j s c (timers s !! j).
Proof.
  intros Hs Hc. split; [|split].
  - intros event. apply (wf_handlers s (sound_wf s Hs)).
  - intros event role Hin.
    destruct (sound_placed s Hs _ _ _ Hin) as (c0 & Hc0 & Hpl). congruence.
  - by apply (sound_outcome s Hs).
Qed.

Lemma own_post_refl s j : sound s → own_post j s s.
Proof. intros Hs c' Hc'. split; [by apply (sound_outcome s Hs)|done]. Qed.

Lemma handlers_of_clearTimeout handle s event :
  handlers_of (clearTimeout handle s) event = handlers_of s event.
Proof. by destruct handle. Qed.

Lemma tracked_clearTimeout handle s event :
  tracked (clearTimeout handle s) event = tracked s event.
Proof. by destruct handle. Qed.

Lemma streaming_cleanup_detached j env s timer :
  own_pre j s (Streaming env) timer → ¬ attached j (streaming_cleanup j env s).
Proof.
  intros (Hnd & Hpl & _) (event & role & Hin). unfold streaming_cleanup in Hin.
  rewrite handlers_of_off, !handlers_of_clearTimeout in Hin.
  assert (Hin0 : (role, j) ∈ handlers_of s event).
  { case_decide; [|done]. subst. by eapply elem_of_sublist, remove_first_sublist. }
  specialize (Hpl _ _ Hin0). destruct role; try done. cbn in Hpl. subst event.
  rewrite decide_True in Hin by done.
  by eapply not_elem_of_remove_first.
Qed.

Lemma terminal_cleanup_detached j env s timer :
  own_pre j s (Terminal env) timer → ¬ attached j (terminal_cleanup j env s).
Proof.
  intros (Hnd & Hpl & _) (event & role & Hin). unfold terminal_cleanup in Hin.
  rewrite !handlers_of_off in Hin.
  change (handlers_of (removeListener _ _ (removeListener _ _ ?x)))
    with (handlers_of x) in Hin.
  rewrite !handlers_of_clearTimeout in Hin.
  rewrite (decide_False (P := STREAM_END = STREAM)) in Hin by done.
  assert (Hin0 : (role, j) ∈ handlers_of s event).
  { repeat case_decide; subst; try done;
      by eapply elem_of_sublist, remove_first_sublist. }
  specialize (Hpl _ _ Hin0). destruct role; try done; cbn in Hpl; subst event.
  - rewrite (decide_False (P := STREAM = STREAM_END)) in Hin by done.
    rewrite decide_True in Hin by done. by eapply not_elem_of_remove_first.
  - rewrite decide_True in Hin by done. by eapply not_elem_of_remove_first.
Qed.

Lemma parseOutput_keeps_error e line opts now :
  is_Some (error e) → is_Some (error (parseOutput e line opts now).1.1).
Proof.
  intros He. unfold parseOutput.
  destruct line as [msg|]; [|done].
  destruct (get msg "type") as [[| |b|n|ty|items|fs]|]; try done.
  repeat case_decide; try destruct (await_callback _ _ _) as [calls exn];
    cbn; eauto.
Qed.

Lemma sendJob_listener_outcome j env res s timer :
  own_pre j s (SendJob env) timer →
  closures s !! j = Some (SendJob env) →
  own_post j s (sendJob_listener j env res s).
Proof.
  intros (_ & _ & Ho) Hc c'. unfold sendJob_listener. case_decide.
  - cbn. rewrite lookup_insert_eq. intros [= <-]. split.
    + cbn in *. unfold settle_result.
      destruct (sj_promise env); destruct (success res), (output res); done.
    + intros Hp%settlement_pending. cbn in Hp.
      by apply settle_result_not_pending in Hp.
  - rewrite Hc. intros [= <-]. split; [|done]. cbn in *.
    by destruct (sj_promise env).
Qed.

Lemma sendJob_onTimeout_outcome j env s timer :
  own_pre j s (SendJob env) timer →
  own_post j s (sendJob_onTimeout j env s).
Proof.
  intros (_ & _ & Ho) c'. unfold sendJob_onTimeout.
  cbn. rewrite lookup_insert_eq. intros [= <-]. split.
  - cbn in *. by destruct (sj_promise env).
  - intros Hp%settlement_pending. cbn in Hp. by apply reject_not_pending in Hp.
Qed.

Lemma streaming_onTimeout_outcome j env s timer :
  own_pre j s (Streaming env) timer →
  own_post j s (streaming_onTimeout j env s).
Proof.
  intros Hpre c'. pose proof (streaming_cleanup_detached j env s timer Hpre) as Hd.
  destruct Hpre as (_ & _ & Ho). unfold streaming_onTimeout.
  cbn. rewrite lookup_insert_eq. intros [= <-]. split.
  - cbn in *. destruct (so_promise env); cbn; tauto.
  - intros Hp%settlement_pending. cbn in Hp. by apply reject_not_pending in Hp.
Qed.

Lemma terminal_onTimeout_outcome j env s timer :
  own_pre j s (Terminal env) timer →
  own_post j s (terminal_onTimeout j env s).
Proof.
  intros Hpre c'. pose proof (terminal_cleanup_detached j env s timer Hpre) as Hd.
  destruct Hpre as (_ & _ & Ho). unfold terminal_onTimeout.
  cbn. rewrite lookup_insert_eq. intros [= <-]. split.
  - cbn in *. destruct (tm_promise env); cbn; tauto.
  - intros Hp%settlement_pending. cbn in Hp. by apply reject_not_pending in Hp.
Qed.

Lemma outputListener_outcome j env res now s :
  own_pre j s (Streaming env) (timers s !! j) →
  closures s !! j = Some (Streaming env) →
  own_post j s (outputListener j env res now s).
Proof.
  intros Hpre Hc c'.
  pose proof (streaming_cleanup_detached j env s _ Hpre) as Hd.
  destruct Hpre as (_ & _ & Ho). unfold outputListener. case_decide.
  - pose proof (parseOutput_keeps_error (so_execution env) (jo_line res)
                  (so_opts env) now) as Hkeep.
    destruct (parseOutput _ _ _ _) as [[execution calls] [e|]]; cbn in Hkeep.
    + cbn. rewrite lookup_insert_eq. intros [= <-]. split.
      * cbn in *. destruct (so_promise env); cbn; tauto.
      * intros Hp%settlement_pending. cbn in Hp.
        by apply reject_not_pending in Hp.
    + destruct (error execution) as [err|] eqn:Herr.
      * cbn. rewrite lookup_insert_eq. intros [= <-]. split.
        -- cbn in *. rewrite Herr. destruct (so_promise env); cbn; try tauto.
           by eauto.
        -- intros Hp%settlement_pending. cbn in Hp.
           by apply resolve_not_pending in Hp.
      * cbn. rewrite lookup_insert_eq. intros [= <-]. split; [|done].
        cbn in *. rewrite Herr. destruct (so_promise env); cbn; try tauto;
          destruct Ho as (He & _); apply Hkeep in He; by destruct He.
  - rewrite Hc. intros [= <-]. by split.
Qed.

Lemma streamListener_outcome j env res now s :
  own_pre j s (Terminal env) (timers s !! j) →
  closures s !! j = Some (Terminal env) →
  own_post j s (streamListener j env res now s).1.
Proof.
  intros (_ & _ & Ho) Hc c'. unfold streamListener. case_decide.
  - cbn. rewrite lookup_insert_eq. intros [= <-]. by split.
  - cbn. rewrite Hc. intros [= <-]. by split.
Qed.

Lemma endListener_outcome j env res now s :
  own_pre j s (Terminal env) (timers s !! j) →
  closures s !! j = Some (Terminal env) →
  own_post j s (endListener j env res now s).
Proof.
  intros Hpre Hc c'.
  pose proof (terminal_cleanup_detached j env s _ Hpre) as Hd.
  destruct Hpre as (_ & _ & Ho). unfold endListener. case_decide.
  - cbn. rewrite lookup_insert_eq. intros [= <-]. split.
    + cbn in *. destruct (tm_promise env); cbn; tauto.
    + intros Hp%settlement_pending. cbn in Hp.
      by apply resolve_not_pending in Hp.
  - rewrite Hc. intros [= <-]. by split.
Qed.

Lemma sound_invoke l msg now s : sound s → sound (invoke l msg now s).1.
Proof.
  intros Hs. pose proof (sound_wf s Hs) as Hwf.
  apply (sound_local l.2 s); [done|by apply invoke_wf| | |].
  - apply invoke_local. intros c h. by apply wf_handle.
  - intros c. by apply invoke_evolves.
  - unfold invoke.
    destruct (closures s !! l.2) as [[env|env|env|e]|] eqn:Hc;
      try (by apply own_post_refl);
      pose proof (own_pre_sound s l.2 _ Hs Hc) as Hpre;
      destruct l.1, msg; try (by apply own_post_refl).
    + by eapply sendJob_listener_outcome.
    + by apply outputListener_outcome.
    + by apply streamListener_outcome.
    + by apply endListener_outcome.
Qed.

Lemma sound_deliver ls msg now s : sound s → sound (deliver ls msg now s).
Proof.
  revert s. induction ls as [|l ls IH]; intros s Hs; [done|]. cbn.
  pose proof (sound_invoke l msg now s Hs) as Hs'.
  destruct (invoke l msg now s) as [s' [e|]]; auto.
Qed.

(** *** Calls *)

Lemma sound_same s s' :
  closures s' = closures s → timers s' = timers s → nextId s' = nextId s →
  socket s' = socket s → listeners s' = listeners s → sound s → sound s'.
Proof.
  intros Hc Ht Hn Hk Hl [Hwf Hp Htr Ho].
  split; unfold attached, handlers_of, tracked in *;
    rewrite ?Hc, ?Ht, ?Hn, ?Hk, ?Hl; try done.
  by apply (wf_same s).
Qed.

Lemma sound_call c s s1 :
  sound s → wf (alloc c s1) →
  closures s1 = closures s → nextId s1 = nextId s →
  (∀ k, k ≠ nextId s → timers s1 !! k = timers s !! k) →
  (∀ event l, l ∈ handlers_of s1 event →
     l ∈ handlers_of s event
     ∨ (l.2 = nextId s ∧ placed c l.1 event ∧ l ∈ tracked s1 event)) →
  (∀ event, tracked s event ⊆ tracked s1 event) →
  outcome_ok (timers s1 !! nextId s) (¬ attached (nextId s) s1) c →
  sound (alloc c s1).
Proof.
  intros [Hwf Hp Htr Ho] Hwf' Hcs Hn Hts Hh Htk Hoc.
  assert (Hold : ∀ event l, l ∈ handlers_of s event → (l.2 < nextId s)%nat).
  { intros event l Hin. destruct (wf_handlers s Hwf event) as [_ Hb].
    rewrite Forall_forall in Hb. by apply Hb. }
  split; [done| | |].
  - intros event role k Hin.
    change (handlers_of (alloc c s1)) with (handlers_of s1) in Hin.
    destruct (Hh _ _ Hin) as [Hin0|(Hk & Hpl & _)]; cbn in *.
    + destruct (Hp _ _ _ Hin0) as (c0 & Hc0 & Hpl). exists c0.
      pose proof (Hold _ _ Hin0). cbn in *.
      rewrite lookup_insert_ne, Hcs by lia. done.
    + subst k. exists c. by rewrite Hn, lookup_insert_eq.
  - intros event role k c0 Hin Hc0 Hpend.
    change (handlers_of (alloc c s1)) with (handlers_of s1) in Hin.
    change (tracked (alloc c s1)) with (tracked s1).
    destruct (Hh _ _ Hin) as [Hin0|(_ & _ & Hin1)]; [|done]. cbn in Hc0.
    pose proof (Hold _ _ Hin0). cbn in *.
    rewrite lookup_insert_ne, Hcs in Hc0 by lia.
    apply Htk. by eapply Htr.
  - intros k c0. cbn. rewrite Hn.
    change (attached k (alloc c s1)) with (attached k s1).
    destruct (decide (k = nextId s)) as [->|Hne].
    + rewrite lookup_insert_eq. by intros [= <-].
    + rewrite lookup_insert_ne, Hcs by done. intros Hc0. rewrite Hts by done.
      eapply outcome_ok_impl; [done| |by apply Ho].
      intros Hnot (event & role & Hin). destruct (Hh _ _ Hin) as [Hin0|(Hk & _)].
      * apply Hnot. by exists event, role.
      * done.
Qed.

Lemma sound_failed e s : sound s → sound (alloc (Failed e) s).
Proof.
  intros Hs. apply (sound_call _ s); try done.
  - apply wf_failed, (sound_wf s Hs).
  - intros event l. by left.
Qed.

Lemma sendJob_sound event payload timeoutMs uuid now s :
  sound s → sound (sendJob event payload timeoutMs uuid now s).
Proof.
  intros Hs. pose proof (sendJob_wf event payload timeoutMs uuid now s
                           (sound_wf s Hs)) as Hwf'.
  unfold sendJob in *.
  destruct (socket s) as [sock|] eqn:Hsock; [|by apply sound_failed].
  apply (sound_call _ s); try done.
  - intros k Hk. cbn. by rewrite lookup_insert_ne.
  - intros event' l. rewrite handlers_of_emit, handlers_of_on
      by (cbn; rewrite Hsock; eauto).
    change (handlers_of (trackListener _ _ _)) with (handlers_of s).
    change (tracked (upd_socket _ (upd_socket _ ?x))) with (tracked x).
    rewrite tracked_trackListener.
    case_decide; subst; [|by left].
    intros [Hin| ->%list_elem_of_singleton]%elem_of_app; [by left|right].
    repeat split. set_solver.
  - intros event'.
    change (tracked (upd_socket _ (upd_socket _ ?x))) with (tracked x).
    rewrite tracked_trackListener. case_decide; subst; set_solver.
Qed.

Lemma sendStreamingJob_sound event payload execution metadata opts uuid now s :
  sound s →
  sound (sendStreamingJob event payload execution metadata opts uuid now s).
Proof.
  intros Hs.
  pose proof (sendStreamingJob_wf event payload execution metadata opts uuid
                now s (sound_wf s Hs)) as Hwf'.
  unfold sendStreamingJob in *.
  destruct (socket s) as [sock|] eqn:Hsock; [|by apply sound_failed].
  apply (sound_call _ s); try done.
  - intros k Hk. cbn. by rewrite lookup_insert_ne.
  - intros event' l. rewrite handlers_of_emit, handlers_of_on
      by (cbn; rewrite Hsock; eauto).
    change (handlers_of (trackListener _ _ _)) with (handlers_of s).
    change (tracked (upd_socket _ (upd_socket _ ?x))) with (tracked x).
    rewrite tracked_trackListener.
    case_decide; subst; [|by left].
    intros [Hin| ->%list_elem_of_singleton]%elem_of_app; [by left|right].
    repeat split. set_solver.
  - intros event'.
    change (tracked (upd_socket _ (upd_socket _ ?x))) with (tracked x).
    rewrite tracked_trackListener. case_decide; subst; set_solver.
  - cbn. rewrite lookup_insert_eq. eauto.
Qed.

Lemma runTerminal_sound sandbox command opts uuid now s :
  sound s → sound (runTerminal sandbox command opts uuid now s).
Proof.
  intros Hs.
  pose proof (runTerminal_wf sandbox command opts uuid now s
                (sound_wf s Hs)) as Hwf'.
  unfold runTerminal in *. destruct (isReady s); [|done].
  pose proof (checkRateLimit_same now s) as (Hc & Ht & Hn & Hk & Hl).
  destruct (checkRateLimit now s) as [s1 limited]. cbn in Hc, Ht, Hn, Hk, Hl.
  assert (Hs1 : sound s1) by by eapply sound_same.
  destruct limited as [e|]; [by apply sound_failed|].
  case_decide; [|by apply sound_failed].
  destruct (socket s1) as [sock|] eqn:Hsock; [|by apply sound_failed].
  apply (sound_call _ s1); try done.
  - intros k Hne. cbn. by rewrite lookup_insert_ne.
  - intros event' l. rewrite handlers_of_emit.
    rewrite !handlers_of_on by (cbn; rewrite Hsock; eauto).
    change (handlers_of (trackListener _ _ _)) with (handlers_of s1).
    change (tracked (upd_socket _ (upd_socket _ (upd_socket _ ?x))))
      with (tracked x).
    rewrite !tracked_trackListener.
    repeat case_decide; subst; try done; try (by left).
    + intros [Hin| ->%list_elem_of_singleton]%elem_of_app; [by left|right].
      repeat split. set_solver.
    + intros [Hin| ->%list_elem_of_singleton]%elem_of_app; [by left|right].
      repeat split. set_solver.
  - intros event'.
    change (tracked (upd_socket _ (upd_socket _ (upd_socket _ ?x))))
      with (tracked x).
    rewrite !tracked_trackListener. repeat case_decide; subst; set_solver.
  - cbn. rewrite lookup_insert_eq. eauto.
Qed.

(** *** Timers *)

Lemma timerFires_local handle now s :
  wf s → local handle s (step (TimerFires handle now) s).
Proof.
  intros Hwf. cbn.
  destruct (timers s !! handle) as [due|]; [|apply local_refl].
  case_decide; [|apply local_refl].
  eapply local_trans; [apply local_delete_timer|]. apply fire_local.
  intros c h Hc. by apply (wf_closures s Hwf handle c Hc).
Qed.

Lemma sound_timerFires handle now s :
  sound s → sound (step (TimerFires handle now) s).
Proof.
  intros Hs. pose proof (sound_wf s Hs) as Hwf.
  apply (sound_local handle s);
    [done|by apply wf_step|by apply timerFires_local| |].
  - intros c. by apply step_evolves.
  - cbn. destruct (timers s !! handle) as [due|]; [|by apply own_post_refl].
    case_decide; [|by apply own_post_refl].
    set (s1 := upd_timers (delete handle) s).
    assert (Hpost : own_post handle s1 (fire handle s1)
                    → own_post handle s (fire handle s1)) by done.
    apply Hpost. unfold fire. change (closures s1) with (closures s).
    destruct (closures s !! handle) as [c|] eqn:Hc.
    2:{ intros c'. change (closures s1) with (closures s). by rewrite Hc. }
    assert (Hpre : own_pre handle s1 c (timers s !! handle))
      by apply (own_pre_sound s handle c Hs Hc).
    destruct c as [env|env|env|e].
    + by eapply sendJob_onTimeout_outcome.
    + by eapply streaming_onTimeout_outcome.
    + by eapply terminal_onTimeout_outcome.
    + intros c'. change (closures s1) with (closures s). rewrite Hc.
      by intros [= <-].
Qed.

(** *** Disconnection *)

Lemma cleanupAllListeners_sublist s event :
  handlers_of (cleanupAllListeners s) event `sublist_of` handlers_of s event.
Proof.
  unfold handlers_of, cleanupAllListeners. cbn.
  destruct (socket s) as [sock|]; [|done]. cbn. apply detach_sublist.
Qed.

Lemma foldr_off_detaches ev l ls sock :
  NoDup (default [] (handlers sock !! ev)) → l ∈ ls →
  l ∉ default [] (handlers (foldr (off ev) sock ls) !! ev).
Proof.
  intros Hnd. induction ls as [|x ls IH]; [by intros ?%elem_of_nil|].
  intros Hin.
  change (foldr (off ev) sock (x :: ls)) with (off ev x (foldr (off ev) sock ls)).
  rewrite handlers_off, decide_True by done.
  assert (Hnd' : NoDup (default [] (handlers (foldr (off ev) sock ls) !! ev))).
  { eapply sublist_NoDup; [exact Hnd|apply foldr_off_sublist]. }
  destruct (decide (x = l)) as [->|Hne].
  - by apply not_elem_of_remove_first.
  - apply elem_of_cons in Hin as [|Hin]; [congruence|].
    intros Hin'. apply (IH Hin).
    by eapply elem_of_sublist, remove_first_sublist.
Qed.

Lemma detach_detaches (items : list (string * gset Listener)) sock ev ls l :
  NoDup (default [] (handlers sock !! ev)) →
  (ev, ls) ∈ items → l ∈ ls →
  l ∉ default []
        (handlers (foldr (fun '(ev, ls) sk => foldr (off ev) sk (elements ls))
                     sock items) !! ev).
Proof.
  intros Hnd Hitem Hl. induction items as [|[ev' ls'] items IH];
    [by apply elem_of_nil in Hitem|].
  rewrite foldr_cons.
  apply elem_of_cons in Hitem as [[= <- <-]|Hitem].
  - apply foldr_off_detaches; [|by apply elem_of_elements].
    eapply sublist_NoDup; [exact Hnd|apply detach_sublist].
  - intros Hin. apply (IH Hitem).
    by eapply elem_of_sublist, foldr_off_sublist.
Qed.

Lemma cleanupAllListeners_detaches s event l :
  NoDup (handlers_of s event) → l ∈ tracked s event →
  l ∉ handlers_of (cleanupAllListeners s) event.
Proof.
  unfold tracked, handlers_of, cleanupAllListeners. cbn.
  destruct (socket s) as [sock|]; cbn; [|by intros _ _ ?%elem_of_nil].
  destruct (listeners s !! event) as [ls|] eqn:Hls; cbn; [|set_solver].
  intros Hnd Hl. eapply detach_detaches; [done| |done].
  by apply elem_of_map_to_list.
Qed.

Lemma sound_disconnect s : sound s → sound (step SocketDisconnect s).
Proof.
  intros Hs. pose proof Hs as [Hwf Hp Htr Ho].
  assert (Hsub : ∀ event, handlers_of (step SocketDisconnect s) event
                          `sublist_of` handlers_of s event).
  { intros event. apply (cleanupAllListeners_sublist (set_isConnected false s)). }
  split.
  - by apply wf_step.
  - intros event role j Hin. apply Hp. by eapply elem_of_sublist.
  - intros event role j c Hin Hc Hpend. exfalso.
    assert (Hin0 : (role, j) ∈ handlers_of s event)
      by by eapply elem_of_sublist.
    revert Hin. apply (cleanupAllListeners_detaches (set_isConnected false s)).
    + apply (wf_handlers s Hwf).
    + by apply (Htr event role j c).
  - intros j c Hc.
    eapply outcome_ok_impl; [done| |by apply (Ho j c)].
    by apply not_attached_sublist.
Qed.

Theorem sound_step ev s : sound s → sound (step ev s).
Proof.
  intros Hs. destruct ev.
  - by apply sendJob_sound.
  - by apply sendStreamingJob_sound.
  - by apply runTerminal_sound.
  - by apply sound_timerFires.
  - cbn. destruct (socket s); [by apply sound_deliver|done].
  - by apply (sound_same s).
  - by apply sound_disconnect.
Qed.

Theorem sound_run tr s : sound s → sound (run tr s).
Proof.
  revert s. induction tr as [|ev tr IH]; intros s Hs; [done|].
  cbn. by apply IH, sound_step.
Qed.

Lemma sound_reachable s0 tr : fresh s0 → sound (run tr s0).
Proof. intros Hf. by apply sound_run, sound_fresh. Qed.

Lemma pending_timer_armed s j c :
  sound s → closures s !! j = Some c → settlement c = StillPending →
  is_Some (timers s !! j) ∧ handle_of c = Some j.
Proof.
  intros Hs Hc Hpend.
  destruct (wf_closures s (sound_wf s Hs) j c Hc) as (_ & _ & _ & Hh & Hinv).
  split; [|by apply Hh].
  pose proof (sound_outcome s Hs j c Hc) as Ho.
  destruct c as [env|env|env|e]; cbn in *; try done.
  - unfold sendJob_inv in Hinv. by destruct (sj_promise env).
  - by destruct (so_promise env).
  - by destruct (tm_promise env).
Qed.

Lemma settled_timer_disarmed s j c :
  sound s → closures s !! j = Some c → settlement c ≠ StillPending →
  timers s !! j = None.
Proof.
  intros Hs Hc Hset.
  destruct (wf_closures s (sound_wf s Hs) j c Hc) as (_ & _ & Hn & _ & Hinv).
  pose proof (sound_outcome s Hs j c Hc) as Ho.
  destruct c as [env|env|env|e]; cbn in *.
  - unfold sendJob_inv in Hinv.
    destruct (sj_promise env) as [|v|[]]; cbn in *; intuition.
  - destruct (so_promise env); cbn in *; intuition.
  - destruct (tm_promise env); cbn in *; intuition.
  - by apply Hn.
Qed.

(** The timer of a pending call, when it fires. *)
Lemma timerFires_pending s j c due now :
  wf s → closures s !! j = Some c → settlement c = StillPending →
  timers s !! j = Some due → due <= now →
  ∃ c' e, timeout_error c = Some e
          ∧ closures (step (TimerFires j now) s) !! j = Some c'
          ∧ settlement c' = RejectedWith e
          ∧ timers (step (TimerFires j now) s) !! j = None.
Proof.
  intros Hwf Hc Hpend Hdue Hnow.
  destruct (wf_closures s Hwf j c Hc) as (_ & Hh & _ & _ & _).
  cbn. rewrite Hdue, decide_True by done.
  set (s1 := upd_timers (delete j) s).
  assert (Hgone : timers s1 !! j = None) by apply lookup_delete_eq.
  unfold fire. change (closures s1) with (closures s). rewrite Hc.
  destruct c as [env|env|env|e]; cbn in Hpend, Hh; [| | |done];
    apply settlement_pending in Hpend.
  - eexists _, _. split; [done|]. cbn. rewrite lookup_insert_eq.
    split; [done|]. by rewrite Hpend.
  - eexists _, _. split; [done|]. cbn. rewrite lookup_insert_eq.
    split; [done|]. rewrite Hpend. split; [done|].
    by apply timers_clearTimeout.
  - eexists _, _. split; [done|]. cbn. rewrite lookup_insert_eq.
    split; [done|]. rewrite Hpend. split; [done|].
    by apply timers_clearTimeout.
Qed.

(** X7.  How a streaming job (runCode) can end.  In every state the SDK
    can reach, a job whose promise is pending has its timer armed; once the
    promise is settled the timer is disarmed and no handler of the job is
    left on the socket; and a fulfilled promise always carries an execution
    whose [error] is set: the only message that makes sendStreamingJob
    resolve is an "error" message. *)
Theorem streaming_job_outcomes s0 tr j env :
  fresh s0 → closures (run tr s0) !! j = Some (Streaming env) →
  let s := run tr s0 in
  (so_promise env = Pending → is_Some (timers s !! j))
  ∧ (so_promise env ≠ Pending → timers s !! j = None ∧ ¬ attached j s)
  ∧ (∀ execution metadata timestamp,
       executionResult env = Some (execution, metadata, timestamp) →
       is_Some (error execution)).
Proof.
  intros Hf Hc. cbn zeta.
  pose proof (sound_reachable s0 tr Hf) as Hs.
  pose proof (sound_outcome _ Hs j _ Hc) as Ho. cbn in Ho.
  split; [|split].
  - intros Hp. by rewrite Hp in Ho.
  - intros Hp. split.
    + eapply settled_timer_disarmed; [done|done|]. cbn.
      by destruct (so_promise env).
    + destruct (so_promise env); [done|tauto|tauto].
  - intros execution metadata timestamp. unfold executionResult.
    destruct (so_promise env); try done. intros [= <- _ _]. tauto.
Qed.

Lemma streaming_job_outcomes_witness :
  let metadata := {| executionId := "e1"; sandboxId := "sb";
                     startTime := Some 0; endTime := None; duration := None |} in
  let chunk fields :=
    Incoming (JobOutput {| jo_jobId := "J"; jo_line := Some (VObj fields) |}) in
  let tr :=
    [CallSendStreamingJob EXECUTE VNull new_Execution metadata None "J" 0;
     chunk [("type", VStr "stdout"); ("text", VStr "a")]%string 1;
     chunk [("type", VStr "error"); ("name", VStr "ValueError");
            ("value", VStr "bad"); ("traceback", VStr "...")]%string 2] in
  let s := run tr (new None) in
  ∃ env, closures s !! 0%nat = Some (Streaming env)
         ∧ so_promise env = Fulfilled 2
         ∧ is_Some (error (so_execution env))
         ∧ timers s !! 0%nat = None ∧ ¬ attached 0 s.
Proof.
  intros metadata chunk tr s.
  assert (Hc : ∃ env, closures s !! 0%nat = Some (Streaming env)
                      ∧ so_promise env = Fulfilled 2
                      ∧ executionResult env
                        = Some (so_execution env, so_metadata env, 2)).
  { eexists. split; [vm_compute; reflexivity|]. split; reflexivity. }
  destruct Hc as (env & Hc & Hp & Hr). exists env.
  destruct (streaming_job_outcomes (new None) tr 0 env) as (_ & Hset & Herr).
  - repeat split; reflexivity.
  - exact Hc.
  - split; [exact Hc|]. split; [exact Hp|]. split; [by eapply Herr|].
    apply Hset. by rewrite Hp.
Defined.

(** X8.  How a terminal job (runTerminal) can end.  In every reachable
    state, a pending job has its timer armed; a settled one has its timer
    disarmed and neither of its two handlers on the socket; and the promise
    is never rejected with anything but its own timeout error: no message
    and no failing onStdout callback rejects a terminal job. *)
Theorem terminal_job_outcomes s0 tr j env :
  fresh s0 → closures (run tr s0) !! j = Some (Terminal env) →
  let s := run tr s0 in
  (tm_promise env = Pending → is_Some (timers s !! j))
  ∧ (tm_promise env ≠ Pending → timers s !! j = None ∧ ¬ attached j s)
  ∧ (∀ e, tm_promise env = Rejected e →
          e = TimeoutError "Terminal command" (tm_timeout env)).
Proof.
  intros Hf Hc. cbn zeta.
  pose proof (sound_reachable s0 tr Hf) as Hs.
  pose proof (sound_outcome _ Hs j _ Hc) as Ho. cbn in Ho.
  split; [|split].
  - intros Hp. by rewrite Hp in Ho.
  - intros Hp. split.
    + eapply settled_timer_disarmed; [done|done|]. cbn.
      by destruct (tm_promise env).
    + destruct (tm_promise env); [done|tauto|tauto].
  - intros e Hp. rewrite Hp in Ho. tauto.
Qed.

Lemma terminal_job_outcomes_witness :
  let boom := Thrown (VStr "boom") in
  let opts := {| onStdout := Some (fun _ => Throws boom); onStderr := None;
                 onResult := None; onError := None; timeoutMs := Some 500 |} in
  let s0 :=
    mkSdk (Some {| handlers := ∅; emitted := [] |}) true 60000 ∅ {["sb"]}
      MetricsCollector.new (RateLimiter.new (Some 60)) ∅ ∅ 0 in
  let tr :=
    [CallRunTerminal "sb" "ls" (Some opts) "T" 0;
     Incoming (StreamChunk {| sc_jobId := "T"; chunk := "x";
                              sc_timestamp := None |}) 1;
     TimerFires 0 500] in
  let s := run tr s0 in
  ∃ env, closures s !! 0%nat = Some (Terminal env)
         ∧ tm_promise env = Rejected (TimeoutError "Terminal command" 500)
         ∧ tm_output env = "x"%string
         ∧ timers s !! 0%nat = None ∧ ¬ attached 0 s.
Proof.
  intros boom opts s0 tr s.
  assert (Hc : ∃ env, closures s !! 0%nat = Some (Terminal env)
                      ∧ tm_promise env
                        = Rejected (TimeoutError "Terminal command" 500)
                      ∧ tm_output env = "x"%string).
  { eexists. split; [vm_compute; reflexivity|]. split; reflexivity. }
  destruct Hc as (env & Hc & Hp & Hout). exists env.
  destruct (terminal_job_outcomes s0 tr 0 env) as (_ & Hset & _).
  - repeat split; reflexivity.
  - exact Hc.
  - split; [exact Hc|]. split; [exact Hp|]. split; [exact Hout|].
    apply Hset. by rewrite Hp.
Defined.

(** X9.  Every pending call has a deadline, whichever function made it.
    In every reachable state a call whose promise is pending (sendJob,
    sendStreamingJob or runTerminal) has its timer armed; the timer does
    nothing before it is due; and once due it rejects the promise with the
    call's own timeout error ("Job", "Code execution" or "Terminal command",
    with the timeout the call was made with), disarms, and the rejection
    stays whatever happens next. *)
Theorem pending_job_times_out s0 tr j c :
  fresh s0 → closures (run tr s0) !! j = Some c →
  settlement c = StillPending →
  let s := run tr s0 in
  ∃ due e,
    timers s !! j = Some due ∧ timeout_error c = Some e
    ∧ (∀ now, now < due → step (TimerFires j now) s = s)
    ∧ (∀ now, due <= now →
         let s' := step (TimerFires j now) s in
         timers s' !! j = None
         ∧ ∀ tr', ∃ c', closures (run tr' s') !! j = Some c'
                        ∧ settlement c' = RejectedWith e).
Proof.
  intros Hf Hc Hpend. cbn zeta.
  pose proof (sound_reachable s0 tr Hf) as Hs.
  pose proof (sound_wf _ Hs) as Hwf.
  destruct (pending_timer_armed _ j c Hs Hc Hpend) as [[due Hdue] _].
  assert (He : ∃ e, timeout_error c = Some e).
  { destruct c; cbn in *; eauto. done. }
  destruct He as [e He]. exists due, e. split; [done|]. split; [done|]. split.
  - intros now Hnow. cbn. rewrite Hdue. by rewrite decide_False by lia.
  - intros now Hnow.
    destruct (timerFires_pending _ j c due now Hwf Hc Hpend Hdue Hnow)
      as (c' & e' & He' & Hc' & Hset & Ht).
    assert (e' = e) by congruence. subst e'.
    split; [done|]. intros tr'.
    destruct (run_evolves tr' _ j c' (wf_step _ _ Hwf) Hc')
      as (c'' & Hc'' & _ & Hkeep & _).
    exists c''. split; [done|]. rewrite Hkeep; [done|]. by rewrite Hset.
Qed.

Lemma pending_job_times_out_witness :
  let metadata := {| executionId := "e1"; sandboxId := "sb";
                     startTime := Some 0; endTime := None; duration := None |} in
  let opts := {| onStdout := None; onStderr := None; onResult := None;
                 onError := None; timeoutMs := Some 2000 |} in
  let tr :=
    [CallSendStreamingJob EXECUTE VNull new_Execution metadata (Some opts)
       "J" 100;
     Incoming (JobOutput {| jo_jobId := "J";
                            jo_line := Some (VObj [("type", VStr "stdout");
                                                   ("text", VStr "a")]%string) |})
       150] in
  let s := run tr (new None) in
  timers s !! 0%nat = Some 2100
  ∧ step (TimerFires 0 2099) s = s
  ∧ ∃ c', closures (run [SocketDisconnect; SocketConnect]
                      (step (TimerFires 0 2100) s)) !! 0%nat = Some c'
          ∧ settlement c' = RejectedWith (TimeoutError "Code execution" 2000).
Proof.
  intros metadata opts tr s.
  assert (Hc : ∃ c, closures s !! 0%nat = Some c
                    ∧ settlement c = StillPending
                    ∧ timeout_error c
                      = Some (TimeoutError "Code execution" 2000)).
  { eexists. split; [vm_compute; reflexivity|]. split; reflexivity. }
  destruct Hc as (c & Hc & Hpend & He).
  assert (Hdue : timers s !! 0%nat = Some 2100) by (vm_compute; reflexivity).
  destruct (pending_job_times_out (new None) tr 0 c)
    as (due & e & Hdue' & He' & Hbefore & Hafter).
  - repeat split; reflexivity.
  - exact Hc.
  - exact Hpend.
  - fold s in Hdue', Hbefore, Hafter.
    assert (due = 2100) by congruence. assert (e = TimeoutError "Code execution" 2000)
      by congruence. subst due e.
    split; [exact Hdue|]. split; [apply Hbefore; lia|].
    apply (Hafter 2100); lia.
Defined.

(** *** After a disconnection *)

(** A call attaches no handler of an earlier call. *)
Lemma call_handlers ev s event l :
  l ∈ handlers_of (step ev s) event →
  match ev with
  | CallSendJob _ _ _ _ _ | CallSendStreamingJob _ _ _ _ _ _ _
  | CallRunTerminal _ _ _ _ _ => l ∈ handlers_of s event ∨ l.2 = nextId s
  | _ => True
  end.
Proof.
  destruct ev; try done; cbn [step].
  - unfold sendJob. destruct (socket s) as [sock|] eqn:Hsock; [|by left].
    change (handlers_of (alloc _ ?x)) with (handlers_of x).
    rewrite handlers_of_emit, handlers_of_on by (cbn; rewrite Hsock; eauto).
    change (handlers_of (trackListener _ _ _)) with (handlers_of s).
    case_decide; subst; [|by left].
    intros [Hin| ->%list_elem_of_singleton]%elem_of_app; [by left|by right].
  - unfold sendStreamingJob.
    destruct (socket s) as [sock|] eqn:Hsock; [|by left].
    change (handlers_of (alloc _ ?x)) with (handlers_of x).
    rewrite handlers_of_emit, handlers_of_on by (cbn; rewrite Hsock; eauto).
    change (handlers_of (trackListener _ _ _)) with (handlers_of s).
    case_decide; subst; [|by left].
    intros [Hin| ->%list_elem_of_singleton]%elem_of_app; [by left|by right].
  - unfold runTerminal. destruct (isReady s); [|by left].
    pose proof (checkRateLimit_same now s) as (_ & _ & Hn & Hk & _).
    destruct (checkRateLimit now s) as [s1 limited]. cbn in Hn, Hk.
    assert (Hh : ∀ ev', handlers_of s1 ev' = handlers_of s ev')
      by (intros ev'; unfold handlers_of; by rewrite Hk).
    rewrite <- Hn, <- Hh.
    destruct limited as [e|]; [by left|].
    case_decide; [|by left].
    destruct (socket s1) as [sock|] eqn:Hsock; [|by left].
    change (handlers_of (alloc _ ?x)) with (handlers_of x).
    rewrite handlers_of_emit.
    rewrite !handlers_of_on by (cbn; rewrite Hsock; eauto).
    change (handlers_of (trackListener _ _ _)) with (handlers_of s1).
    repeat case_decide; subst; try done; try (by left);
      (intros [Hin| ->%list_elem_of_singleton]%elem_of_app; [by left|by right]).
Qed.

(** A pending call none of whose handlers is on the socket can only be
    ended by its timer. *)
Lemma detached_step ev s j c :
  sound s → closures s !! j = Some c → settlement c = StillPending →
  ¬ attached j s →
  (closures (step ev s) !! j = Some c ∧ ¬ attached j (step ev s))
  ∨ (∃ c' e, timeout_error c = Some e
             ∧ closures (step ev s) !! j = Some c'
             ∧ settlement c' = RejectedWith e).
Proof.
  intros Hs Hc Hpend Hdet. pose proof (sound_wf s Hs) as Hwf.
  assert (Hb : (j < nextId s)%nat) by by apply (wf_closures s Hwf j c Hc).
  pose proof (call_closures ev s j Hwf Hb) as Hcall.
  assert (Hcalls : (∀ event l, l ∈ handlers_of (step ev s) event →
                      l ∈ handlers_of s event ∨ l.2 = nextId s) →
                   ¬ attached j (step ev s)).
  { intros Hh (event & role & Hin). destruct (Hh _ _ Hin) as [Hin0|Hk].
    - apply Hdet. by exists event, role.
    - cbn in Hk. lia. }
  destruct ev as [event payload tmo uuid now|event payload execution metadata
                  opts uuid now|sandbox command opts uuid now|handle now|msg now| |].
  - left. split; [by rewrite Hcall|]. apply Hcalls. intros event' l.
    apply (call_handlers (CallSendJob event payload tmo uuid now)).
  - left. split; [by rewrite Hcall|]. apply Hcalls. intros event' l.
    apply (call_handlers
             (CallSendStreamingJob event payload execution metadata opts uuid now)).
  - left. split; [by rewrite Hcall|]. apply Hcalls. intros event' l.
    apply (call_handlers (CallRunTerminal sandbox command opts uuid now)).
  - destruct (decide (handle = j)) as [->|Hne].
    + destruct (pending_timer_armed s j c Hs Hc Hpend) as [[due Hdue] _].
      destruct (decide (due <= now)) as [Hnow|Hnow].
      * right.
        destruct (timerFires_pending s j c due now Hwf Hc Hpend Hdue Hnow)
          as (c' & e & He & Hc' & Hset & _). by exists c', e.
      * left. cbn. rewrite Hdue, decide_False by done. by split.
    + left. destruct (timerFires_local handle now s Hwf) as (_ & Hf & _).
      pose proof (Hf j ltac:(done)) as Hfr. split.
      * destruct Hfr as [-> _]. done.
      * by eapply not_attached_frame.
  - left. rewrite handlers_of_step_incoming.
    assert (Hfr : frame j s (deliver (handlers_of s (event_of msg)) msg now s)).
    { apply deliver_frame_others; [done|]. intros Hin. apply Hdet.
      by exists (event_of msg), (role_of msg). }
    split.
    + destruct Hfr as [-> _]. done.
    + by eapply not_attached_frame.
  - left. by split.
  - left. split; [done|].
    eapply not_attached_sublist; [|done]. intros event.
    apply (cleanupAllListeners_sublist (set_isConnected false s)).
Qed.

(** *** The registry entry of a streaming job *)

Lemma tracked_output_invoke l msg now s :
  tracked (invoke l msg now s).1 JOB_OUTPUT = tracked s JOB_OUTPUT.
Proof.
  unfold invoke.
  destruct (closures s !! l.2) as [[env|env|env|e]|]; try done;
    destruct l.1, msg; try done; cbn [fst].
  - unfold sendJob_listener. case_decide; [|done].
    change (tracked (set_closure _ _ (upd_socket _ ?x))) with (tracked x).
    rewrite tracked_removeListener, decide_False by done.
    apply tracked_clearTimeout.
  - unfold outputListener. case_decide; [|done].
    destruct (parseOutput _ _ _ _) as [[execution calls] [e|]].
    + apply (tracked_clearTimeout (so_timeoutHandle env)).
    + destruct (error execution); [|done].
      apply (tracked_clearTimeout (so_timeoutHandle env)).
  - unfold streamListener. by case_decide.
  - unfold endListener. case_decide; [|done]. unfold terminal_cleanup.
    change (tracked (set_closure _ _ (upd_metricsCollector _
              (upd_socket _ (upd_socket _ ?x))))) with (tracked x).
    rewrite !tracked_removeListener, !decide_False by done.
    apply tracked_clearTimeout.
Qed.

Lemma tracked_output_deliver ls msg now s :
  tracked (deliver ls msg now s) JOB_OUTPUT = tracked s JOB_OUTPUT.
Proof.
  revert s. induction ls as [|l ls IH]; intros s; [done|]. cbn.
  pose proof (tracked_output_invoke l msg now s) as Hl.
  destruct (invoke l msg now s) as [s' [e|]]; cbn in Hl; [done|].
  by rewrite IH.
Qed.

Lemma tracked_output_fire j s :
  tracked (fire j s) JOB_OUTPUT = tracked s JOB_OUTPUT.
Proof.
  unfold fire. destruct (closures s !! j) as [[env|env|env|e]|]; try done.
  - unfold sendJob_onTimeout.
    change (tracked (set_closure _ _ ?x)) with (tracked x).
    by rewrite tracked_removeListener, decide_False.
  - apply (tracked_clearTimeout (so_timeoutHandle env)).
  - unfold terminal_onTimeout, terminal_cleanup.
    change (tracked (set_closure _ _ (upd_socket _ (upd_socket _ ?x))))
      with (tracked x).
    rewrite !tracked_removeListener, !decide_False by done.
    apply tracked_clearTimeout.
Qed.

(** Nothing but a disconnection removes an entry of "job:output" from the
    registry. *)
Lemma tracked_output_step ev s :
  ev ≠ SocketDisconnect →
  tracked s JOB_OUTPUT ⊆ tracked (step ev s) JOB_OUTPUT.
Proof.
  intros Hev. destruct ev; try done; cbn [step].
  - unfold sendJob. destruct (socket s); [|done].
    change (tracked (alloc _ (upd_socket _ (upd_socket _ ?x)))) with (tracked x).
    rewrite tracked_trackListener. by rewrite decide_False.
  - unfold sendStreamingJob. destruct (socket s); [|done].
    change (tracked (alloc _ (upd_socket _ (upd_socket _ ?x)))) with (tracked x).
    rewrite tracked_trackListener, decide_True by done.
    change (tracked (setTimeout _ _ _ s)) with (tracked s). set_solver.
  - unfold runTerminal. destruct (isReady s); [|done].
    pose proof (checkRateLimit_same now s) as (_ & _ & _ & _ & Hl).
    destruct (checkRateLimit now s) as [s1 limited]. cbn in Hl.
    assert (Ht : tracked s1 JOB_OUTPUT = tracked s JOB_OUTPUT)
      by (unfold tracked; by rewrite Hl).
    rewrite <- Ht.
    destruct limited; [done|]. case_decide; [|done].
    destruct (socket s1); [|done].
    change (tracked (alloc _ (upd_socket _ (upd_socket _ (upd_socket _ ?x)))))
      with (tracked x).
    by rewrite !tracked_trackListener, !decide_False.
  - destruct (timers s !! handle); [|done]. case_decide; [|done].
    by rewrite tracked_output_fire.
  - destruct (socket s); [|done]. by rewrite tracked_output_deliver.
Qed.

(** Only a call creates a closure. *)
Lemma step_closure_none ev s j :
  wf s → closures s !! j = None →
  match ev with
  | CallSendJob _ _ _ _ _ | CallSendStreamingJob _ _ _ _ _ _ _
  | CallRunTerminal _ _ _ _ _ => True
  | _ => closures (step ev s) !! j = None
  end.
Proof.
  intros Hwf Hnone. destruct ev as [| | |handle now|msg now| |]; try done.
  - destruct (decide (handle = j)) as [->|Hne].
    + cbn. destruct (timers s !! j); [|done]. case_decide; [|done].
      unfold fire. cbn. by rewrite Hnone.
    + destruct (timerFires_local handle now s Hwf) as (_ & Hf & _).
      destruct (Hf j ltac:(done)) as [-> _]. done.
  - rewrite handlers_of_step_incoming.
    generalize (handlers_of s (event_of msg)). intros ls.
    revert s Hwf Hnone. induction ls as [|l ls IH]; intros s Hwf Hnone; [done|].
    cbn. pose proof (invoke_wf l msg now s Hwf) as Hwf'.
    assert (Hsame : closures (invoke l msg now s).1 !! j = None).
    { destruct (decide (l.2 = j)) as [Hl|Hl].
      - unfold invoke. rewrite Hl, Hnone. done.
      - destruct (invoke_frame l msg now s j Hwf Hl) as [-> _]. done. }
    destruct (invoke l msg now s) as [s' [e|]]; cbn in *; [done|]. by apply IH.
Qed.

(** X11.  The registry entry of a streaming job is never given back.  As
    long as the socket does not disconnect, the output listener of every
    streaming job ever started is in the SDK's registry under "job:output",
    whether the job is pending, resolved, rejected or timed out: cleanup in
    sendStreamingJob takes the listener off the socket but never calls
    removeListener, so the registry grows by one entry per streaming job. *)
Theorem streaming_listener_stays_tracked s0 tr j env :
  fresh s0 → stays_connected tr →
  closures (run tr s0) !! j = Some (Streaming env) →
  (OutputListener, j) ∈ tracked (run tr s0) JOB_OUTPUT.
Proof.
  intros Hf. revert j env. induction tr as [|ev tr IH] using rev_ind;
    intros j env Hconn Hc.
  { destruct Hf as (Hcl & _). cbn in Hc. by rewrite Hcl, lookup_empty in Hc. }
  apply Forall_app in Hconn as [Hconn Hev].
  rewrite Forall_singleton in Hev. rewrite run_snoc in *.
  pose proof (wf_reachable s0 tr Hf) as Hwf.
  set (s := run tr s0) in *.
  destruct (closures s !! j) as [c0|] eqn:Hc0.
  - destruct (step_evolves ev s j c0 Hwf Hc0) as (c' & Hc' & _ & _ & Hk).
    rewrite Hc in Hc'. injection Hc' as <-.
    destruct c0 as [|env0| |]; try done.
    apply (tracked_output_step ev s Hev). by apply (IH j env0).
  - pose proof (step_closure_none ev s j Hwf Hc0) as Hnone.
    destruct ev; try (by rewrite Hnone in Hc); cbn [step] in *.
    + unfold sendJob in Hc. destruct (socket s); cbn in Hc;
        rewrite lookup_insert in Hc; case_decide; congruence.
    + unfold sendStreamingJob in *. destruct (socket s); cbn in Hc;
        rewrite lookup_insert in Hc; case_decide; try congruence. subst j.
      change (tracked (alloc _ (upd_socket _ (upd_socket _ ?x))))
        with (tracked x).
      rewrite tracked_trackListener, decide_True by done. set_solver.
    + unfold runTerminal in Hc. destruct (isReady s); [|congruence].
      pose proof (checkRateLimit_same now s) as (Hcl & _).
      destruct (checkRateLimit now s) as [s1 limited]. cbn in Hcl.
      destruct limited; [|case_decide; [destruct (socket s1)|]]; cbn in Hc;
        rewrite lookup_insert, Hcl in Hc; case_decide; congruence.
Qed.

Lemma streaming_listener_stays_tracked_witness :
  let metadata := {| executionId := "e1"; sandboxId := "sb";
                     startTime := Some 0; endTime := None; duration := None |} in
  let opts := {| onStdout := None; onStderr := None; onResult := None;
                 onError := None; timeoutMs := Some 100 |} in
  let chunk id fields :=
    Incoming (JobOutput {| jo_jobId := id; jo_line := Some (VObj fields) |}) in
  let tr :=
    [CallSendStreamingJob EXECUTE VNull new_Execution metadata (Some opts) "A" 0;
     CallSendStreamingJob EXECUTE VNull new_Execution metadata None "B" 1;
     TimerFires 0 100;
     chunk "B" [("type", VStr "error"); ("name", VStr "E");
                ("value", VStr "v"); ("traceback", VStr "")]%string 101] in
  let s := run tr (new None) in
  handlers_of s JOB_OUTPUT = []
  ∧ (OutputListener, 0%nat) ∈ tracked s JOB_OUTPUT
  ∧ (OutputListener, 1%nat) ∈ tracked s JOB_OUTPUT.
Proof.
  intros metadata opts chunk tr s.
  assert (Hconn : stays_connected tr) by (repeat constructor; discriminate).
  assert (Hfresh : fresh (new None)) by (repeat split; reflexivity).
  split; [vm_compute; reflexivity|]. split.
  - eapply (streaming_listener_stays_tracked (new None) tr 0 _ Hfresh Hconn).
    vm_compute. reflexivity.
  - eapply (streaming_listener_stays_tracked (new None) tr 1 _ Hfresh Hconn).
    vm_compute. reflexivity.
Defined.

(** *** runTerminal: the ways a call fails at once *)

(** X12.  What a call of runTerminal on a connected SDK does before any
    message arrives.  The rate limit is checked first: a refused call is
    rejected with RateLimitError and changes nothing but the pruning of the
    limiter.  Otherwise the call is recorded by the limiter, and only then is
    the sandbox looked up: a call for an unknown sandbox is rejected with
    SandboxError "Sandbox <id> not found", emits nothing, arms no timer and
    registers no listener, but has used up one request of the minute.  A
    call that passes both checks returns a pending promise with its timer
    armed and emits exactly one "job:terminal" event with the job id. *)
Theorem runTerminal_failure_modes sandbox command opts uuid now s :
  isReady s = true →
  let s' := runTerminal sandbox command opts uuid now s in
  let j := nextId s in
  let kept :=
    RateLimiter.in_window now (RateLimiter.requestTimestamps (rateLimiter s)) in
  let untouched :=
    socket s' = socket s ∧ timers s' = timers s ∧ listeners s' = listeners s in
  if bool_decide (RateLimiter.maxRequestsPerMinute (rateLimiter s)
                  <= Z.of_nat (length kept))
  then (∃ r, closures s' !! j = Some (Failed (RateLimitError r)))
       ∧ untouched
       ∧ RateLimiter.requestTimestamps (rateLimiter s') = kept
  else RateLimiter.requestTimestamps (rateLimiter s') = kept ++ [now]
       ∧ if bool_decide (sandbox ∈ activeSandboxes s)
         then (∃ env, closures s' !! j = Some (Terminal env)
                      ∧ tm_promise env = Pending ∧ tm_jobId env = uuid
                      ∧ tm_output env = EmptyString)
              ∧ is_Some (timers s' !! j)
              ∧ emitted <$> socket s'
                = (fun sock =>
                     emitted sock
                     ++ [(TERMINAL, uuid,
                          VObj [("command", VStr command);
                                ("sandboxId", VStr sandbox)]%string)])
                  <$> socket s
         else closures s' !! j
              = Some (Failed (SandboxError
                                ("Sandbox " ++ sandbox ++ " not found")))
              ∧ untouched.
Proof.
  intros Hready. cbn zeta. unfold runTerminal. rewrite Hready.
  assert (Hsock : is_Some (socket s)).
  { unfold isReady in Hready. apply andb_true_iff in Hready as [_ Hs].
    by apply bool_decide_eq_true in Hs. }
  destruct Hsock as [sock Hsock].
  unfold checkRateLimit, RateLimiter.canMakeRequest.
  rewrite in_window_filter.
  set (kept := RateLimiter.in_window now _).
  destruct (Z.leb_spec (RateLimiter.maxRequestsPerMinute (rateLimiter s))
              (Z.of_nat (length kept))) as [Hfull|Hroom]; cbn.
  - rewrite bool_decide_eq_true_2 by done.
    split; [eexists; by rewrite lookup_insert_eq|done].
  - rewrite bool_decide_eq_false_2 by lia.
    case_decide as Hknown.
    + rewrite bool_decide_eq_true_2 by done. rewrite Hsock. cbn.
      rewrite !lookup_insert_eq. split; [done|]. split; [by eauto|].
      split; [by eauto|]. by rewrite Hsock.
    + rewrite bool_decide_eq_false_2 by done. cbn.
      by rewrite lookup_insert_eq.
Qed.

Lemma runTerminal_failure_modes_witness :
  let s :=
    mkSdk (Some {| handlers := ∅; emitted := [] |}) true 60000 ∅ {["sb"]}
      MetricsCollector.new (RateLimiter.new (Some 1)) ∅ ∅ 0 in
  let s1 := runTerminal "gone" "ls" None "T1" 5 s in
  let s2 := runTerminal "sb" "ls" None "T2" 6 s1 in
  closures s1 !! 0%nat = Some (Failed (SandboxError "Sandbox gone not found"))
  ∧ socket s1 = socket s
  ∧ RateLimiter.requestTimestamps (rateLimiter s1) = [5]
  ∧ ∃ r, closures s2 !! 1%nat = Some (Failed (RateLimitError r)).
Proof.
  intros s s1 s2.
  pose proof (runTerminal_failure_modes "gone" "ls" None "T1" 5 s eq_refl) as H1.
  pose proof (runTerminal_failure_modes "sb" "ls" None "T2" 6 s1 eq_refl) as H2.
  cbn zeta in H1, H2. fold s1 in H1. fold s2 in H2.
  rewrite bool_decide_eq_false_2 in H1
    by (intros H; vm_compute in H; by apply H).
  rewrite bool_decide_eq_false_2 in H1 by (vm_compute; set_solver).
  rewrite bool_decide_eq_true_2 in H2 by (vm_compute; discriminate).
  destruct H1 as (Hts & Hc & Hs & _). destruct H2 as (Hr & _).
  split; [exact Hc|]. split; [exact Hs|]. split; [exact Hts|exact Hr].
Defined.

(** *** A line of output that cannot be processed *)

Lemma parseOutput_malformed execution line opts now e :
  malformed line e →
  parseOutput execution line opts now = (execution, [], Some e).
Proof. by intros [[-> ->]|[-> ->]]. Qed.

End OutcomeFacts.

(** ** The registry of listeners and the socket *)

Section BookkeepingFacts.
Import Sdk Outcomes.

Lemma tracked_fresh s event : fresh s → tracked s event = ∅.
Proof. intros (_ & _ & _ & Hl & _). unfold tracked. by rewrite Hl, lookup_empty. Qed.

Lemma bk_fresh s : fresh s → bookkeeping s.
Proof.
  intros Hf. pose proof (sound_fresh s Hf) as Hs. split.
  - intros event role j. rewrite tracked_fresh by done. set_solver.
  - intros event role j Hin.
    destruct (sound_placed s Hs _ _ _ Hin) as (c & Hc & _).
    destruct Hf as (Hcl & _). by rewrite Hcl, lookup_empty in Hc.
  - intros event role j. rewrite tracked_fresh by done. set_solver.
Qed.

Lemma bk_pre_of s j c :
  bookkeeping s → closures s !! j = Some c → bk_pre j s c.
Proof.
  intros [Hp Ha Ht] Hc. split; [|split].
  - intros event role Hin. destruct (Hp _ _ _ Hin) as (c0 & Hc0 & Hpl).
    congruence.
  - intros event role Hin. destruct (Ha _ _ _ Hin) as [|(c0 & Hc0 & Hto)];
      [by left|right]. congruence.
  - intros event role Hin. destruct (Ht _ _ _ Hin) as [|(c0 & Hc0 & Hto)];
      [by left|right]. congruence.
Qed.

Lemma bk_local j s s' :
  bookkeeping s → local j s s' →
  (∀ c, closures s !! j = Some c →
        ∃ c', closures s' !! j = Some c' ∧ evolves c c') →
  own_bk j s s' → bookkeeping s'.
Proof.
  intros [Hp Ha Ht] (Hn & Hf & _ & Hsub) Hev [Hshrink Hown].
  assert (Hclosure : ∀ event role, (role, j) ∈ tracked s event →
            ∃ c c', closures s !! j = Some c ∧ closures s' !! j = Some c'
                    ∧ evolves c c' ∧ placed c role event).
  { intros event role Hin. destruct (Hp _ _ _ Hin) as (c & Hc & Hpl).
    destruct (Hev c Hc) as (c' & Hc' & He). by exists c, c'. }
  split.
  - intros event role k Hin. destruct (decide (k = j)) as [->|Hne].
    + apply Hshrink in Hin.
      destruct (Hclosure _ _ Hin) as (c & c' & _ & Hc' & He & Hpl).
      exists c'. split; [done|]. by eapply placed_evolves.
    + destruct (Hf k Hne) as (Hck & _ & _ & Htk). apply Htk in Hin.
      rewrite Hck. by apply Hp.
  - intros event role k Hin. destruct (decide (k = j)) as [->|Hne].
    + assert (Hin0 : (role, j) ∈ handlers_of s event)
        by by eapply elem_of_sublist.
      assert (Hc : ∃ c, closures s !! j = Some c).
      { destruct (Ha _ _ _ Hin0) as [Htr|(c & Hc & _)]; [|by eauto].
        destruct (Hp _ _ _ Htr) as (c & Hc & _). by eauto. }
      destruct Hc as (c & Hc). destruct (Hev c Hc) as (c' & Hc' & _).
      destruct (Hown c' Hc') as [Ha' _].
      destruct (Ha' _ _ Hin) as [|Hto]; [by left|right]. by exists c'.
    + destruct (Hf k Hne) as (Hck & _ & Hhk & Htk). rewrite Htk, Hck.
      apply Ha. by apply Hhk.
  - intros event role k Hin. destruct (decide (k = j)) as [->|Hne].
    + destruct (Hclosure _ _ (Hshrink _ _ Hin)) as (c & c' & _ & Hc' & _).
      destruct (Hown c' Hc') as [_ Ht'].
      destruct (Ht' _ _ Hin) as [|Hto]; [by left|right]. by exists c'.
    + destruct (Hf k Hne) as (Hck & _ & Hhk & Htk). rewrite Hhk, Hck.
      apply Ht. by apply Htk.
Qed.

Lemma own_bk_vacuous j s s' :
  (∀ event role, (role, j) ∉ handlers_of s' event) →
  (∀ event role, (role, j) ∉ tracked s' event) →
  own_bk j s s'.
Proof.
  intros Hh Ht. split; [intros event role Hin; by apply Ht in Hin|].
  intros c' _. split; intros event role Hin;
    [by apply Hh in Hin|by apply Ht in Hin].
Qed.

Lemma own_bk_keep j s s' c :
  bk_pre j s c →
  (∀ event, handlers_of s' event = handlers_of s event) →
  (∀ event, tracked s' event = tracked s event) →
  (∀ c', closures s' !! j = Some c' →
         (timed_out_job c → timed_out_job c')
         ∧ (settled_stream c → settled_stream c')) →
  own_bk j s s'.
Proof.
  intros (_ & Ha & Ht) Hh Htr Hc. split; [intros event role; by rewrite Htr|].
  intros c' Hc'. destruct (Hc c' Hc') as [Hto Hss].
  split; intros event role; rewrite Hh, Htr; intros Hin.
  - destruct (Ha _ _ Hin); auto.
  - destruct (Ht _ _ Hin); auto.
Qed.

Lemma own_bk_refl j s c :
  bk_pre j s c → closures s !! j = Some c → own_bk j s s.
Proof.
  intros Hpre Hc. apply (own_bk_keep j s s c); try done.
  intros c' Hc'. assert (c' = c) by congruence. by subst.
Qed.

Lemma not_attached_iff j s :
  ¬ attached j s ↔ ∀ event role, (role, j) ∉ handlers_of s event.
Proof.
  split.
  - intros Hnot event role Hin. apply Hnot. by exists event, role.
  - intros Hnot (event & role & Hin). by apply (Hnot event role).
Qed.

Lemma sendJob_listener_bk j env res s timer :
  own_pre j s (SendJob env) timer → bk_pre j s (SendJob env) →
  closures s !! j = Some (SendJob env) →
  own_bk j s (sendJob_listener j env res s).
Proof.
  intros (Hnd & Hpl & _) Hbk Hc. pose proof Hbk as (Htp & _).
  unfold sendJob_listener.
  case_decide; [|by apply (own_bk_refl j s (SendJob env))].
  apply own_bk_vacuous.
  - intros event role.
    change (handlers_of (set_closure _ _ ?x)) with (handlers_of x).
    rewrite handlers_of_off.
    change (handlers_of (removeListener _ _ ?x)) with (handlers_of x).
    rewrite !handlers_of_clearTimeout. intros Hin.
    assert (Hin0 : (role, j) ∈ handlers_of s event).
    { case_decide; [|done]. subst.
      by eapply elem_of_sublist, remove_first_sublist. }
    specialize (Hpl _ _ Hin0). destruct role; try done. cbn in Hpl. subst event.
    rewrite decide_True in Hin by done. revert Hin.
    by apply not_elem_of_remove_first.
  - intros event role.
    change (tracked (set_closure _ _ (upd_socket _ ?x))) with (tracked x).
    rewrite tracked_removeListener, !tracked_clearTimeout. intros Hin.
    assert (Hin0 : (role, j) ∈ tracked s event)
      by (case_decide; [subst; by apply elem_of_difference in Hin as [? _]|done]).
    specialize (Htp _ _ Hin0). destruct role; try done. cbn in Htp. subst event.
    rewrite decide_True in Hin by done.
    apply elem_of_difference in Hin as [_ Hn]. apply Hn. by apply elem_of_singleton.
Qed.

Lemma sendJob_onTimeout_bk j env s :
  bk_pre j s (SendJob env) → sj_promise env = Pending →
  own_bk j s (sendJob_onTimeout j env s).
Proof.
  intros (Htp & _ & _) Hpend. unfold sendJob_onTimeout.
  assert (Hgone : ∀ event role,
            (role, j) ∉ tracked (removeListener RESULT (ResultListener, j) s)
                          event).
  { intros event role. rewrite tracked_removeListener. intros Hin.
    assert (Hin0 : (role, j) ∈ tracked s event)
      by (case_decide; [subst; by apply elem_of_difference in Hin as [? _]|done]).
    specialize (Htp _ _ Hin0). destruct role; try done. cbn in Htp. subst event.
    rewrite decide_True in Hin by done.
    apply elem_of_difference in Hin as [_ Hn]. apply Hn. by apply elem_of_singleton. }
  split.
  - intros event role Hin. by apply Hgone in Hin.
  - cbn. rewrite lookup_insert_eq. intros c' [= <-]. split.
    + intros event role _. right. cbn. by rewrite Hpend.
    + intros event role Hin. by apply Hgone in Hin.
Qed.

Lemma streaming_settled_bk j env s s' timer :
  own_pre j s (Streaming env) timer →
  (∀ event, handlers_of s' event
            = handlers_of (streaming_cleanup j env s) event) →
  (∀ event, tracked s' event = tracked s event) →
  (∀ c', closures s' !! j = Some c' → settled_stream c') →
  own_bk j s s'.
Proof.
  intros Hpre Hh Ht Hc.
  pose proof (streaming_cleanup_detached j env s timer Hpre) as Hd.
  rewrite not_attached_iff in Hd.
  split; [intros event role; by rewrite Ht|].
  intros c' Hc'. split; intros event role.
  - rewrite Hh. intros Hin. by apply Hd in Hin.
  - intros _. right. by apply Hc.
Qed.

Lemma outputListener_bk j env res now s timer :
  own_pre j s (Streaming env) timer → bk_pre j s (Streaming env) →
  closures s !! j = Some (Streaming env) →
  own_bk j s (outputListener j env res now s).
Proof.
  intros Hpre Hbk Hc. unfold outputListener.
  case_decide; [|by apply (own_bk_refl j s (Streaming env))].
  destruct (parseOutput _ _ _ _) as [[execution calls] [e|]].
  - eapply streaming_settled_bk; try done.
    + intros event. apply (tracked_clearTimeout (so_timeoutHandle env)).
    + cbn. rewrite lookup_insert_eq. intros c' [= <-]. cbn.
      apply reject_not_pending.
  - destruct (error execution).
    + eapply streaming_settled_bk; try done.
      * intros event. apply (tracked_clearTimeout (so_timeoutHandle env)).
      * cbn. rewrite lookup_insert_eq. intros c' [= <-]. cbn.
        apply resolve_not_pending.
    + apply (own_bk_keep j s _ (Streaming env)); try done.
      cbn. rewrite lookup_insert_eq. by intros c' [= <-].
Qed.

Lemma streaming_onTimeout_bk j env s timer :
  own_pre j s (Streaming env) timer →
  own_bk j s (streaming_onTimeout j env s).
Proof.
  intros Hpre. unfold streaming_onTimeout.
  eapply streaming_settled_bk; try done.
  - intros event. apply (tracked_clearTimeout (so_timeoutHandle env)).
  - cbn. rewrite lookup_insert_eq. intros c' [= <-]. cbn.
    apply reject_not_pending.
Qed.

Lemma streamListener_bk j env res now s :
  bk_pre j s (Terminal env) → closures s !! j = Some (Terminal env) →
  own_bk j s (streamListener j env res now s).1.
Proof.
  intros Hbk Hc. unfold streamListener.
  case_decide; [|by apply (own_bk_refl j s (Terminal env))].
  by apply (own_bk_keep j s _ (Terminal env)).
Qed.

Lemma terminal_cleanup_untracked j env s :
  bk_pre j s (Terminal env) →
  ∀ event role, (role, j) ∉ tracked (terminal_cleanup j env s) event.
Proof.
  intros (Htp & _) event role. unfold terminal_cleanup.
  change (tracked (upd_socket _ (upd_socket _ ?x))) with (tracked x).
  rewrite !tracked_removeListener, !tracked_clearTimeout.
  rewrite (decide_False (P := STREAM_END = STREAM)) by done.
  intros Hin.
  assert (Hin0 : (role, j) ∈ tracked s event)
    by (repeat case_decide; subst; try done;
        by apply elem_of_difference in Hin as [? _]).
  specialize (Htp _ _ Hin0). destruct role; try done; cbn in Htp; subst event.
  - rewrite (decide_False (P := STREAM = STREAM_END)) in Hin by done.
    rewrite decide_True in Hin by done.
    apply elem_of_difference in Hin as [_ Hn]. apply Hn. by apply elem_of_singleton.
  - rewrite decide_True in Hin by done.
    apply elem_of_difference in Hin as [_ Hn]. apply Hn. by apply elem_of_singleton.
Qed.

Lemma terminal_cleaned_bk j env s s' timer :
  own_pre j s (Terminal env) timer → bk_pre j s (Terminal env) →
  (∀ event, handlers_of s' event
            = handlers_of (terminal_cleanup j env s) event) →
  (∀ event, tracked s' event = tracked (terminal_cleanup j env s) event) →
  own_bk j s s'.
Proof.
  intros Hpre Hbk Hh Ht.
  pose proof (terminal_cleanup_detached j env s timer Hpre) as Hd.
  rewrite not_attached_iff in Hd.
  apply own_bk_vacuous; intros event role.
  - rewrite Hh. apply Hd.
  - rewrite Ht. by apply terminal_cleanup_untracked.
Qed.

Lemma endListener_bk j env res now s timer :
  own_pre j s (Terminal env) timer → bk_pre j s (Terminal env) →
  closures s !! j = Some (Terminal env) →
  own_bk j s (endListener j env res now s).
Proof.
  intros Hpre Hbk Hc. unfold endListener.
  case_decide; [|by apply (own_bk_refl j s (Terminal env))].
  by eapply terminal_cleaned_bk.
Qed.

Lemma terminal_onTimeout_bk j env s timer :
  own_pre j s (Terminal env) timer → bk_pre j s (Terminal env) →
  own_bk j s (terminal_onTimeout j env s).
Proof. intros Hpre Hbk. by eapply terminal_cleaned_bk. Qed.

Lemma own_bk_same j s : bookkeeping s → own_bk j s s.
Proof.
  intros Hbk. split; [done|]. intros c' Hc'.
  destruct (bk_pre_of s j c' Hbk Hc') as (_ & Ha & Ht). by split.
Qed.

Lemma bk_invoke l msg now s :
  sound s → bookkeeping s → bookkeeping (invoke l msg now s).1.
Proof.
  intros Hs Hbk. pose proof (sound_wf s Hs) as Hwf.
  apply (bk_local l.2 s); [done| | |].
  - apply invoke_local. intros c h. by apply wf_handle.
  - intros c. by apply invoke_evolves.
  - unfold invoke.
    destruct (closures s !! l.2) as [c|] eqn:Hc; [|by apply own_bk_same].
    pose proof (own_pre_sound s l.2 c Hs Hc) as Hpre.
    pose proof (bk_pre_of s l.2 c Hbk Hc) as Hbpre.
    destruct c as [env|env|env|e]; destruct l.1, msg;
      try (by apply own_bk_same).
    + by eapply sendJob_listener_bk.
    + by eapply outputListener_bk.
    + by apply streamListener_bk.
    + by eapply endListener_bk.
Qed.

Lemma bk_deliver ls msg now s :
  sound s → bookkeeping s → bookkeeping (deliver ls msg now s).
Proof.
  revert s. induction ls as [|l ls IH]; intros s Hs Hbk; [done|]. cbn.
  pose proof (sound_invoke l msg now s Hs) as Hs'.
  pose proof (bk_invoke l msg now s Hs Hbk) as Hbk'.
  destruct (invoke l msg now s) as [s' [e|]]; auto.
Qed.

Lemma bk_timerFires handle now s :
  sound s → bookkeeping s → bookkeeping (step (TimerFires handle now) s).
Proof.
  intros Hs Hbk. pose proof (sound_wf s Hs) as Hwf.
  apply (bk_local handle s); [done|by apply timerFires_local| |].
  - intros c. by apply step_evolves.
  - cbn. destruct (timers s !! handle) as [due|] eqn:Hdue;
      [|by apply own_bk_same].
    case_decide; [|by apply own_bk_same].
    set (s1 := upd_timers (delete handle) s).
    assert (Hpost : own_bk handle s1 (fire handle s1)
                    → own_bk handle s (fire handle s1)) by done.
    apply Hpost. unfold fire. change (closures s1) with (closures s).
    destruct (closures s !! handle) as [c|] eqn:Hc;
      [|exact (own_bk_same handle s Hbk)].
    pose proof (own_pre_sound s handle c Hs Hc) as Hpre.
    pose proof (bk_pre_of s handle c Hbk Hc) as Hbpre.
    assert (Hpend : settlement c = StillPending).
    { assert (settlement c = StillPending ∨ settlement c ≠ StillPending)
        as [|Hne] by (destruct (settlement c); auto); [done|].
      pose proof (settled_timer_disarmed s handle c Hs Hc Hne). congruence. }
    destruct c as [env|env|env|e].
    + apply sendJob_onTimeout_bk; [exact Hbpre|].
      by apply settlement_pending in Hpend.
    + eapply streaming_onTimeout_bk. exact Hpre.
    + eapply terminal_onTimeout_bk; [exact Hpre|exact Hbpre].
    + done.
Qed.

Lemma bk_same s s' :
  closures s' = closures s → socket s' = socket s → listeners s' = listeners s →
  bookkeeping s → bookkeeping s'.
Proof.
  intros Hc Hk Hl [Hp Ha Ht].
  split; unfold handlers_of, tracked in *; rewrite ?Hc, ?Hk, ?Hl; done.
Qed.

(** A call adds its own listeners, to the socket and to the registry. *)
Lemma bk_call c s s1 :
  wf s → bookkeeping s →
  closures s1 = closures s → nextId s1 = nextId s →
  (∀ event l, l ∈ handlers_of s1 event ↔
     l ∈ handlers_of s event
     ∨ (l.2 = nextId s ∧ placed c l.1 event ∧ l ∈ tracked s1 event)) →
  (∀ event l, l ∈ tracked s1 event ↔
     l ∈ tracked s event
     ∨ (l.2 = nextId s ∧ placed c l.1 event ∧ l ∈ handlers_of s1 event)) →
  bookkeeping (alloc c s1).
Proof.
  intros Hwf [Hp Ha Ht] Hcs Hn Hh Htr.
  assert (Hold : ∀ k c0, closures s !! k = Some c0 →
            closures (alloc c s1) !! k = Some c0).
  { intros k c0 Hc0. pose proof (wf_closures s Hwf k c0 Hc0) as [Hb _].
    cbn. rewrite lookup_insert_ne, Hcs by lia. done. }
  assert (Hnew : closures (alloc c s1) !! nextId s = Some c)
    by (cbn; by rewrite Hn, lookup_insert_eq).
  split.
  - intros event role k.
    change (tracked (alloc c s1)) with (tracked s1). rewrite Htr.
    intros [Hin|(Hk & Hpl & _)].
    + destruct (Hp _ _ _ Hin) as (c0 & Hc0 & Hpl). exists c0. by auto.
    + cbn in Hk, Hpl. subst k. by exists c.
  - intros event role k.
    change (handlers_of (alloc c s1)) with (handlers_of s1).
    change (tracked (alloc c s1)) with (tracked s1). rewrite Hh.
    intros [Hin|(_ & _ & Hin)]; [|by left].
    destruct (Ha _ _ _ Hin) as [Hin'|(c0 & Hc0 & Hto)].
    + left. apply Htr. by left.
    + right. exists c0. by auto.
  - intros event role k.
    change (handlers_of (alloc c s1)) with (handlers_of s1).
    change (tracked (alloc c s1)) with (tracked s1). rewrite Htr.
    intros [Hin|(_ & _ & Hin)]; [|by left].
    destruct (Ht _ _ _ Hin) as [Hin'|(c0 & Hc0 & Hto)].
    + left. apply Hh. by left.
    + right. exists c0. by auto.
Qed.

Lemma bk_failed e s : wf s → bookkeeping s → bookkeeping (alloc (Failed e) s).
Proof.
  intros Hwf Hbk. apply (bk_call _ s); try done; intros event l;
    (split; [by left|intros [?|(_ & Hpl & _)]; [done|by destruct l as [[] ?]]]).
Qed.

Lemma bk_call_attach c s s1 (news : list (string * Listener)) :
  wf s → bookkeeping s →
  closures s1 = closures s → nextId s1 = nextId s →
  (∀ event l, l ∈ handlers_of s1 event
              ↔ l ∈ handlers_of s event ∨ (event, l) ∈ news) →
  (∀ event l, l ∈ tracked s1 event ↔ l ∈ tracked s event ∨ (event, l) ∈ news) →
  (∀ event l, (event, l) ∈ news → l.2 = nextId s ∧ placed c l.1 event) →
  bookkeeping (alloc c s1).
Proof.
  intros Hwf Hbk Hcs Hn Hh Ht Hnews. apply (bk_call _ s); try done.
  - intros event l. rewrite Hh, Ht. split.
    + intros [Hin|Hin]; [by left|right].
      destruct (Hnews _ _ Hin). by auto.
    + intros [Hin|(Hk & _ & [Hin|Hin])]; [by left| |by right]. exfalso.
      destruct l as [role k]. cbn in Hk.
      destruct (bk_placed s Hbk _ _ _ Hin) as (c0 & Hc0 & _).
      pose proof (wf_closures s Hwf k c0 Hc0) as [Hb _]. lia.
  - intros event l. rewrite Hh, Ht. split.
    + intros [Hin|Hin]; [by left|right].
      destruct (Hnews _ _ Hin). by auto.
    + intros [Hin|(Hk & _ & [Hin|Hin])]; [by left| |by right]. exfalso.
      destruct (wf_handlers s Hwf event) as [_ Hb].
      rewrite Forall_forall in Hb. apply Hb in Hin. lia.
Qed.

Lemma sendJob_bk event payload timeoutMs uuid now s :
  wf s → bookkeeping s →
  bookkeeping (sendJob event payload timeoutMs uuid now s).
Proof.
  intros Hwf Hbk. unfold sendJob.
  destruct (socket s) as [sock|] eqn:Hsock; [|by apply bk_failed].
  apply (bk_call_attach _ s _ [(RESULT, (ResultListener, nextId s))]);
    try done.
  - intros event' l.
    rewrite handlers_of_emit, handlers_of_on by (cbn; rewrite Hsock; eauto).
    change (handlers_of (trackListener _ _ _)) with (handlers_of s).
    rewrite list_elem_of_singleton. case_decide; subst.
    + rewrite elem_of_app, list_elem_of_singleton.
      split; [intros [?| ->]; [by left|by right]|].
      intros [?|[= ->]]; [by left|by right].
    + split; [by left|]. intros [?|[= ? ?]]; [done|congruence].
  - intros event' l.
    change (tracked (upd_socket _ (upd_socket _ ?x))) with (tracked x).
    rewrite tracked_trackListener.
    change (tracked (setTimeout _ _ _ s)) with (tracked s).
    rewrite list_elem_of_singleton. case_decide; subst.
    + rewrite elem_of_union, elem_of_singleton.
      split; [intros [?| ->]; [by left|by right]|].
      intros [?|[= ->]]; [by left|by right].
    + split; [by left|]. intros [?|[= ? ?]]; [done|congruence].
  - intros event' l [= -> ->]%list_elem_of_singleton. by split.
Qed.

Lemma sendStreamingJob_bk event payload execution metadata opts uuid now s :
  wf s → bookkeeping s →
  bookkeeping (sendStreamingJob event payload execution metadata opts uuid now s).
Proof.
  intros Hwf Hbk. unfold sendStreamingJob.
  destruct (socket s) as [sock|] eqn:Hsock; [|by apply bk_failed].
  apply (bk_call_attach _ s _ [(JOB_OUTPUT, (OutputListener, nextId s))]);
    try done.
  - intros event' l.
    rewrite handlers_of_emit, handlers_of_on by (cbn; rewrite Hsock; eauto).
    change (handlers_of (trackListener _ _ _)) with (handlers_of s).
    rewrite list_elem_of_singleton. case_decide; subst.
    + rewrite elem_of_app, list_elem_of_singleton.
      split; [intros [?| ->]; [by left|by right]|].
      intros [?|[= ->]]; [by left|by right].
    + split; [by left|]. intros [?|[= ? ?]]; [done|congruence].
  - intros event' l.
    change (tracked (upd_socket _ (upd_socket _ ?x))) with (tracked x).
    rewrite tracked_trackListener.
    change (tracked (setTimeout _ _ _ s)) with (tracked s).
    rewrite list_elem_of_singleton. case_decide; subst.
    + rewrite elem_of_union, elem_of_singleton.
      split; [intros [?| ->]; [by left|by right]|].
      intros [?|[= ->]]; [by left|by right].
    + split; [by left|]. intros [?|[= ? ?]]; [done|congruence].
  - intros event' l [= -> ->]%list_elem_of_singleton. by split.
Qed.

Lemma runTerminal_bk sandbox command opts uuid now s :
  wf s → bookkeeping s →
  bookkeeping (runTerminal sandbox command opts uuid now s).
Proof.
  intros Hwf Hbk. unfold runTerminal. destruct (isReady s); [|done].
  pose proof (checkRateLimit_same now s) as (Hc & Ht & Hn & Hk & Hl).
  destruct (checkRateLimit now s) as [s1 limited]. cbn in Hc, Ht, Hn, Hk, Hl.
  assert (Hwf1 : wf s1) by by eapply wf_same.
  assert (Hbk1 : bookkeeping s1) by by eapply bk_same.
  destruct limited as [e|]; [by apply bk_failed|].
  case_decide; [|by apply bk_failed].
  destruct (socket s1) as [sock|] eqn:Hsock; [|by apply bk_failed].
  apply (bk_call_attach _ s1 _ [(STREAM, (StreamListener, nextId s1));
                                (STREAM_END, (EndListener, nextId s1))]);
    try done.
  - intros event' l. rewrite handlers_of_emit.
    rewrite !handlers_of_on by (cbn; rewrite Hsock; eauto).
    change (handlers_of (trackListener _ _ _)) with (handlers_of s1).
    rewrite elem_of_cons, list_elem_of_singleton.
    repeat case_decide; subst; try done.
    + rewrite elem_of_app, list_elem_of_singleton.
      split; [intros [?| ->]; [by left|right; by right]|].
      intros [?|[[=]|[= ->]]]; [by left|by right].
    + rewrite elem_of_app, list_elem_of_singleton.
      split; [intros [?| ->]; [by left|right; by left]|].
      intros [?|[[= ->]|[=]]]; [by left|by right].
    + split; [by left|]. intros [?|[[= ? ?]|[= ? ?]]]; [done|congruence|congruence].
  - intros event' l.
    change (tracked (upd_socket _ (upd_socket _ (upd_socket _ ?x))))
      with (tracked x).
    rewrite !tracked_trackListener.
    change (tracked (setTimeout _ _ _ s1)) with (tracked s1).
    rewrite elem_of_cons, list_elem_of_singleton.
    repeat case_decide; subst; try done.
    + rewrite elem_of_union, elem_of_singleton.
      split; [intros [?| ->]; [by left|right; by right]|].
      intros [?|[[=]|[= ->]]]; [by left|by right].
    + rewrite elem_of_union, elem_of_singleton.
      split; [intros [?| ->]; [by left|right; by left]|].
      intros [?|[[= ->]|[=]]]; [by left|by right].
    + split; [by left|]. intros [?|[[= ? ?]|[= ? ?]]]; [done|congruence|congruence].
  - intros event' l [[= -> ->]|[= -> ->]%list_elem_of_singleton]%elem_of_cons;
      by split.
Qed.

(** After a disconnection only the handlers that were not in the registry
    are left on the socket. *)
Lemma bk_disconnect s :
  sound s → bookkeeping s → bookkeeping (step SocketDisconnect s).
Proof.
  intros Hs [Hp Ha Ht]. split.
  - intros event role j. by intros ?%elem_of_empty.
  - intros event role j Hin. right.
    assert (Hin0 : (role, j) ∈ handlers_of s event).
    { eapply elem_of_sublist; [exact Hin|].
      apply (cleanupAllListeners_sublist (set_isConnected false s)). }
    destruct (Ha _ _ _ Hin0) as [Htr|Hto]; [|done]. exfalso.
    revert Hin. apply (cleanupAllListeners_detaches (set_isConnected false s)).
    + apply (wf_handlers s (sound_wf s Hs)).
    + done.
  - intros event role j. by intros ?%elem_of_empty.
Qed.

Lemma bk_step ev s : sound s → bookkeeping s → bookkeeping (step ev s).
Proof.
  intros Hs Hbk. pose proof (sound_wf s Hs) as Hwf. destruct ev.
  - by apply sendJob_bk.
  - by apply sendStreamingJob_bk.
  - by apply runTerminal_bk.
  - by apply bk_timerFires.
  - cbn. destruct (socket s); [by apply bk_deliver|done].
  - by apply (bk_same s).
  - by apply bk_disconnect.
Qed.

Lemma bk_run tr s : sound s → bookkeeping s → bookkeeping (run tr s).
Proof.
  revert s. induction tr as [|ev tr IH]; intros s Hs Hbk; [done|].
  cbn. apply IH; [by apply sound_step|by apply bk_step].
Qed.

(** X14.  The registry of listeners and the socket agree but for two
    leaks.  In every reachable state, a handler that is on the socket but
    not in the registry is the result listener of a sendJob call that timed
    out (its timeout callback removes the registry entry and leaves the
    handler attached); and a listener that is in the registry but not on the
    socket is the output listener of a streaming job that is settled (its
    cleanup detaches the handler and leaves the registry entry).  Every
    other listener is on the socket exactly when it is in the registry. *)
Theorem registry_and_socket_differ_only_by_leaks s0 tr event role j :
  fresh s0 →
  let s := run tr s0 in
  ((role, j) ∈ handlers_of s event → (role, j) ∉ tracked s event →
   role = ResultListener ∧ event = RESULT
   ∧ ∃ env, closures s !! j = Some (SendJob env)
            ∧ sj_promise env = Rejected (TimeoutError "Job" (sj_timeout env)))
  ∧ ((role, j) ∈ tracked s event → (role, j) ∉ handlers_of s event →
     role = OutputListener ∧ event = JOB_OUTPUT
     ∧ ∃ env, closures s !! j = Some (Streaming env)
              ∧ so_promise env ≠ Pending).
Proof.
  intros Hf. cbn zeta.
  pose proof (sound_reachable s0 tr Hf) as Hs.
  pose proof (bk_run tr s0 (sound_fresh s0 Hf) (bk_fresh s0 Hf)) as Hbk.
  split.
  - intros Hin Hnot.
    destruct (bk_attached _ Hbk _ _ _ Hin) as [|(c & Hc & Hto)]; [done|].
    destruct (sound_placed _ Hs _ _ _ Hin) as (c' & Hc' & Hpl).
    assert (c' = c) by congruence. subst c'.
    destruct c as [env| | |]; try done. destruct role; try done.
    by eauto.
  - intros Hin Hnot.
    destruct (bk_tracked _ Hbk _ _ _ Hin) as [|(c & Hc & Hss)]; [done|].
    destruct (bk_placed _ Hbk _ _ _ Hin) as (c' & Hc' & Hpl).
    assert (c' = c) by congruence. subst c'.
    destruct c as [|env| |]; try done. destruct role; try done.
    by eauto.
Qed.

Lemma registry_and_socket_differ_only_by_leaks_witness :
  let metadata := {| executionId := "e1"; sandboxId := "sb";
                     startTime := Some 0; endTime := None; duration := None |} in
  let tr :=
    [CallSendJob "sandbox:status" VNull (Some 1000) "A" 0;
     CallSendStreamingJob EXECUTE VNull new_Execution metadata None "B" 1;
     TimerFires 0 1000;
     Incoming (JobOutput {| jo_jobId := "B"; jo_line := None |}) 1001] in
  let s := run tr (new None) in
  handlers_of s RESULT = [(ResultListener, 0%nat)]
  ∧ tracked s RESULT = ∅
  ∧ handlers_of s JOB_OUTPUT = []
  ∧ tracked s JOB_OUTPUT = {[(OutputListener, 1%nat)]}
  ∧ (∃ env, closures s !! 0%nat = Some (SendJob env)
            ∧ sj_promise env = Rejected (TimeoutError "Job" (sj_timeout env)))
  ∧ (∃ env, closures s !! 1%nat = Some (Streaming env)
            ∧ so_promise env ≠ Pending).
Proof.
  intros metadata tr s.
  assert (Hfresh : fresh (new None)) by (repeat split; reflexivity).
  assert (H1 : handlers_of s RESULT = [(ResultListener, 0%nat)])
    by (vm_compute; reflexivity).
  assert (H2 : tracked s RESULT = ∅) by (vm_compute; reflexivity).
  assert (H3 : handlers_of s JOB_OUTPUT = []) by (vm_compute; reflexivity).
  assert (H4 : tracked s JOB_OUTPUT = {[(OutputListener, 1%nat)]})
    by (vm_compute; reflexivity).
  split; [exact H1|]. split; [exact H2|]. split; [exact H3|].
  split; [exact H4|]. split.
  - destruct (registry_and_socket_differ_only_by_leaks (new None) tr RESULT
                ResultListener 0 Hfresh) as [Hleak _].
    fold s in Hleak. rewrite H1, H2 in Hleak.
    apply Hleak; [by apply list_elem_of_singleton|by apply not_elem_of_empty].
  - destruct (registry_and_socket_differ_only_by_leaks (new None) tr JOB_OUTPUT
                OutputListener 1 Hfresh) as [_ Hleak].
    fold s in Hleak. rewrite H3, H4 in Hleak.
    apply Hleak; [by apply elem_of_singleton|by apply not_elem_of_nil].
Defined.

End BookkeepingFacts.

(** ** Isolation and what stays as it is *)

Section IsolationFacts.
Import Sdk Outcomes.

Lemma elem_of_snoc_other (ls : list Listener) (role role' : Role) (j k : nat) :
  j ≠ k → (role, j) ∈ ls ++ [(role', k)] ↔ (role, j) ∈ ls.
Proof.
  intros Hne. rewrite elem_of_app, list_elem_of_singleton.
  split; [intros [?|[= _ ?]]; [done|congruence]|by left].
Qed.

Lemma elem_of_union_other (X : gset Listener) (role role' : Role) (j k : nat) :
  j ≠ k → (role, j) ∈ X ∪ {[(role', k)]} ↔ (role, j) ∈ X.
Proof.
  intros Hne. rewrite elem_of_union, elem_of_singleton.
  split; [intros [?|[= _ ?]]; [done|congruence]|by left].
Qed.

(** A call leaves everything that belongs to the earlier calls as it is. *)
Lemma call_frame ev s j :
  (j < nextId s)%nat →
  match ev with
  | CallSendJob _ _ _ _ _ | CallSendStreamingJob _ _ _ _ _ _ _
  | CallRunTerminal _ _ _ _ _ => frame j s (step ev s)
  | _ => True
  end.
Proof.
  intros Hj. assert (Hne : j ≠ nextId s) by lia.
  destruct ev; try done; cbn [step].
  - unfold sendJob. destruct (socket s) as [sock|] eqn:Hsock.
    2:{ split; [cbn; by rewrite lookup_insert_ne|done]. }
    split; [cbn; by rewrite lookup_insert_ne|].
    split; [cbn; by rewrite lookup_insert_ne|]. split; intros event' role.
    + change (handlers_of (alloc _ ?x)) with (handlers_of x).
      rewrite handlers_of_emit, handlers_of_on by (cbn; rewrite Hsock; eauto).
      change (handlers_of (trackListener _ _ _)) with (handlers_of s).
      case_decide; subst; [by apply elem_of_snoc_other|done].
    + change (tracked (alloc _ (upd_socket _ (upd_socket _ ?x))))
        with (tracked x).
      rewrite tracked_trackListener.
      change (tracked (setTimeout _ _ _ s)) with (tracked s).
      case_decide; subst; [by apply elem_of_union_other|done].
  - unfold sendStreamingJob. destruct (socket s) as [sock|] eqn:Hsock.
    2:{ split; [cbn; by rewrite lookup_insert_ne|done]. }
    split; [cbn; by rewrite lookup_insert_ne|].
    split; [cbn; by rewrite lookup_insert_ne|]. split; intros event' role.
    + change (handlers_of (alloc _ ?x)) with (handlers_of x).
      rewrite handlers_of_emit, handlers_of_on by (cbn; rewrite Hsock; eauto).
      change (handlers_of (trackListener _ _ _)) with (handlers_of s).
      case_decide; subst; [by apply elem_of_snoc_other|done].
    + change (tracked (alloc _ (upd_socket _ (upd_socket _ ?x))))
        with (tracked x).
      rewrite tracked_trackListener.
      change (tracked (setTimeout _ _ _ s)) with (tracked s).
      case_decide; subst; [by apply elem_of_union_other|done].
  - unfold runTerminal. destruct (isReady s); [|apply frame_refl].
    pose proof (checkRateLimit_same now s) as (Hc & Ht & Hn & Hk & Hl).
    destruct (checkRateLimit now s) as [s1 limited]. cbn in Hc, Ht, Hn, Hk, Hl.
    assert (Hh1 : ∀ ev', handlers_of s1 ev' = handlers_of s ev')
      by (intros ev'; unfold handlers_of; by rewrite Hk).
    assert (Ht1 : ∀ ev', tracked s1 ev' = tracked s ev')
      by (intros ev'; unfold tracked; by rewrite Hl).
    assert (Hfailed : ∀ e, frame j s (alloc (Failed e) s1)).
    { intros e. split; [cbn; by rewrite lookup_insert_ne, Hc by lia|].
      split; [cbn; by rewrite Ht|]. split; intros event' role.
      - change (handlers_of (alloc _ ?x)) with (handlers_of x). by rewrite Hh1.
      - change (tracked (alloc _ ?x)) with (tracked x). by rewrite Ht1. }
    destruct limited as [e|]; [done|]. case_decide; [|done].
    destruct (socket s1) as [sock|] eqn:Hsock; [|done].
    split; [cbn; by rewrite lookup_insert_ne, Hc by lia|].
    split; [cbn; by rewrite lookup_insert_ne, Ht by lia|].
    split; intros event' role.
    + change (handlers_of (alloc _ ?x)) with (handlers_of x).
      rewrite handlers_of_emit.
      rewrite !handlers_of_on by (cbn; rewrite Hsock; eauto).
      change (handlers_of (trackListener _ _ _)) with (handlers_of s1).
      rewrite <- !Hh1.
      repeat case_decide; subst; try done;
        apply elem_of_snoc_other; lia.
    + change (tracked (alloc _ (upd_socket _ (upd_socket _ (upd_socket _ ?x)))))
        with (tracked x).
      rewrite !tracked_trackListener.
      change (tracked (setTimeout _ _ _ s1)) with (tracked s1).
      rewrite <- !Ht1.
      repeat case_decide; subst; try done;
        apply elem_of_union_other; lia.
Qed.

(** X15.  Calls and timers of other jobs leave a job alone.  In every
    reachable state and for every call [j] made so far, a new call of
    sendJob, sendStreamingJob or runTerminal, the timer of any other call,
    and a (re)connection leave everything that belongs to [j] as it is: its
    closure with its promise, its timer, and where its listeners are attached
    and registered. *)
Theorem foreign_events_leave_job_alone s0 tr j c ev :
  fresh s0 → closures (run tr s0) !! j = Some c → foreign_to j ev →
  frame j (run tr s0) (step ev (run tr s0)).
Proof.
  intros Hf Hc Hev. pose proof (wf_reachable s0 tr Hf) as Hwf.
  set (s := run tr s0) in *.
  assert (Hb : (j < nextId s)%nat) by by apply (wf_closures s Hwf j c Hc).
  pose proof (call_frame ev s j Hb) as Hcall.
  destruct ev as [| | |handle now| | |]; try done.
  destruct (timerFires_local handle now s Hwf) as (_ & Hframe & _).
  by apply Hframe.
Qed.

Lemma foreign_events_leave_job_alone_witness :
  let tr := [CallSendJob "sandbox:status" VNull (Some 1000) "A" 0;
             CallSendJob "sandbox:status" VNull (Some 10) "B" 1] in
  let s := run tr (new None) in
  let s' := step (TimerFires 1 11) s in
  closures s' !! 0%nat = closures s !! 0%nat
  ∧ timers s' !! 0%nat = Some 1000
  ∧ timers s' !! 1%nat = None.
Proof.
  intros tr s s'.
  assert (Hc : ∃ c, closures s !! 0%nat = Some c)
    by (eexists; vm_compute; reflexivity).
  destruct Hc as [c Hc].
  destruct (foreign_events_leave_job_alone (new None) tr 0 c (TimerFires 1 11))
    as (Hcl & Ht & _).
  - repeat split; reflexivity.
  - exact Hc.
  - cbn. lia.
  - fold s in Hcl, Ht. fold s' in Hcl, Ht.
    split; [exact Hcl|]. split; [rewrite Ht|]; vm_compute; reflexivity.
Defined.

(** A settled streaming or terminal job is out of reach of every event. *)
Lemma frozen_step ev s j c :
  sound s → closures s !! j = Some c → settled_job c →
  closures (step ev s) !! j = Some c.
Proof.
  intros Hs Hc Hset. pose proof (sound_wf s Hs) as Hwf.
  assert (Hb : (j < nextId s)%nat) by by apply (wf_closures s Hwf j c Hc).
  assert (Hsettled : settlement c ≠ StillPending).
  { destruct c as [|env|env|]; cbn in *; try done.
    - by destruct (so_promise env).
    - by destruct (tm_promise env). }
  pose proof (settled_timer_disarmed s j c Hs Hc Hsettled) as Htimer.
  assert (Hdet : ¬ attached j s).
  { pose proof (sound_outcome s Hs j c Hc) as Ho.
    destruct c as [|env|env|]; cbn in *; try done.
    - destruct (so_promise env); [done|tauto|tauto].
    - destruct (tm_promise env); [done|tauto|tauto]. }
  pose proof (call_closures ev s j Hwf Hb) as Hcall.
  destruct ev as [| | |handle now|msg now| |]; try (by rewrite Hcall); try done.
  - destruct (decide (handle = j)) as [->|Hne].
    + cbn. by rewrite Htimer.
    + destruct (timerFires_local handle now s Hwf) as (_ & Hf & _).
      destruct (Hf j ltac:(done)) as [-> _]. done.
  - rewrite handlers_of_step_incoming.
    destruct (deliver_frame_others (handlers_of s (event_of msg)) msg now s j)
      as [-> _]; try done.
    intros Hin. apply Hdet. by exists (event_of msg), (role_of msg).
Qed.

End IsolationFacts.

(** ** runTerminal: the calls of onStdout *)

Section TerminalCallbacks.
Import Sdk Outcomes.

Lemma stdout_calls_cons opts c chunks :
  stdout_calls opts (c :: chunks)
  = stdout_calls opts [c] ++ stdout_calls opts chunks.
Proof.
  unfold stdout_calls. destruct (opts ≫= onStdout); [|done]. cbn.
  by destruct (decide (chunk c.1 = "")).
Qed.

(** A chunk with the job's id, when no other call bears that id. *)
Lemma terminal_chunk_calls j env res now s :
  wf s →
  closures s !! j = Some (Terminal env) →
  sole_bearer j (StreamChunk res) s →
  (StreamListener, j) ∈ handlers_of s STREAM →
  sc_jobId res = tm_jobId env →
  ∃ env',
    step (Incoming (StreamChunk res) now) s = set_closure j (Terminal env') s
    ∧ tm_jobId env' = tm_jobId env
    ∧ tm_promise env' = tm_promise env
    ∧ tm_opts env' = tm_opts env
    ∧ tm_calls env' = tm_calls env ++ stdout_calls (tm_opts env) [(res, now)].
Proof.
  intros Hwf Hj Huniq Hin Hid.
  rewrite handlers_of_step_incoming.
  rewrite (deliver_unique _ _ _ _ j Hwf (proj1 (wf_handlers s Hwf _)) Huniq).
  rewrite decide_True by done. unfold invoke. cbn. rewrite Hj. cbn.
  unfold streamListener, stdout_calls. case_decide as Hc.
  - cbn. eexists. split; [reflexivity|]. repeat split. cbn.
    destruct Hc as [_ Hne].
    destruct (tm_opts env ≫= onStdout); cbn; [|done].
    by rewrite decide_False by done.
  - exists env. rewrite set_closure_id by done. repeat split.
    destruct (tm_opts env ≫= onStdout); cbn; [|by rewrite app_nil_r].
    destruct (decide (chunk res = "")) as [Hempty|Hne];
      [by rewrite app_nil_r|].
    exfalso. apply Hc. by split.
Qed.

(** X17.  The calls of onStdout in runTerminal.  In every reachable state,
    for a terminal job whose stream listener is attached and whose id no
    other call bears: over any sequence of stream chunks with its id the
    caller's onStdout is called exactly once for each non-empty chunk, in
    the order of arrival, with the chunk as [line], [error = false] and the
    chunk's timestamp (the time of arrival times 1000 when the chunk has none
    or has 0); empty chunks call nothing; and whether the callback returns or
    throws, the promise is left as it was. *)
Theorem terminal_stdout_callbacks s0 tr j env
    (chunks : list (StreamChunkResponse * Z)) :
  fresh s0 →
  closures (run tr s0) !! j = Some (Terminal env) →
  (StreamListener, j) ∈ handlers_of (run tr s0) STREAM →
  (∀ k c, k ≠ j → closures (run tr s0) !! k = Some c →
          jobId_of_closure c ≠ Some (tm_jobId env)) →
  Forall (fun c => sc_jobId c.1 = tm_jobId env) chunks →
  let s' := run (map (fun c => Incoming (StreamChunk c.1) c.2) chunks)
              (run tr s0) in
  ∃ env',
    closures s' !! j = Some (Terminal env')
    ∧ tm_calls env' = tm_calls env ++ stdout_calls (tm_opts env) chunks
    ∧ tm_promise env' = tm_promise env.
Proof.
  intros Hfresh Hj Hin Huniq Hids s'.
  pose proof (wf_reachable s0 tr Hfresh) as Hwf.
  subst s'. set (s := run tr s0) in *. clearbody s. clear Hfresh.
  remember (tm_jobId env) as id eqn:Heq.
  revert s env Heq Hwf Hj Hin Huniq.
  induction Hids as [|[res t] chunks Hid Hids IH];
    intros s env Heq Hwf Hj Hin Huniq.
  - exists env. split; [done|]. split; [|done].
    unfold stdout_calls. destruct (tm_opts env ≫= onStdout);
      by rewrite app_nil_r.
  - cbn [map run fold_left]. cbn in Hid.
    destruct (terminal_chunk_calls j env res t s Hwf Hj)
      as (env' & Hs & Hid' & Hp' & Ho' & Hc'); try done; [|congruence|].
    { intros k c Hk Hc. cbn. rewrite Hid. by eapply Huniq. }
    change (fold_left (λ acc ev, step ev acc) ?l ?x) with (run l x).
    cbn [fst snd]. rewrite Hs.
    destruct (IH (set_closure j (Terminal env') s) env')
      as (env'' & H1 & H2 & H3); try done.
    + congruence.
    + rewrite <- Hs. by apply wf_step.
    + cbn. by rewrite lookup_insert_eq.
    + intros k c Hk. cbn. rewrite lookup_insert_ne by done. by apply Huniq.
    + exists env''. split; [done|]. split; [|congruence].
      rewrite H2, Hc', Ho', (stdout_calls_cons _ (res, t) chunks).
      by rewrite <- app_assoc.
Qed.

Lemma terminal_stdout_callbacks_witness :
  let boom := Thrown (VStr "boom") in
  let opts := {| onStdout := Some (fun _ => Throws boom); onStderr := None;
                 onResult := None; onError := None; timeoutMs := None |} in
  let s0 :=
    mkSdk (Some {| handlers := ∅; emitted := [] |}) true 60000 ∅ {["sb"]}
      MetricsCollector.new (RateLimiter.new (Some 60)) ∅ ∅ 0 in
  let tr := [CallRunTerminal "sb" "ls" (Some opts) "T" 0] in
  let chunks :=
    [({| sc_jobId := "T"; chunk := "a"; sc_timestamp := Some 7 |}, 1);
     ({| sc_jobId := "T"; chunk := ""; sc_timestamp := None |}, 2);
     ({| sc_jobId := "T"; chunk := "b"; sc_timestamp := Some 0 |}, 3)] in
  let s' := run (map (fun c => Incoming (StreamChunk c.1) c.2) chunks)
              (run tr s0) in
  ∃ env',
    closures s' !! 0%nat = Some (Terminal env')
    ∧ tm_calls env'
      = [CalledOnStdout {| om_line := VStr "a"; om_timestamp := 7;
                           om_error := false |};
         CalledOnStdout {| om_line := VStr "b"; om_timestamp := 3000;
                           om_error := false |}]
    ∧ tm_promise env' = Pending.
Proof.
  intros boom opts s0 tr chunks s'.
  destruct (terminal_stdout_callbacks s0 tr 0
    {| tm_jobId := "T"; tm_timeout := 60000; tm_timeoutHandle := Some 0%nat;
       tm_output := ""; tm_opts := Some opts; tm_startTime := 0;
       tm_calls := []; tm_promise := Pending |} chunks)
    as (env' & Hc & Hcalls & Hp).
  - repeat split; reflexivity.
  - vm_compute. reflexivity.
  - vm_compute. left.
  - assert (Hcl : closures (run tr s0)
                  = <[0%nat := Terminal
                        {| tm_jobId := "T"; tm_timeout := 60000;
                           tm_timeoutHandle := Some 0%nat; tm_output := "";
                           tm_opts := Some opts; tm_startTime := 0;
                           tm_calls := []; tm_promise := Pending |}]> ∅)
      by (vm_compute; reflexivity).
    intros k c Hk. rewrite Hcl, lookup_insert_ne by done. by rewrite lookup_empty.
  - repeat constructor.
  - exists env'. split; [exact Hc|]. split; [|exact Hp].
    rewrite Hcalls. reflexivity.
Defined.

End TerminalCallbacks.

(** ** What is sent to the server *)

Section EmissionFacts.
Import Sdk Outcomes Accounting.

Lemma sent_off ev l s : sent (upd_socket (off ev l) s) = sent s.
Proof. unfold sent, upd_socket. by destruct (socket s). Qed.

Lemma sent_clearTimeout handle s : sent (clearTimeout handle s) = sent s.
Proof. by destruct handle. Qed.

Lemma sent_streaming_cleanup j env s : sent (streaming_cleanup j env s) = sent s.
Proof. unfold streaming_cleanup. by rewrite sent_off, sent_clearTimeout. Qed.

Lemma sent_terminal_cleanup j env s : sent (terminal_cleanup j env s) = sent s.
Proof.
  unfold terminal_cleanup. rewrite !sent_off.
  change (sent (removeListener _ _ (removeListener _ _ ?x))) with (sent x).
  apply sent_clearTimeout.
Qed.

Lemma invoke_sent l msg now s : sent (invoke l msg now s).1 = sent s.
Proof.
  unfold invoke.
  destruct (closures s !! l.2) as [[env|env|env|e]|]; try done;
    destruct l.1, msg; try done; cbn [fst].
  - unfold sendJob_listener. case_decide; [|done].
    change (sent (set_closure _ _ ?x)) with (sent x). rewrite sent_off.
    change (sent (removeListener _ _ ?x)) with (sent x).
    apply sent_clearTimeout.
  - unfold outputListener. case_decide; [|done].
    destruct (parseOutput _ _ _ _) as [[execution calls] [e|]].
    + apply (sent_streaming_cleanup l.2 env s).
    + destruct (error execution); [|done].
      apply (sent_streaming_cleanup l.2 env s).
  - unfold streamListener. by case_decide.
  - unfold endListener. case_decide; [|done].
    apply (sent_terminal_cleanup l.2 env s).
Qed.

Lemma deliver_sent ls msg now s : sent (deliver ls msg now s) = sent s.
Proof.
  revert s. induction ls as [|l ls IH]; intros s; [done|]. cbn.
  pose proof (invoke_sent l msg now s) as Hl.
  destruct (invoke l msg now s) as [s' [e|]]; cbn in Hl; [done|].
  by rewrite IH.
Qed.

Lemma fire_sent j s : sent (fire j s) = sent s.
Proof.
  unfold fire. destruct (closures s !! j) as [[env|env|env|e]|]; try done.
  - apply (sent_streaming_cleanup j env s).
  - apply (sent_terminal_cleanup j env s).
Qed.

Lemma emitted_foldr_off ev ls sock :
  emitted (foldr (off ev) sock ls) = emitted sock.
Proof. induction ls as [|l ls IH]; [done|]. by cbn. Qed.

Lemma emitted_detach (items : list (string * gset Listener)) sock :
  emitted (foldr (fun '(ev, ls) sk => foldr (off ev) sk (elements ls))
             sock items)
  = emitted sock.
Proof.
  induction items as [|[ev ls] items IH]; [done|].
  rewrite foldr_cons. by rewrite emitted_foldr_off.
Qed.

Lemma cleanupAllListeners_sent s : sent (cleanupAllListeners s) = sent s.
Proof.
  unfold sent, cleanupAllListeners.
  change (socket (upd_listeners _ (upd_socket ?f s))) with (f <$> socket s).
  destruct (socket s) as [sock|]; [|done].
  change (default [] (emitted <$> (?f <$> Some sock))) with (emitted (f sock)).
  apply emitted_detach.
Qed.

Lemma deliver_nextId ls msg now s :
  wf s → nextId (deliver ls msg now s) = nextId s.
Proof.
  revert s. induction ls as [|l ls IH]; intros s Hwf; [done|]. cbn.
  pose proof (invoke_local l msg now s) as (Hn & _).
  { intros c h. by apply wf_handle. }
  pose proof (invoke_wf l msg now s Hwf) as Hwf'.
  destruct (invoke l msg now s) as [s' [e|]]; cbn in *; [done|].
  by rewrite IH.
Qed.

Lemma omap_ext_in {A B} (f g : A → option B) (l : list A) :
  (∀ x, x ∈ l → f x = g x) → omap f l = omap g l.
Proof.
  induction l as [|x l IH]; intros Hfg; [done|]. cbn.
  rewrite (Hfg x) by by left. rewrite IH; [done|].
  intros y Hy. apply Hfg. by right.
Qed.

(** Nothing but a call sends anything, and no step changes the job id of a
    call. *)
Lemma step_quiet ev s :
  wf s →
  match ev with
  | CallSendJob _ _ _ _ _ | CallSendStreamingJob _ _ _ _ _ _ _
  | CallRunTerminal _ _ _ _ _ => True
  | _ => sent (step ev s) = sent s ∧ job_ids (step ev s) = job_ids s
  end.
Proof.
  intros Hwf.
  assert (Hids : ∀ ev', nextId (step ev' s) = nextId s →
            (∀ j, closures s !! j = None → closures (step ev' s) !! j = None) →
            job_ids (step ev' s) = job_ids s).
  { intros ev' Hn Hnone. unfold job_ids. rewrite Hn.
    apply omap_ext_in. intros j _.
    destruct (closures s !! j) as [c|] eqn:Hc.
    - destruct (step_evolves ev' s j c Hwf Hc) as (c' & -> & Hid & _). done.
    - by rewrite (Hnone j Hc). }
  destruct ev as [| | |handle now|msg now| |]; try done.
  - split.
    + cbn. destruct (timers s !! handle); [|done]. case_decide; [|done].
      by rewrite fire_sent.
    + apply Hids.
      * by apply (timerFires_local handle now s Hwf).
      * intros j. apply (step_closure_none (TimerFires handle now) s j Hwf).
  - split.
    + rewrite handlers_of_step_incoming. apply deliver_sent.
    + apply Hids.
      * rewrite handlers_of_step_incoming. by apply deliver_nextId.
      * intros j. apply (step_closure_none (Incoming msg now) s j Hwf).
  - split; [apply (cleanupAllListeners_sent (set_isConnected false s))|].
    apply Hids; [reflexivity|]. by intros j.
Qed.

Lemma job_ids_alloc c s s1 :
  wf s → closures s1 = closures s → nextId s1 = nextId s →
  job_ids (alloc c s1) = job_ids s ++ option_list (jobId_of_closure c).
Proof.
  intros Hwf Hc Hn. unfold job_ids. cbn [nextId alloc closures].
  rewrite Hn, Hc, seq_S, omap_app. cbn. rewrite lookup_insert_eq. cbn.
  f_equal.
  apply omap_ext_in. intros j Hj%elem_of_seq.
  rewrite lookup_insert_ne by lia. done.
Qed.

Lemma sent_emit ev jobId payload s sock :
  socket s = Some sock →
  sent (upd_socket (emit ev jobId payload) s) = sent s ++ [(ev, jobId, payload)].
Proof. intros Hs. unfold sent, upd_socket. by rewrite Hs. Qed.

Lemma sent_on ev l s : sent (upd_socket (on ev l) s) = sent s.
Proof. unfold sent, upd_socket. by destruct (socket s). Qed.

(** A step sends one message when it is a call that got past its checks,
    with the job id of that call, and nothing otherwise. *)
Lemma step_sends ev s :
  wf s →
  ∃ msgs, sent (step ev s) = sent s ++ msgs
          ∧ (fun m : string * string * Value => m.1.2) <$> msgs
            = drop (length (job_ids s)) (job_ids (step ev s))
          ∧ job_ids (step ev s)
            = job_ids s ++ drop (length (job_ids s)) (job_ids (step ev s)).
Proof.
  intros Hwf.
  assert (Hdrop : ∀ (l k : list string), drop (length l) (l ++ k) = k).
  { intros l k. by rewrite drop_app_length. }
  assert (Hfail : ∀ e s1, closures s1 = closures s → nextId s1 = nextId s →
            sent s1 = sent s →
            ∃ msgs, sent (alloc (Failed e) s1) = sent s ++ msgs
              ∧ (fun m : string * string * Value => m.1.2) <$> msgs
                = drop (length (job_ids s)) (job_ids (alloc (Failed e) s1))
              ∧ job_ids (alloc (Failed e) s1)
                = job_ids s
                  ++ drop (length (job_ids s)) (job_ids (alloc (Failed e) s1))).
  { intros e s1 Hc Hn Hs1. exists [].
    change (sent (alloc _ s1)) with (sent s1).
    rewrite Hs1, (job_ids_alloc _ s) by done.
    cbn [jobId_of_closure option_list]. by rewrite !app_nil_r, drop_all, app_nil_r. }
  assert (Hquiet := step_quiet ev s Hwf).
  destruct ev as [event payload tmo uuid now|event payload execution metadata
                  opts uuid now|sandbox command opts uuid now| | | |].
  4-7: destruct Hquiet as [Hq1 Hq2]; rewrite Hq1, Hq2; exists [];
       rewrite app_nil_r, drop_all; by rewrite app_nil_r.
  - cbn [step]. unfold sendJob.
    destruct (socket s) as [sock|] eqn:Hsock; [|by apply Hfail].
    exists [(event, uuid, payload)]. rewrite (job_ids_alloc _ s) by done.
    rewrite Hdrop. split; [|done].
    change (sent (alloc _ ?x)) with (sent x).
    erewrite sent_emit by (cbn; by rewrite Hsock). by rewrite sent_on.
  - cbn [step]. unfold sendStreamingJob.
    destruct (socket s) as [sock|] eqn:Hsock; [|by apply Hfail].
    exists [(event, uuid, payload)]. rewrite (job_ids_alloc _ s) by done.
    rewrite Hdrop. split; [|done].
    change (sent (alloc _ ?x)) with (sent x).
    erewrite sent_emit by (cbn; by rewrite Hsock). by rewrite sent_on.
  - cbn [step]. unfold runTerminal. destruct (isReady s).
    2:{ exists []. by rewrite app_nil_r, drop_all, app_nil_r. }
    pose proof (checkRateLimit_same now s) as (Hc & _ & Hn & Hk & _).
    destruct (checkRateLimit now s) as [s1 limited]. cbn in Hc, Hn, Hk.
    assert (Hs1 : sent s1 = sent s) by (unfold sent; by rewrite Hk).
    destruct limited; [by apply Hfail|].
    case_decide; [|by apply Hfail].
    destruct (socket s1) as [sock|] eqn:Hsock; [|by apply Hfail].
    eexists [(TERMINAL, uuid, _)]. rewrite (job_ids_alloc _ s) by done.
    rewrite Hdrop. split; [|done].
    change (sent (alloc _ ?x)) with (sent x).
    erewrite sent_emit by (cbn; by rewrite Hsock).
    by rewrite !sent_on, <- Hs1.
Qed.

(** X18.  What the SDK sends.  Over every trace from a new SDK, the
    messages emitted on the socket are exactly one per call of sendJob,
    sendStreamingJob or runTerminal that got past its checks, in the order
    of the calls and each carrying the job id of its call; a call that is
    rejected at once emits nothing, and neither a listener, nor a timeout,
    nor a disconnection emits anything: in particular the server is not told
    when a job times out. *)
Theorem one_message_per_accepted_call s0 tr :
  fresh s0 →
  ∃ msgs,
    sent (run tr s0) = sent s0 ++ msgs
    ∧ (fun m : string * string * Value => m.1.2) <$> msgs
      = job_ids (run tr s0).
Proof.
  intros Hf.
  assert (H0 : job_ids s0 = []).
  { destruct Hf as (_ & _ & Hn & _). unfold job_ids. by rewrite Hn. }
  assert (Hinv : ∀ s, wf s →
            ∃ msgs, sent (run tr s) = sent s ++ msgs
                    ∧ job_ids (run tr s)
                      = job_ids s
                        ++ ((fun m : string * string * Value => m.1.2) <$> msgs)).
  { induction tr as [|ev tr IH]; intros s Hwf.
    - exists []. by rewrite !app_nil_r.
    - cbn. change (fold_left (λ acc ev, step ev acc) tr ?x) with (run tr x).
      destruct (step_sends ev s Hwf) as (m1 & Hs1 & Hi1 & Hj1).
      destruct (IH (step ev s) (wf_step ev s Hwf)) as (m2 & Hs2 & Hi2).
      exists (m1 ++ m2). rewrite Hs2, Hs1, Hi2, Hj1, fmap_app, Hi1.
      by rewrite <- !app_assoc. }
  destruct (Hinv s0 (wf_fresh s0 Hf)) as (msgs & Hs & Hi).
  exists msgs. split; [done|]. by rewrite Hi, H0.
Qed.

Lemma one_message_per_accepted_call_witness :
  let s0 :=
    mkSdk (Some {| handlers := ∅; emitted := [] |}) true 60000 ∅ {["sb"]}
      MetricsCollector.new (RateLimiter.new (Some 60)) ∅ ∅ 0 in
  let tr :=
    [CallSendJob "sandbox:status" VNull (Some 100) "A" 0;
     CallRunTerminal "gone" "ls" None "B" 1;
     CallRunTerminal "sb" "ls" None "C" 2;
     TimerFires 0 100;
     SocketDisconnect] in
  (fun m : string * string * Value => m.1.2) <$> sent (run tr s0)
  = ["A"; "C"]%string.
Proof.
  intros s0 tr.
  destruct (one_message_per_accepted_call s0 tr) as (msgs & Hs & Hi).
  - repeat split; reflexivity.
  - rewrite Hs. change (sent s0 ++ msgs) with msgs. rewrite Hi.
    vm_compute. reflexivity.
Defined.

End EmissionFacts.

(** ** outputListener with its await *)

Section AsyncFacts.
Import Sdk Outcomes Async.

(** *** The two halves of outputListener *)

Lemma outputListener_call_local j env res now s :
  local j s (outputListener_call j env res now s).1.
Proof.
  unfold outputListener_call. case_decide; [|apply local_refl].
  destruct (parseOutput _ _ _ _) as [[execution calls] exn].
  apply local_set_closure.
Qed.

Lemma outputListener_call_wf j env res now s :
  wf s → closures s !! j = Some (Streaming env) →
  wf (outputListener_call j env res now s).1.
Proof.
  intros Hwf Hj. destruct (wf_closures s Hwf j _ Hj) as (Hb & Hh & Hn & Hp & _).
  cbn in *. eapply wf_local; [done|apply outputListener_call_local|].
  unfold outputListener_call. case_decide.
  - destruct (parseOutput _ _ _ _) as [[execution calls] exn].
    cbn. rewrite lookup_insert_eq. intros c' [= <-]. by repeat split.
  - cbn. rewrite Hj. intros c' [= <-]. by repeat split.
Qed.

Lemma outputListener_call_evolves j env res now s :
  closures s !! j = Some (Streaming env) →
  ∃ c', closures (outputListener_call j env res now s).1 !! j = Some c'
        ∧ evolves (Streaming env) c'.
Proof.
  intros Hj. unfold outputListener_call.
  case_decide; [|eauto using evolves_refl].
  destruct (parseOutput _ _ _ _) as [[execution calls] exn].
  cbn. rewrite lookup_insert_eq. eexists. split; [done|]. by repeat split.
Qed.

Lemma outputListener_call_outcome j env res now s :
  own_pre j s (Streaming env) (timers s !! j) →
  closures s !! j = Some (Streaming env) →
  own_post j s (outputListener_call j env res now s).1.
Proof.
  intros (_ & _ & Ho) Hc c'. unfold outputListener_call. case_decide.
  - pose proof (parseOutput_keeps_error (so_execution env) (jo_line res)
                  (so_opts env) now) as Hkeep.
    destruct (parseOutput _ _ _ _) as [[execution calls] exn]; cbn in Hkeep.
    cbn. rewrite lookup_insert_eq. intros [= <-]. split; [|done].
    cbn in *. destruct (so_promise env); cbn; tauto.
  - cbn. rewrite Hc. intros [= <-]. by split.
Qed.

Lemma outputListener_call_origin j env res now s k :
  k ∈ (outputListener_call j env res now s).2 → k_job k = j.
Proof.
  unfold outputListener_call. case_decide; [|by intros ?%elem_of_nil].
  destruct (parseOutput _ _ _ _) as [[execution calls] exn]. cbn.
  by intros ->%list_elem_of_singleton.
Qed.

Lemma outputListener_resume_local k t1 t2 t3 s :
  wf s → local (k_job k) s (outputListener_resume k t1 t2 t3 s).
Proof.
  intros Hwf. unfold outputListener_resume.
  destruct (closures s !! k_job k) as [[env|env|env|e]|] eqn:Hc;
    try apply local_refl.
  assert (Hh : ∀ h, so_timeoutHandle env = Some h → h = k_job k)
    by (intros h; by apply (wf_handle s _ (Streaming env))).
  destruct (k_exn k) as [e|].
  - eapply local_trans; [by apply streaming_cleanup_local|apply local_set_closure].
  - destruct (error (so_execution env)); [|apply local_refl].
    eapply local_trans; [by apply streaming_cleanup_local|].
    eapply local_trans; [apply local_upd_metricsCollector|apply local_set_closure].
Qed.

Lemma outputListener_resume_wf k t1 t2 t3 s :
  wf s → wf (outputListener_resume k t1 t2 t3 s).
Proof.
  intros Hwf. eapply wf_local; [done|by apply outputListener_resume_local|].
  unfold outputListener_resume.
  destruct (closures s !! k_job k) as [[env|env|env|e]|] eqn:Hj;
    try (intros c' Hc'; by apply (wf_closures s Hwf)).
  destruct (wf_closures s Hwf _ _ Hj) as (Hb & Hh & Hn & Hp & _). cbn in *.
  assert (Ht : timers (clearTimeout (so_timeoutHandle env) s) !! k_job k = None)
    by by apply timers_clearTimeout.
  destruct (k_exn k) as [e|].
  - cbn. rewrite lookup_insert_eq. intros c' [= <-]. split; [done|].
    rewrite Ht. repeat split; cbn; try done.
    intros Hpend%settlement_pending. by apply reject_not_pending in Hpend.
  - destruct (error (so_execution env)).
    + cbn. rewrite lookup_insert_eq. intros c' [= <-]. split; [done|].
      rewrite Ht. repeat split; cbn; try done.
      intros Hpend%settlement_pending. by apply resolve_not_pending in Hpend.
    + rewrite Hj. intros c' [= <-]. by repeat split.
Qed.

Lemma outputListener_resume_own k t1 t2 t3 s c :
  closures s !! k_job k = Some c →
  ∃ c', closures (outputListener_resume k t1 t2 t3 s) !! k_job k = Some c'
        ∧ evolves c c'.
Proof.
  intros Hj. unfold outputListener_resume. rewrite Hj.
  destruct c as [env|env|env|e]; eauto using evolves_refl.
  destruct (k_exn k) as [e|]; [|destruct (error (so_execution env))];
    [| |rewrite Hj; eauto using evolves_refl];
    cbn; rewrite lookup_insert_eq;
    (eexists; split; [done|]); repeat split; cbn; try done.
  - intros Hne%settlement_settled. by rewrite reject_settled.
  - apply reject_settled.
  - intros Hne%settlement_settled. by rewrite resolve_settled.
  - apply resolve_settled.
Qed.

Lemma outputListener_resume_evolves k t1 t2 t3 s j c :
  wf s → closures s !! j = Some c →
  ∃ c', closures (outputListener_resume k t1 t2 t3 s) !! j = Some c'
        ∧ evolves c c'.
Proof.
  intros Hwf Hj. destruct (decide (k_job k = j)) as [<-|Hne].
  - by apply outputListener_resume_own.
  - destruct (outputListener_resume_local k t1 t2 t3 s Hwf) as (_ & Hf & _).
    destruct (Hf j) as [Hc _]; [done|]. rewrite Hc. eauto using evolves_refl.
Qed.

Lemma outputListener_resume_outcome k t1 t2 t3 s env :
  own_pre (k_job k) s (Streaming env) (timers s !! k_job k) →
  closures s !! k_job k = Some (Streaming env) →
  own_post (k_job k) s (outputListener_resume k t1 t2 t3 s).
Proof.
  intros Hpre Hc c'.
  pose proof (streaming_cleanup_detached (k_job k) env s _ Hpre) as Hd.
  destruct Hpre as (_ & _ & Ho). unfold outputListener_resume. rewrite Hc.
  destruct (k_exn k) as [e|].
  - cbn. rewrite lookup_insert_eq. intros [= <-]. split.
    + cbn in *. destruct (so_promise env); cbn; tauto.
    + intros Hp%settlement_pending. cbn in Hp.
      by apply reject_not_pending in Hp.
  - destruct (error (so_execution env)) as [err|] eqn:Herr.
    + cbn. rewrite lookup_insert_eq. intros [= <-]. split.
      * cbn in *. rewrite Herr. destruct (so_promise env); cbn; try tauto;
          (split; [by eauto|split; [done|exact Hd]]).
      * intros Hp%settlement_pending. cbn in Hp.
        by apply resolve_not_pending in Hp.
    + rewrite Hc. intros [= <-]. by split.
Qed.

Lemma outputListener_resume_sound k t1 t2 t3 s :
  sound s → sound (outputListener_resume k t1 t2 t3 s).
Proof.
  intros Hs. pose proof (sound_wf s Hs) as Hwf.
  apply (sound_local (k_job k) s); [done|by apply outputListener_resume_wf| | |].
  - by apply outputListener_resume_local.
  - intros c. by apply outputListener_resume_own.
  - destruct (closures s !! k_job k) as [[env|env|env|e]|] eqn:Hc.
    2:{ apply (outputListener_resume_outcome k t1 t2 t3 s env); [|done].
        by apply own_pre_sound. }
    all: unfold outputListener_resume; rewrite Hc; by apply own_post_refl.
Qed.

(** *** Calling a listener, delivering a message *)

Lemma async_invoke_cases l msg now s :
  (∃ env res,
     closures s !! l.2 = Some (Streaming env) ∧ l.1 = OutputListener
     ∧ msg = JobOutput res
     ∧ invoke l msg now s
       = ((outputListener_call l.2 env res now s).1,
          (outputListener_call l.2 env res now s).2, None))
  ∨ invoke l msg now s
    = ((Sdk.invoke l msg now s).1, [], (Sdk.invoke l msg now s).2).
Proof.
  unfold invoke.
  destruct (closures s !! l.2) as [[env|env|env|e]|] eqn:E;
    destruct l.1 eqn:E1; destruct msg eqn:E2;
    try (right; by destruct (Sdk.invoke _ _ _ _)).
  left. exists env, res. repeat split.
  by destruct (outputListener_call _ _ _ _ _).
Qed.

Lemma async_invoke_local l msg now s :
  wf s → local l.2 s (invoke l msg now s).1.1.
Proof.
  intros Hwf.
  destruct (async_invoke_cases l msg now s)
    as [(env & res & Hc & _ & _ & ->)| ->]; cbn [fst].
  - apply outputListener_call_local.
  - apply invoke_local. intros c h. by apply wf_handle.
Qed.

Lemma async_invoke_wf l msg now s : wf s → wf (invoke l msg now s).1.1.
Proof.
  intros Hwf.
  destruct (async_invoke_cases l msg now s)
    as [(env & res & Hc & _ & _ & ->)| ->]; cbn [fst].
  - by apply outputListener_call_wf.
  - by apply invoke_wf.
Qed.

Lemma async_invoke_evolves l msg now s j c :
  wf s → closures s !! j = Some c →
  ∃ c', closures (invoke l msg now s).1.1 !! j = Some c' ∧ evolves c c'.
Proof.
  intros Hwf Hj.
  destruct (async_invoke_cases l msg now s)
    as [(env & res & Hc & _ & _ & ->)| ->]; cbn [fst];
    [|by apply invoke_evolves].
  destruct (decide (l.2 = j)) as [<-|Hne].
  - assert (c = Streaming env) by congruence. subst c.
    by apply outputListener_call_evolves.
  - destruct (outputListener_call_local l.2 env res now s) as (_ & Hf & _).
    destruct (Hf j) as [Hc' _]; [done|]. rewrite Hc'. eauto using evolves_refl.
Qed.

Lemma async_invoke_sound l msg now s : sound s → sound (invoke l msg now s).1.1.
Proof.
  intros Hs. pose proof (sound_wf s Hs) as Hwf.
  destruct (async_invoke_cases l msg now s)
    as [(env & res & Hc & _ & _ & Heq)|Heq]; rewrite Heq; cbn [fst];
    [|by apply sound_invoke].
  apply (sound_local l.2 s); [done|by apply outputListener_call_wf| | |].
  - apply outputListener_call_local.
  - intros c Hc'. assert (c = Streaming env) by congruence. subst c.
    by apply outputListener_call_evolves.
  - apply outputListener_call_outcome; [|done]. by apply own_pre_sound.
Qed.

Lemma async_invoke_frame l msg now s j :
  wf s → l.2 ≠ j → frame j s (invoke l msg now s).1.1.
Proof.
  intros Hwf Hne. destruct (async_invoke_local l msg now s Hwf) as (_ & Hf & _).
  by apply Hf.
Qed.

Lemma async_invoke_other_role role j msg now s :
  role ≠ role_of msg → invoke (role, j) msg now s = (s, [], None).
Proof.
  intros Hr. unfold invoke. cbn [fst snd].
  destruct (closures s !! j) as [[env|env|env|e]|] eqn:E;
    destruct role, msg; try done;
    rewrite invoke_other_role by done; done.
Qed.

Lemma async_invoke_origin l msg now s k :
  k ∈ (invoke l msg now s).1.2 → k_job k = l.2 ∧ l.1 = OutputListener.
Proof.
  destruct (async_invoke_cases l msg now s)
    as [(env & res & Hc & Hr & _ & ->)| ->]; cbn [fst snd].
  - intros Hk%outputListener_call_origin. by split.
  - by intros ?%elem_of_nil.
Qed.

Lemma async_deliver_wf ls msg now s : wf s → wf (deliver ls msg now s).1.
Proof.
  revert s. induction ls as [|l ls IH]; intros s Hwf; [done|]. cbn.
  pose proof (async_invoke_wf l msg now s Hwf) as Hwf'.
  destruct (invoke l msg now s) as [[s' ks] [e|]]; [done|].
  specialize (IH s' Hwf'). by destruct (deliver ls msg now s').
Qed.

Lemma async_deliver_sound ls msg now s : sound s → sound (deliver ls msg now s).1.
Proof.
  revert s. induction ls as [|l ls IH]; intros s Hs; [done|]. cbn.
  pose proof (async_invoke_sound l msg now s Hs) as Hs'.
  destruct (invoke l msg now s) as [[s' ks] [e|]]; [done|].
  specialize (IH s' Hs'). by destruct (deliver ls msg now s').
Qed.

Lemma async_deliver_evolves ls msg now s j c :
  wf s → closures s !! j = Some c →
  ∃ c', closures (deliver ls msg now s).1 !! j = Some c' ∧ evolves c c'.
Proof.
  revert s c. induction ls as [|l ls IH]; intros s c Hwf Hj;
    [eauto using evolves_refl|]. cbn.
  destruct (async_invoke_evolves l msg now s j c Hwf Hj) as (c1 & Hc1 & He1).
  pose proof (async_invoke_wf l msg now s Hwf) as Hwf1.
  destruct (invoke l msg now s) as [[s1 ks] [e|]]; cbn in *; [eauto|].
  destruct (IH s1 c1 Hwf1 Hc1) as (c2 & Hc2 & He2).
  destruct (deliver ls msg now s1). eauto using evolves_trans.
Qed.

Lemma async_deliver_origin ls msg now s k :
  k ∈ (deliver ls msg now s).2 → (OutputListener, k_job k) ∈ ls.
Proof.
  revert s. induction ls as [|l ls IH]; intros s; [by intros ?%elem_of_nil|].
  cbn. pose proof (async_invoke_origin l msg now s k) as Ho.
  destruct (invoke l msg now s) as [[s' ks] [e|]]; cbn [fst snd] in *.
  - intros Hk. destruct (Ho Hk) as [Hj Hr]. apply elem_of_cons. left.
    destruct l as [r i]; cbn in *. by subst.
  - specialize (IH s'). destruct (deliver ls msg now s') as [s'' ks'].
    cbn [snd] in *. intros [Hk|Hk]%elem_of_app.
    + destruct (Ho Hk) as [Hj Hr]. apply elem_of_cons. left.
      destruct l as [r i]; cbn in *. by subst.
    + apply elem_of_cons. right. by apply IH.
Qed.

(** Delivery to a list of handlers none of which is the one of call [j]
    that reacts to the message. *)
Lemma async_deliver_frame_others ls msg now s j :
  wf s → (role_of msg, j) ∉ ls → frame j s (deliver ls msg now s).1.
Proof.
  revert s. induction ls as [|l ls IH]; intros s Hwf Hnot; [apply frame_refl|].
  apply not_elem_of_cons in Hnot as [Hl Hnot]. cbn.
  destruct (decide (l.2 = j)) as [Hj|Hj].
  - destruct l as [role k]. cbn in Hj. subst k.
    rewrite async_invoke_other_role by congruence.
    specialize (IH s Hwf Hnot). by destruct (deliver ls msg now s).
  - pose proof (async_invoke_frame l msg now s j Hwf Hj) as Hf.
    pose proof (async_invoke_wf l msg now s Hwf) as Hwf'.
    destruct (invoke l msg now s) as [[s' ks] [e|]]; cbn in *; [done|].
    specialize (IH s' Hwf' Hnot). destruct (deliver ls msg now s').
    by eapply frame_trans.
Qed.

(** When the output listener of call [j] is among the handlers the line
    reaches, the round amounts, for everything that belongs to [j], to the
    call of that listener in a state that agrees with the initial one on
    [j]; the continuation it leaves is among those of the round. *)
Lemma async_deliver_own ls res now s j env :
  wf s → NoDup ls → (OutputListener, j) ∈ ls →
  closures s !! j = Some (Streaming env) →
  ∃ s_pre, wf s_pre ∧ frame j s s_pre
           ∧ frame j (outputListener_call j env res now s_pre).1
               (deliver ls (JobOutput res) now s).1
           ∧ ∀ k, k ∈ (outputListener_call j env res now s_pre).2 →
                  k ∈ (deliver ls (JobOutput res) now s).2.
Proof.
  intros Hwf Hnd Hin. revert s Hwf.
  induction Hnd as [|l ls Hl Hnd IH]; intros s Hwf Hc;
    [by apply elem_of_nil in Hin|].
  cbn. pose proof (async_invoke_wf l (JobOutput res) now s Hwf) as Hwf'.
  destruct (decide (l = (OutputListener, j))) as [->|Hne].
  - exists s. split; [done|]. split; [apply frame_refl|].
    unfold invoke at 1 2. cbn [fst snd]. rewrite Hc.
    pose proof (outputListener_call_wf j env res now s Hwf Hc) as Hwf1.
    destruct (outputListener_call j env res now s) as [s1 ks]. cbn [fst snd] in *.
    pose proof (async_deliver_frame_others ls (JobOutput res) now s1 j Hwf1 Hl)
      as Hfr.
    destruct (deliver ls (JobOutput res) now s1) as [s2 ks2]. cbn [fst snd] in *.
    split; [done|]. intros k Hk. apply elem_of_app. by left.
  - apply elem_of_cons in Hin as [Hin|Hin]; [congruence|].
    assert (Hf : frame j s (invoke l (JobOutput res) now s).1.1).
    { destruct (decide (l.2 = j)) as [Hj|Hj]; [|by apply async_invoke_frame].
      destruct l as [role k]. cbn in Hj. subst k.
      rewrite async_invoke_other_role by (cbn; congruence). apply frame_refl. }
    assert (Hno : (invoke l (JobOutput res) now s).2 = None).
    { destruct (async_invoke_cases l (JobOutput res) now s)
        as [(env' & res' & _ & _ & _ & ->)| ->]; [done|].
      by apply invoke_no_throw. }
    destruct (invoke l (JobOutput res) now s) as [[s' ks] o];
      cbn [fst snd] in *; subst o.
    destruct (IH Hin s' Hwf') as (s_pre & Hwfp & Hfp & Hfinal & Hks).
    { destruct Hf as [-> _]. done. }
    destruct (deliver ls (JobOutput res) now s') as [s'' ks'].
    cbn [fst snd] in *.
    exists s_pre. split; [done|]. split; [by eapply frame_trans|].
    split; [done|]. intros k Hk. apply elem_of_app. right. by apply Hks.
Qed.

(** *** Steps and runs *)

Lemma async_step_external ev a :
  (∀ msg now, ev ≠ Incoming msg now) →
  step (External ev) a = {| sdk := Sdk.step ev (sdk a); suspended := suspended a |}.
Proof. intros Hne. destruct ev; try done. by destruct (Hne msg now). Qed.

Lemma async_step_incoming msg now a :
  step (External (Incoming msg now)) a
  = {| sdk := (deliver (handlers_of (sdk a) (event_of msg)) msg now (sdk a)).1;
       suspended :=
         suspended a
         ++ (deliver (handlers_of (sdk a) (event_of msg)) msg now (sdk a)).2 |}.
Proof. cbn. by destruct (deliver _ _ _ _). Qed.

Lemma async_step_resume n t1 t2 t3 a k :
  suspended a !! n = Some k →
  step (Resume n t1 t2 t3) a
  = {| sdk := outputListener_resume k t1 t2 t3 (sdk a);
       suspended := delete n (suspended a) |}.
Proof. intros Hk. cbn. by rewrite Hk. Qed.

Lemma async_step_wf ev a : wf (sdk a) → wf (sdk (step ev a)).
Proof.
  intros Hwf. destruct ev as [ev|n t1 t2 t3].
  - destruct ev; try (by apply (wf_step _ (sdk a))).
    rewrite async_step_incoming. by apply async_deliver_wf.
  - cbn. destruct (suspended a !! n); [|done]. by apply outputListener_resume_wf.
Qed.

Lemma async_step_sound ev a : sound (sdk a) → sound (sdk (step ev a)).
Proof.
  intros Hs. destruct ev as [ev|n t1 t2 t3].
  - destruct ev; try (by apply (sound_step _ (sdk a))).
    rewrite async_step_incoming. by apply async_deliver_sound.
  - cbn. destruct (suspended a !! n); [|done].
    by apply outputListener_resume_sound.
Qed.

Lemma async_step_evolves ev a j c :
  wf (sdk a) → closures (sdk a) !! j = Some c →
  ∃ c', closures (sdk (step ev a)) !! j = Some c' ∧ evolves c c'.
Proof.
  intros Hwf Hj. destruct ev as [ev|n t1 t2 t3].
  - destruct ev; try (by apply (step_evolves _ (sdk a))).
    rewrite async_step_incoming. by apply async_deliver_evolves.
  - cbn. destruct (suspended a !! n); [|eauto using evolves_refl].
    by apply outputListener_resume_evolves.
Qed.

Lemma async_run_snoc tr ev a : run (tr ++ [ev]) a = step ev (run tr a).
Proof. unfold run. by rewrite fold_left_app. Qed.

Lemma async_run_wf tr a : wf (sdk a) → wf (sdk (run tr a)).
Proof.
  revert a. induction tr as [|ev tr IH]; intros a Hwf; [done|].
  cbn. by apply IH, async_step_wf.
Qed.

Lemma async_run_sound tr a : sound (sdk a) → sound (sdk (run tr a)).
Proof.
  revert a. induction tr as [|ev tr IH]; intros a Hs; [done|].
  cbn. by apply IH, async_step_sound.
Qed.

Lemma async_run_evolves tr a j c :
  wf (sdk a) → closures (sdk a) !! j = Some c →
  ∃ c', closures (sdk (run tr a)) !! j = Some c' ∧ evolves c c'.
Proof.
  revert a c. induction tr as [|ev tr IH]; intros a c Hwf Hj;
    [eauto using evolves_refl|]. cbn.
  destruct (async_step_evolves ev a j c Hwf Hj) as (c1 & Hc1 & He1).
  destruct (IH (step ev a) c1 (async_step_wf ev a Hwf) Hc1) as (c2 & Hc2 & He2).
  eauto using evolves_trans.
Qed.

Lemma async_sound_reachable s0 tr : fresh s0 → sound (sdk (run tr (start s0))).
Proof. intros Hf. by apply async_run_sound, sound_fresh. Qed.

Lemma async_wf_reachable s0 tr : fresh s0 → wf (sdk (run tr (start s0))).
Proof. intros Hf. by apply sound_wf, async_sound_reachable. Qed.

(** Run to completion: when every continuation is resumed at once, with one
    reading of the clock, a call of the listener is [Sdk.outputListener]. *)
Lemma outputListener_run_to_completion j env res now s :
  Sdk.outputListener j env res now s
  = fold_left (fun acc k => outputListener_resume k now now now acc)
      (outputListener_call j env res now s).2
      (outputListener_call j env res now s).1.
Proof.
  unfold Sdk.outputListener, outputListener_call. case_decide; [|done].
  destruct (parseOutput _ _ _ _) as [[execution calls] exn].
  cbn [fst snd fold_left]. unfold outputListener_resume. cbn [k_job k_exn].
  unfold set_closure at 2 4 6. cbn [closures]. rewrite lookup_insert_eq.
  cbn [so_execution so_jobId so_timeout so_timeoutHandle so_metadata so_opts
       so_calls so_promise].
  destruct exn as [e|]; [|destruct (error execution)]; try done;
    unfold set_closure, upd_metricsCollector, streaming_cleanup, upd_socket,
      clearTimeout; destruct (so_timeoutHandle env); cbn;
    by rewrite insert_insert_eq.
Qed.

(** *** A line arrives; a failure resumes *)

(** A line with the job's id reaches the attached listener of call [j]:
    parseOutput has run, nothing is settled, and the continuation is
    suspended. *)
Lemma async_line_arrives a j env res now execution calls exn :
  wf (sdk a) →
  closures (sdk a) !! j = Some (Streaming env) →
  (OutputListener, j) ∈ handlers_of (sdk a) JOB_OUTPUT →
  jo_jobId res = so_jobId env →
  parseOutput (so_execution env) (jo_line res) (so_opts env) now
  = (execution, calls, exn) →
  let a1 := step (External (Incoming (JobOutput res) now)) a in
  closures (sdk a1) !! j
  = Some (Streaming {| so_jobId := so_jobId env; so_timeout := so_timeout env;
                       so_timeoutHandle := so_timeoutHandle env;
                       so_execution := execution;
                       so_metadata := so_metadata env; so_opts := so_opts env;
                       so_calls := so_calls env ++ calls;
                       so_promise := so_promise env |})
  ∧ {| k_job := j; k_exn := exn |} ∈ suspended a1
  ∧ timers (sdk a1) !! j = timers (sdk a) !! j
  ∧ (OutputListener, j) ∈ handlers_of (sdk a1) JOB_OUTPUT.
Proof.
  intros Hwf Hj Hin Hid Hparse a1. subst a1. rewrite async_step_incoming.
  cbn [sdk suspended event_of].
  destruct (async_deliver_own (handlers_of (sdk a) JOB_OUTPUT) res now (sdk a)
              j env) as (s_pre & Hwfp & Hfp & Hfinal & Hks); try done.
  { apply (wf_handlers _ Hwf). }
  destruct Hfp as (Hcp & Htp & Hhp & _).
  destruct Hfinal as (Hcf & Htf & Hhf & _).
  revert Hcf Htf Hhf Hks. unfold outputListener_call.
  rewrite decide_True by done. rewrite Hparse. cbn [fst snd].
  intros Hcf Htf Hhf Hks. rewrite Hcf, Htf.
  split; [cbn; by rewrite lookup_insert_eq|].
  split; [apply elem_of_app; right; apply Hks; by left|].
  split; [exact Htp|].
  apply Hhf. change (handlers_of (set_closure _ _ ?x)) with (handlers_of x).
  by apply Hhp.
Qed.

Lemma settled_stays a j env tr :
  wf (sdk a) → closures (sdk a) !! j = Some (Streaming env) →
  ∃ env', closures (sdk (run tr a)) !! j = Some (Streaming env')
          ∧ (so_promise env ≠ Pending → so_promise env' = so_promise env).
Proof.
  intros Hwf Hj.
  destruct (async_run_evolves tr a j _ Hwf Hj) as (c' & Hc' & _ & _ & He).
  destruct c' as [|env'| |]; try done. destruct He as [_ He]. by exists env'.
Qed.

(** A continuation that carries an exception resumes: it cleans up and
    rejects; the rejection takes effect when the promise is still pending. *)
Lemma async_failure_resumes a n j e t1 t2 t3 env2 :
  sound (sdk a) →
  suspended a !! n = Some {| k_job := j; k_exn := Some e |} →
  closures (sdk a) !! j = Some (Streaming env2) →
  let a3 := step (Resume n t1 t2 t3) a in
  ∃ env3,
    closures (sdk a3) !! j = Some (Streaming env3)
    ∧ so_execution env3 = so_execution env2
    ∧ so_calls env3 = so_calls env2
    ∧ (so_promise env2 = Pending →
       so_promise env3 = Rejected e
       ∧ ¬ attached j (sdk a3)
       ∧ timers (sdk a3) !! j = None
       ∧ ∀ tr, ∃ env4,
           closures (sdk (run tr a3)) !! j = Some (Streaming env4)
           ∧ so_promise env4 = Rejected e)
    ∧ (so_promise env2 ≠ Pending → so_promise env3 = so_promise env2).
Proof.
  intros Hs Hk Hj a3.
  assert (Hs3 : sound (sdk a3)) by by apply async_step_sound.
  subst a3. rewrite (async_step_resume _ _ _ _ _ _ Hk) in *. cbn [sdk] in *.
  set (s3 := outputListener_resume _ t1 t2 t3 (sdk a)) in *.
  assert (Hc3 : closures s3 !! j
                = Some (Streaming
                          {| so_jobId := so_jobId env2;
                             so_timeout := so_timeout env2;
                             so_timeoutHandle := None;
                             so_execution := so_execution env2;
                             so_metadata := so_metadata env2;
                             so_opts := so_opts env2;
                             so_calls := so_calls env2;
                             so_promise := reject e (so_promise env2) |})).
  { subst s3. unfold outputListener_resume. cbn [k_job k_exn]. rewrite Hj.
    cbn. by rewrite lookup_insert_eq. }
  eexists. split; [exact Hc3|]. cbn [so_execution so_calls so_promise].
  split; [done|]. split; [done|]. split.
  - intros Hpend. rewrite Hpend. cbn [reject].
    pose proof (sound_outcome _ Hs3 j _ Hc3) as Ho. cbn in Ho.
    rewrite Hpend in Ho. cbn in Ho. destruct Ho as [_ Hdet].
    split; [done|]. split; [done|]. split.
    + eapply settled_timer_disarmed; [exact Hs3|exact Hc3|]. cbn.
      by rewrite Hpend.
    + intros tr.
      destruct (settled_stays {| sdk := s3; suspended := delete n (suspended a) |}
                  j _ tr (sound_wf _ Hs3) Hc3) as (env4 & Hc4 & Hp4).
      exists env4. split; [done|]. cbn in Hp4. rewrite Hpend in Hp4.
      by apply Hp4.
  - intros Hne. by apply reject_settled.
Qed.




(** *** A line of output that cannot be processed *)

(** X13.  A line of output that is not valid JSON, or that decodes to
    [null], makes the listener of a streaming job fail.  In every reachable
    state, when such a line with the id of a pending streaming job reaches
    its attached listener, nothing changes at once: the execution gathered so
    far is as it was, no callback of the caller is called and the promise is
    pending; the listener is suspended with the SyntaxError (or TypeError)
    to come.  When that continuation resumes it touches neither the
    execution nor the record of callbacks, takes the listener off the socket
    and clears the timer; the promise, if still pending then, is rejected
    with the error for good, and keeps its settlement otherwise. *)
Theorem malformed_line_rejects_job s0 tr j env res now e :
  fresh s0 →
  closures (sdk (run tr (start s0))) !! j = Some (Streaming env) →
  so_promise env = Pending →
  (OutputListener, j) ∈ handlers_of (sdk (run tr (start s0))) JOB_OUTPUT →
  jo_jobId res = so_jobId env →
  malformed (jo_line res) e →
  let a1 := step (External (Incoming (JobOutput res) now)) (run tr (start s0)) in
  closures (sdk a1) !! j = Some (Streaming env)
  ∧ {| k_job := j; k_exn := Some e |} ∈ suspended a1
  ∧ ∀ (tr' : list Event) (n : nat) (t1 t2 t3 : Z),
      let a2 := run tr' a1 in
      suspended a2 !! n = Some {| k_job := j; k_exn := Some e |} →
      let a3 := step (Resume n t1 t2 t3) a2 in
      ∃ env2 env3,
        closures (sdk a2) !! j = Some (Streaming env2)
        ∧ closures (sdk a3) !! j = Some (Streaming env3)
        ∧ so_execution env3 = so_execution env2
        ∧ so_calls env3 = so_calls env2
        ∧ ¬ attached j (sdk a3)
        ∧ timers (sdk a3) !! j = None
        ∧ (so_promise env2 = Pending →
           so_promise env3 = Rejected e
           ∧ ∀ tr'', ∃ env4,
               closures (sdk (run tr'' a3)) !! j = Some (Streaming env4)
               ∧ so_promise env4 = Rejected e)
        ∧ (so_promise env2 ≠ Pending → so_promise env3 = so_promise env2).
Proof.
  intros Hfresh Hj Hpend Hin Hid Hbad a1.
  pose proof (async_sound_reachable s0 tr Hfresh) as Hs.
  pose proof (sound_wf _ Hs) as Hwf.
  pose proof (parseOutput_malformed (so_execution env) _ (so_opts env) now e
                Hbad) as Hparse.
  destruct (async_line_arrives _ j env res now _ _ _ Hwf Hj Hin Hid Hparse)
    as (Hc1 & Hk1 & _ & _).
  fold a1 in Hc1, Hk1. rewrite app_nil_r in Hc1.
  assert (Hc1' : closures (sdk a1) !! j = Some (Streaming env))
    by (rewrite Hc1; by destruct env).
  assert (Hs1 : sound (sdk a1)) by by apply async_step_sound.
  split; [done|]. split; [done|].
  intros tr' n t1 t2 t3 a2 Hk a3.
  assert (Hs2 : sound (sdk a2)) by by apply async_run_sound.
  destruct (settled_stays a1 j _ tr' (sound_wf _ Hs1) Hc1') as (env2 & Hc2 & _).
  fold a2 in Hc2.
  destruct (async_failure_resumes a2 n j e t1 t2 t3 env2 Hs2 Hk Hc2)
    as (env3 & Hc3 & He3 & Hcalls3 & Hp & Hq).
  fold a3 in Hc3, Hp, Hq.
  assert (Hs3 : sound (sdk a3)) by by apply async_step_sound.
  exists env2, env3. split; [done|]. split; [done|].
  split; [done|]. split; [done|].
  assert (Hset : so_promise env3 ≠ Pending).
  { destruct (so_promise env2) eqn:E.
    - destruct Hp as (-> & _); done.
    - rewrite Hq; done.
    - rewrite Hq; done. }
  pose proof (sound_outcome _ Hs3 j _ Hc3) as Ho. cbn in Ho.
  split; [destruct (so_promise env3); [done|tauto|tauto]|].
  split.
  { eapply settled_timer_disarmed; [exact Hs3|exact Hc3|]. cbn.
    by destruct (so_promise env3). }
  split; [|done]. intros Hp2. destruct (Hp Hp2) as (? & _ & _ & ?). by split.
Qed.

Lemma malformed_line_rejects_job_witness :
  let metadata := {| executionId := "e1"; sandboxId := "sb";
                     startTime := Some 0; endTime := None; duration := None |} in
  let tr :=
    [External (CallSendStreamingJob EXECUTE VNull new_Execution metadata None
                 "J" 0);
     External (Incoming
                 (JobOutput {| jo_jobId := "J";
                               jo_line := Some (VObj [("type", VStr "stdout");
                                                      ("text", VStr "a")]%string) |})
                 1);
     Resume 0 1 1 1] in
  let res := {| jo_jobId := "J"; jo_line := None |} in
  let a3 := run [External (Incoming (JobOutput res) 2); Resume 0 2 2 2]
              (run tr (start (new None))) in
  ∃ env3,
    closures (sdk a3) !! 0%nat = Some (Streaming env3)
    ∧ so_promise env3 = Rejected SyntaxError
    ∧ stdout (logs (so_execution env3)) = [VStr "a"].
Proof.
  intros metadata tr res a3.
  destruct (malformed_line_rejects_job (new None) tr 0
    {| so_jobId := "J"; so_timeout := 60000; so_timeoutHandle := Some 0%nat;
       so_execution :=
         {| results := [];
            logs := {| stdout := [VStr "a"]; stderr := [] |};
            error := None; executionCount := VUndefined |};
       so_metadata := metadata;
       so_opts := None; so_calls := []; so_promise := Pending |}
    res 2 SyntaxError) as (_ & _ & Hresume).
  - repeat split; reflexivity.
  - vm_compute. reflexivity.
  - reflexivity.
  - vm_compute. left.
  - reflexivity.
  - left. by split.
  - destruct (Hresume [] 0%nat 2 2 2)
      as (env2 & env3 & Hc2 & Hc3 & He & _ & _ & _ & Hp & _).
    { vm_compute. reflexivity. }
    exists env3. split; [exact Hc3|].
    assert (Hp2 : so_promise env2 = Pending
                  ∧ stdout (logs (so_execution env2)) = [VStr "a"]).
    { revert Hc2. vm_compute. intros [= <-]. by split. }
    destruct Hp2 as [Hp2 Hout].
    split; [by apply Hp|]. by rewrite He.
Defined.

(** *** What stays as it is once a job is settled *)

Lemma same_but_metadata_refl c : same_but_metadata c c.
Proof. destruct c; cbn; by repeat split. Qed.

Lemma same_but_metadata_trans c1 c2 c3 :
  same_but_metadata c1 c2 → same_but_metadata c2 c3 → same_but_metadata c1 c3.
Proof.
  destruct c1 as [e1|e1|e1|e1], c2 as [e2|e2|e2|e2]; try done;
    destruct c3 as [e3|e3|e3|e3]; cbn; try done; try congruence.
  intros (? & ? & ? & ? & ? & ? & ?) (? & ? & ? & ? & ? & ? & ?).
  repeat split; congruence.
Qed.

Lemma same_but_metadata_settled c c' :
  same_but_metadata c c' → settled_job c → settled_job c'.
Proof.
  destruct c as [e1|e1|e1|e1], c' as [e2|e2|e2|e2]; cbn; try done;
    try (by intros [= <-]).
  intros (_ & _ & _ & _ & _ & _ & ->). done.
Qed.

(** A settled streaming or terminal job under one step. *)
Lemma async_frozen_step ev a j c :
  sound (sdk a) → closures (sdk a) !! j = Some c → settled_job c →
  ∃ c', closures (sdk (step ev a)) !! j = Some c' ∧ same_but_metadata c c'.
Proof.
  intros Hs Hc Hset. pose proof (sound_wf _ Hs) as Hwf.
  assert (Hdet : ¬ attached j (sdk a)).
  { pose proof (sound_outcome _ Hs j c Hc) as Ho.
    destruct c as [|env|env|]; cbn in *; try done.
    - destruct (so_promise env); [done|tauto|tauto].
    - destruct (tm_promise env); [done|tauto|tauto]. }
  destruct ev as [ev|n t1 t2 t3].
  - assert (Hsame : closures (sdk (step (External ev) a)) !! j = Some c).
    { destruct ev as [| | |handle now|msg now| |];
        try (by apply (frozen_step _ (sdk a))).
      rewrite async_step_incoming. cbn [sdk].
      destruct (async_deliver_frame_others
                  (handlers_of (sdk a) (event_of msg)) msg now (sdk a) j)
        as [-> _]; try done.
      intros Hin. apply Hdet. by exists (event_of msg), (role_of msg). }
    exists c. split; [done|apply same_but_metadata_refl].
  - cbn [step]. destruct (suspended a !! n) as [k|] eqn:Hk;
      [|exists c; split; [done|apply same_but_metadata_refl]].
    cbn [sdk]. destruct (decide (k_job k = j)) as [Hj|Hj].
    + subst j. unfold outputListener_resume. rewrite Hc.
      destruct c as [env|env|env|e];
        try (exists c; split; [done|apply same_but_metadata_refl]);
        try (eexists; split; [exact Hc|apply same_but_metadata_refl]).
      pose proof (sound_outcome _ Hs _ _ Hc) as Ho. cbn in Ho, Hset.
      assert (Hh : so_timeoutHandle env = None)
        by (destruct (so_promise env); [done|tauto|tauto]).
      destruct (k_exn k) as [e|]; [|destruct (error (so_execution env))];
        [| |eexists; split; [exact Hc|apply same_but_metadata_refl]];
        cbn; rewrite lookup_insert_eq; (eexists; split; [done|]); cbn;
        repeat split; try done.
      * by apply reject_settled.
      * by apply resolve_settled.
    + destruct (outputListener_resume_local k t1 t2 t3 (sdk a) Hwf)
        as (_ & Hf & _).
      destruct (Hf j) as [Hc' _]; [done|]. rewrite Hc'.
      exists c. split; [done|apply same_but_metadata_refl].
Qed.

(** X16.  What a settled streaming or terminal job holds.  In every
    reachable state, once the promise of a terminal job is settled its
    closure stays exactly as it is through every later trace; once the
    promise of a streaming job (runCode) is settled, the promise, the
    execution and the record of callback calls stay as they are: late
    messages with the job's id, timers, other calls, disconnections and the
    continuations of the listener that resume afterwards change none of
    them.  Only the metadata of a streaming job is not covered: a
    continuation that resumes after the settlement may write [endTime] and
    [duration] again. *)
Theorem settled_job_is_frozen s0 tr j c :
  fresh s0 → closures (sdk (run tr (start s0))) !! j = Some c → settled_job c →
  ∀ tr', ∃ c',
    closures (sdk (run tr' (run tr (start s0)))) !! j = Some c'
    ∧ same_but_metadata c c'.
Proof.
  intros Hf Hc Hset tr'. pose proof (async_sound_reachable s0 tr Hf) as Hs.
  set (a := run tr (start s0)) in *. clearbody a.
  revert a c Hs Hc Hset. induction tr' as [|ev tr' IH]; intros a c Hs Hc Hset.
  { exists c. split; [done|apply same_but_metadata_refl]. }
  cbn. destruct (async_frozen_step ev a j c Hs Hc Hset) as (c1 & Hc1 & H1).
  destruct (IH (step ev a) c1) as (c2 & Hc2 & H2);
    [by apply async_step_sound|done|by eapply same_but_metadata_settled|].
  exists c2. split; [done|]. by eapply same_but_metadata_trans.
Qed.

(** Two error lines arrive before either continuation resumes; the first
    continuation fulfils the promise at 5.  Then the second resumes, a late
    line arrives, the timer is tried and the socket disconnects. *)
Lemma settled_job_is_frozen_witness :
  let metadata := {| executionId := "e1"; sandboxId := "sb";
                     startTime := Some 0; endTime := None; duration := None |} in
  let line fields now :=
    External (Incoming (JobOutput {| jo_jobId := "J";
                                     jo_line := Some (VObj fields) |}) now) in
  let failure := [("type", VStr "error"); ("name", VStr "E");
                  ("value", VStr "v"); ("traceback", VStr "")]%string in
  let tr :=
    [External (CallSendStreamingJob EXECUTE VNull new_Execution metadata None
                 "J" 0);
     line failure 3; line failure 4; Resume 0 5 5 5] in
  let late :=
    [Resume 0 7 7 7;
     line [("type", VStr "stdout"); ("text", VStr "late")]%string 8;
     External (TimerFires 0 60000); External SocketDisconnect] in
  ∃ env, closures (sdk (run late (run tr (start (new None))))) !! 0%nat
         = Some (Streaming env)
         ∧ so_promise env = Fulfilled 5
         ∧ stdout (logs (so_execution env)) = []
         ∧ endTime (so_metadata env) = Some 7.
Proof.
  intros metadata line failure tr late.
  assert (Hc : ∃ env, closures (sdk (run tr (start (new None)))) !! 0%nat
                      = Some (Streaming env)
                      ∧ so_promise env = Fulfilled 5
                      ∧ stdout (logs (so_execution env)) = []).
  { eexists. split; [vm_compute; reflexivity|]. split; reflexivity. }
  destruct Hc as (env & Hc & Hp & Hout).
  destruct (settled_job_is_frozen (new None) tr 0 (Streaming env))
    with (tr' := late) as (c' & Hc' & Hsame).
  - repeat split; reflexivity.
  - exact Hc.
  - cbn. by rewrite Hp.
  - destruct c' as [|env'| |]; try done.
    destruct Hsame as (_ & _ & _ & He & _ & _ & Hp').
    exists env'. split; [exact Hc'|]. split; [congruence|].
    split; [congruence|].
    revert Hc'. vm_compute. by intros [= <-].
Defined.

(** *** After a disconnection *)

Lemma not_in_flight_app j a ks s' :
  ¬ in_flight j a → (∀ k, k ∈ ks → k_job k ≠ j) →
  ¬ in_flight j {| sdk := s'; suspended := suspended a ++ ks |}.
Proof.
  intros Hnot Hks (k & [Hk|Hk]%elem_of_app & Hj).
  - apply Hnot. by exists k.
  - by apply (Hks k).
Qed.

(** A pending call that has no handler on the socket and no continuation in
    flight can only be ended by its timer. *)
Lemma async_detached_step ev a j c :
  sound (sdk a) → closures (sdk a) !! j = Some c →
  settlement c = StillPending →
  ¬ attached j (sdk a) → ¬ in_flight j a →
  (closures (sdk (step ev a)) !! j = Some c
   ∧ ¬ attached j (sdk (step ev a)) ∧ ¬ in_flight j (step ev a))
  ∨ (∃ c' e, timeout_error c = Some e
             ∧ closures (sdk (step ev a)) !! j = Some c'
             ∧ settlement c' = RejectedWith e).
Proof.
  intros Hs Hc Hpend Hdet Hfl. pose proof (sound_wf _ Hs) as Hwf.
  destruct ev as [ev|n t1 t2 t3].
  - assert (Hsync : ∀ ev', step (External ev') a
                           = {| sdk := Sdk.step ev' (sdk a);
                                suspended := suspended a |} →
              (closures (sdk (step (External ev') a)) !! j = Some c
               ∧ ¬ attached j (sdk (step (External ev') a))
               ∧ ¬ in_flight j (step (External ev') a))
              ∨ (∃ c' e, timeout_error c = Some e
                         ∧ closures (sdk (step (External ev') a)) !! j = Some c'
                         ∧ settlement c' = RejectedWith e)).
    { intros ev' ->. cbn [sdk].
      destruct (detached_step ev' (sdk a) j c Hs Hc Hpend Hdet)
        as [[Hc' Hdet']|Hout]; [left|by right].
      split; [done|]. split; [done|]. intros (k & Hk & Hj). apply Hfl.
      by exists k. }
    destruct ev as [| | |handle now|msg now| |]; try (by apply Hsync).
    left. rewrite async_step_incoming. cbn [sdk].
    assert (Hnot : (role_of msg, j) ∉ handlers_of (sdk a) (event_of msg)).
    { intros Hin. apply Hdet. by exists (event_of msg), (role_of msg). }
    pose proof (async_deliver_frame_others _ msg now (sdk a) j Hwf Hnot) as Hfr.
    split; [destruct Hfr as [-> _]; done|].
    split; [by eapply not_attached_frame|].
    apply not_in_flight_app; [done|]. intros k Hk%async_deliver_origin Hj.
    apply Hdet. exists (event_of msg), OutputListener. by rewrite <- Hj.
  - left. cbn [step]. destruct (suspended a !! n) as [k|] eqn:Hk; [|done].
    cbn [sdk].
    assert (Hne : k_job k ≠ j).
    { intros Hj. apply Hfl. exists k. split; [|done].
      by eapply list_elem_of_lookup_2. }
    destruct (outputListener_resume_local k t1 t2 t3 (sdk a) Hwf) as (_ & Hf & _).
    pose proof (Hf j ltac:(done)) as Hfr.
    split; [destruct Hfr as [-> _]; done|].
    split; [by eapply not_attached_frame|].
    intros (k' & Hk' & Hj). apply Hfl. exists k'. split; [|done].
    eapply elem_of_sublist; [exact Hk'|]. apply sublist_delete.
Qed.

Lemma async_detached_run tr a j c e :
  sound (sdk a) → closures (sdk a) !! j = Some c →
  settlement c = StillPending →
  ¬ attached j (sdk a) → ¬ in_flight j a → timeout_error c = Some e →
  ∃ c', closures (sdk (run tr a)) !! j = Some c'
        ∧ (c' = c ∨ settlement c' = RejectedWith e).
Proof.
  intros Hs Hc Hpend Hdet Hfl He. revert a Hs Hc Hdet Hfl.
  induction tr as [|ev tr IH]; intros a Hs Hc Hdet Hfl; [by eauto|]. cbn.
  destruct (async_detached_step ev a j c Hs Hc Hpend Hdet Hfl)
    as [(Hc' & Hdet' & Hfl')|(c' & e' & He' & Hc' & Hset)].
  - apply IH; [by apply async_step_sound|done|done|done].
  - assert (e' = e) by congruence. subst e'.
    destruct (async_run_evolves tr (step ev a) j c')
      as (c'' & Hc'' & _ & Hkeep & _); [by apply async_step_wf, sound_wf|done|].
    exists c''. split; [done|]. right. rewrite Hkeep; [done|]. by rewrite Hset.
Qed.

(** X10.  A disconnection orphans the pending calls.  When the socket
    disconnects in a reachable state, the handler of the "disconnect" event
    empties the registry and takes every handler of every pending call off
    the socket, but settles no promise and clears no timer.  From then on
    nothing the server sends reaches such a call, also after a reconnection:
    unless a continuation of its listener was still in flight at the
    disconnection, its closure is unchanged in every later state until its
    timer fires and rejects it with its timeout error. *)
Theorem disconnect_orphans_pending_calls s0 tr j c :
  fresh s0 → closures (sdk (run tr (start s0))) !! j = Some c →
  settlement c = StillPending →
  let a := run tr (start s0) in
  let a' := step (External SocketDisconnect) a in
  listeners (sdk a') = ∅ ∧ ¬ attached j (sdk a')
  ∧ closures (sdk a') !! j = Some c ∧ is_Some (timers (sdk a') !! j)
  ∧ ∃ e, timeout_error c = Some e
         ∧ (¬ in_flight j a →
            ∀ tr', ∃ c', closures (sdk (run tr' a')) !! j = Some c'
                         ∧ (c' = c ∨ settlement c' = RejectedWith e)).
Proof.
  intros Hf Hc Hpend. cbn zeta.
  pose proof (async_sound_reachable s0 tr Hf) as Hs.
  set (a := run tr (start s0)) in *.
  change (sdk (step (External SocketDisconnect) a))
    with (Sdk.step SocketDisconnect (sdk a)).
  assert (Hdet : ¬ attached j (Sdk.step SocketDisconnect (sdk a))).
  { intros (event & role & Hin).
    assert (Hin0 : (role, j) ∈ handlers_of (sdk a) event).
    { eapply elem_of_sublist; [exact Hin|].
      apply (cleanupAllListeners_sublist (set_isConnected false (sdk a))). }
    revert Hin.
    apply (cleanupAllListeners_detaches (set_isConnected false (sdk a))).
    - apply (wf_handlers _ (sound_wf _ Hs)).
    - by apply (sound_tracked _ Hs event role j c). }
  split; [done|]. split; [done|]. split; [done|]. split.
  { by apply (pending_timer_armed _ j c Hs Hc Hpend). }
  assert (He : ∃ e, timeout_error c = Some e).
  { destruct c; cbn in *; eauto. done. }
  destruct He as [e He]. exists e. split; [done|]. intros Hfl tr'.
  apply async_detached_run; try done.
  by apply (async_step_sound (External SocketDisconnect)).
Qed.

Lemma disconnect_orphans_pending_calls_witness :
  let tr := [External (CallSendJob "sandbox:status" VNull (Some 1000) "J" 0)] in
  let a' := step (External SocketDisconnect) (run tr (start (new None))) in
  let reply :=
    External
      (Incoming (JobResult {| jr_jobId := "J"; success := true;
                              output := VStr "running"; jr_error := None |}) 10) in
  ∃ c, closures (sdk a') !! 0%nat = Some c
       ∧ settlement c = StillPending
       ∧ closures (sdk (run [External SocketConnect; reply] a')) !! 0%nat = Some c
       ∧ ∃ c', closures (sdk (run [External SocketConnect; reply;
                                   External (TimerFires 0 1000)] a'))
                 !! 0%nat = Some c'
               ∧ settlement c' = RejectedWith (TimeoutError "Job" 1000).
Proof.
  intros tr a' reply.
  assert (Hc : ∃ c, closures (sdk (run tr (start (new None)))) !! 0%nat = Some c
                    ∧ settlement c = StillPending
                    ∧ timeout_error c = Some (TimeoutError "Job" 1000)).
  { eexists. split; [vm_compute; reflexivity|]. split; reflexivity. }
  destruct Hc as (c & Hc & Hpend & He). exists c.
  destruct (disconnect_orphans_pending_calls (new None) tr 0 c)
    as (_ & _ & Hc' & _ & e & He' & Hlater).
  - repeat split; reflexivity.
  - exact Hc.
  - exact Hpend.
  - assert (e = TimeoutError "Job" 1000) by congruence. subst e.
    fold a' in Hc', Hlater.
    assert (Hfl : ¬ in_flight 0 (run tr (start (new None)))).
    { intros (k & Hk & _). revert Hk. vm_compute. by intros ?%elem_of_nil. }
    specialize (Hlater Hfl).
    split; [exact Hc'|]. split; [exact Hpend|]. split.
    + destruct (Hlater [External SocketConnect; reply])
        as (c' & Hc'' & [->|Hrej]); [exact Hc''|].
      exfalso. revert Hc'' Hrej. vm_compute. intros [= <-]. discriminate.
    + destruct (Hlater [External SocketConnect; reply;
                        External (TimerFires 0 1000)])
        as (c' & Hc'' & [->|Hrej]);
        [|exists c'; split; [exact Hc''|exact Hrej]].
      exfalso. revert Hc''. rewrite <- Hc'. vm_compute. discriminate.
Defined.

End AsyncFacts.
